(** * Replay buffers of maddpg/replay_buffer.py

    A shallow embedding of [ReplayBuffer] and [PrioritizedReplayBuffer]
    and the properties of their ring storage, n-step fetch, prioritized
    sampling and priority updates.

    Conventions of the embedding.
    - Python integers are [Z]; numpy and Python floats are idealised as the
      real numbers [R] (no rounding, no overflow); the minimum tree also
      holds [+inf], so its values are extended reals ([xreal]).
    - A method is a computation [M St A] over the object's state [St]: it ends
      with a value and a state, or with an exception and the state the object
      was left in, or it is still waiting for a random draw ([Starved]).
    - The global generator [np.random] is an explicit list of the numbers it
      will hand out next.
    - Observation and action rows are vectors of reals; their shapes are
      assumed to conform, so [np.copyto] into a row replaces the row. *)

From Stdlib Require Import ZArith Reals Lra Lia Bool.
From stdpp Require Import base tactics option list.

Local Open Scope Z_scope.

(** ** Floats as reals *)

Definition Rltb (x y : R) : bool := if Rlt_dec x y then true else false.

(** [np.sign]. *)
Definition sign (x : R) : R :=
  if Rlt_dec x 0 then (-1)%R else if Rlt_dec 0 x then 1%R else 0%R.

(** Python's [x ** y] on floats.  [None] where the power is not a real
    number: zero to a negative power (Python raises ZeroDivisionError, a numpy
    scalar gives inf) and a negative base (in general a complex number).  The
    buffer only takes powers of positive numbers as long as the draws are in
    [[0, 1)]. *)
Definition pypow (x y : R) : option R :=
  if Rlt_dec 0 x then Some (Rpower x y)
  else if Req_dec_T x 0 then
    (if Rlt_dec 0 y then Some 0%R else if Req_dec_T y 0 then Some 1%R else None)
  else None.

(** Python's [x / y] on floats: division by zero raises (a numpy scalar
    gives inf or nan). *)
Definition pydiv (x y : R) : option R :=
  if Req_dec_T y 0 then None else Some (x / y)%R.

(** Extended reals: the values of the minimum tree. *)
Inductive xreal : Type :=
| Finite (r : R)
| PInf.

Definition xmin (a b : xreal) : xreal :=
  match a, b with
  | Finite x, Finite y => Finite (Rmin x y)
  | Finite x, PInf => Finite x
  | PInf, _ => b
  end.

(** ** Exceptions and the state monad of a method *)

Inductive exn : Type :=
| AssertionError
| IndexError
| ValueError
| ZeroDivisionError.

Inductive res (St A : Type) : Type :=
| Val (a : A) (s : St)
| Exn (e : exn) (s : St)
| Starved.

Arguments Val {St A} a s.
Arguments Exn {St A} e s.
Arguments Starved {St A}.

Definition M (St A : Type) : Type := St -> res St A.

Definition ret {St A} (a : A) : M St A := fun s => Val a s.

Definition bind {St A B} (m : M St A) (k : A -> M St B) : M St B :=
  fun s =>
    match m s with
    | Val a s' => k a s'
    | Exn e s' => Exn e s'
    | Starved => Starved
    end.

Definition get {St} : M St St := fun s => Val s s.
Definition put {St} (s : St) : M St unit := fun _ => Val tt s.
Definition raise {St A} (e : exn) : M St A := fun s => Exn e s.
Definition starve {St A} : M St A := fun _ => Starved.

Declare Scope method_scope.
Delimit Scope method_scope with method.
Notation "x <- m ;; k" := (bind m (fun x => k))
  (at level 100, m at next level, right associativity) : method_scope.
Notation "m ;; k" := (bind m (fun _ => k))
  (at level 100, right associativity) : method_scope.
Local Open Scope method_scope.

(** [assert c]. *)
Definition assert_ {St} (c : bool) : M St unit :=
  if c then ret tt else raise AssertionError.

(** A partial operation that raises [e] where it has no result. *)
Definition orRaise {St A} (e : exn) (o : option A) : M St A :=
  match o with
  | Some a => ret a
  | None => raise e
  end.

(** [for x in l: body x]. *)
Fixpoint forM_ {St A} (l : list A) (body : A -> M St unit) : M St unit :=
  match l with
  | [] => ret tt
  | x :: l' => body x ;; forM_ l' body
  end.

(** [[f x for x in l]], evaluated left to right. *)
Fixpoint mapM {St A B} (f : A -> M St B) (l : list A) : M St (list B) :=
  match l with
  | [] => ret []
  | x :: l' => y <- f x ;; ys <- mapM f l' ;; ret (y :: ys)
  end.

(** The state an object is left in by a call, when the call ended. *)
Definition final_state {St A} (r : res St A) : option St :=
  match r with
  | Val _ s => Some s
  | Exn _ s => Some s
  | Starved => None
  end.

Definition raises {St A} (r : res St A) : Prop :=
  match r with
  | Exn _ _ => True
  | _ => False
  end.

(** ** numpy arrays as lists *)

(** The position an integer index denotes in an array of [len] rows:
    negative indices count from the end, anything else out of range is an
    IndexError. *)
Definition np_norm (len i : Z) : option nat :=
  if (0 <=? i) && (i <? len) then Some (Z.to_nat i)
  else if (- len <=? i) && (i <? 0) then Some (Z.to_nat (i + len))
  else None.

(** [a[i]] *)
Definition np_get {A} (a : list A) (i : Z) : option A :=
  match np_norm (Z.of_nat (length a)) i with
  | Some k => a !! k
  | None => None
  end.

(** [np.copyto(a[i], v)] *)
Definition np_set {A} (a : list A) (i : Z) (v : A) : option (list A) :=
  match np_norm (Z.of_nat (length a)) i with
  | Some k => Some (<[k:=v]> a)
  | None => None
  end.

(** [a[idxs]] for an integer array [idxs]. *)
Fixpoint np_take {A} (a : list A) (idxs : list Z) : option (list A) :=
  match idxs with
  | [] => Some []
  | i :: idxs' =>
      match np_get a i, np_take a idxs' with
      | Some x, Some xs => Some (x :: xs)
      | _, _ => None
      end
  end.

(** [idxs.max()]: a ValueError on an empty array. *)
Definition np_max (idxs : list Z) : option Z :=
  match idxs with
  | [] => None
  | i :: idxs' => Some (fold_left Z.max idxs' i)
  end.

(** [np.random.randint(low, high, size)] reading the generator's next
    integers [draws]: an empty result for [size = 0], a ValueError for
    [low >= high] or a negative size, otherwise [size] numbers of
    [[low, high)]. *)
Definition randint {St} (low high size : Z) (draws : list Z) : M St (list Z) :=
  if size =? 0 then ret []
  else if (high <=? low) || (size <? 0) then raise ValueError
  else if Z.of_nat (length draws) <? size then starve
  else ret (map (fun d => low + d mod (high - low)) (take (Z.to_nat size) draws)).

(** ** Segment trees *)

(** Modelled from the spec: the module [segment_tree] ([SumSegmentTree],
    [MinSegmentTree]) is imported by the buffer but is not among the sources.
    A tree over [T] leaves is represented by its leaf array; an inner node is
    the reduction of its descendants, so every query is a function of the
    leaves.  Leaves start at the neutral element of the reduction; a query
    or an update outside [[0, T)] fails (IndexOutOfRange); a range query is
    over the inclusive range [[lo, hi]]. *)
Module SegmentTree.
Section Generic.
Context {V : Type} (operation : V -> V -> V) (neutral : V).

Definition init (capacity : Z) : list V :=
  replicate (Z.to_nat capacity) neutral.

Definition in_range (tree : list V) (i : Z) : bool :=
  (0 <=? i) && (i <? Z.of_nat (length tree)).

(** [tree[i]] *)
Definition getitem (tree : list V) (i : Z) : option V :=
  if in_range tree i then tree !! Z.to_nat i else None.

(** [tree[i] = v] *)
Definition setitem (tree : list V) (i : Z) (v : V) : option (list V) :=
  if in_range tree i then Some (<[Z.to_nat i := v]> tree) else None.

Definition reduce_all (tree : list V) : V :=
  fold_right operation neutral tree.

(** The reduction of the leaves [lo .. hi], both included. *)
Definition reduce (tree : list V) (lo hi : Z) : option V :=
  if in_range tree lo && in_range tree hi
  then Some (reduce_all (take (Z.to_nat (hi + 1 - lo)) (drop (Z.to_nat lo) tree)))
  else None.
End Generic.
End SegmentTree.

Module SumSegmentTree.
Abbreviation t := (list R).
Definition init : Z -> t := SegmentTree.init 0%R.
Definition getitem : t -> Z -> option R := SegmentTree.getitem.
Definition setitem : t -> Z -> R -> option t := SegmentTree.setitem.
(** [tree.sum(lo, hi)] *)
Definition sum : t -> Z -> Z -> option R := SegmentTree.reduce Rplus 0%R.
(** [tree.sum()] *)
Definition total : t -> R := SegmentTree.reduce_all Rplus 0%R.

(** The smallest leaf index whose cumulative sum exceeds [mass]: the walk
    from the root goes left when [mass] is below the left subtree's sum and
    otherwise subtracts that sum and goes right, so on non-negative leaves
    it stops at the first leaf where the running mass falls below the
    leaf, and at the last leaf when there is none. *)
Fixpoint scan (leaves : list R) (mass : R) (i : Z) : Z :=
  match leaves with
  | [] => i - 1
  | v :: leaves' =>
      if Rlt_dec mass v then i else scan leaves' (mass - v)%R (i + 1)
  end.

Definition find_prefixsum_idx (tree : t) (mass : R) : Z :=
  scan tree mass 0.
End SumSegmentTree.

Module MinSegmentTree.
Abbreviation t := (list xreal).
Definition init : Z -> t := SegmentTree.init PInf.
Definition getitem : t -> Z -> option xreal := SegmentTree.getitem.
Definition setitem : t -> Z -> xreal -> option t := SegmentTree.setitem.
(** [tree.min()] *)
Definition min : t -> xreal := SegmentTree.reduce_all xmin PInf.
End MinSegmentTree.

(** ** ReplayBuffer *)

Abbreviation vec := (list R).

(** What one call of [add] is given. *)
Record transition : Type := Transition {
  t_obs : vec;
  t_action : vec;
  t_reward : R;
  t_next_obs : vec;
  t_done : bool
}.

(** What [fetch] returns: one row per sampled index in each component. *)
Record batch : Type := Batch {
  b_obses : list vec;
  b_actions : list vec;
  b_rewards : list R;
  b_next_obses : list vec;
  b_not_dones : list R
}.

(** [not done] stored into a float array. *)
Definition not_done_flag (done : bool) : R := if done then 0%R else 1%R.

Module ReplayBuffer.

(** The attributes of the object ([device] only says where the returned
    tensors are placed and is left out). *)
Record t : Type := Make {
  capacity : Z;
  obses : list vec;
  next_obses : list vec;
  actions : list vec;
  rewards : list R;
  not_dones : list R;
  idx : Z;
  full : bool
}.

Definition set_obses (v : list vec) (self : t) : t :=
  Make (capacity self) v (next_obses self) (actions self) (rewards self)
       (not_dones self) (idx self) (full self).
Definition set_next_obses (v : list vec) (self : t) : t :=
  Make (capacity self) (obses self) v (actions self) (rewards self)
       (not_dones self) (idx self) (full self).
Definition set_actions (v : list vec) (self : t) : t :=
  Make (capacity self) (obses self) (next_obses self) v (rewards self)
       (not_dones self) (idx self) (full self).
Definition set_rewards (v : list R) (self : t) : t :=
  Make (capacity self) (obses self) (next_obses self) (actions self) v
       (not_dones self) (idx self) (full self).
Definition set_not_dones (v : list R) (self : t) : t :=
  Make (capacity self) (obses self) (next_obses self) (actions self)
       (rewards self) v (idx self) (full self).
Definition set_idx (v : Z) (self : t) : t :=
  Make (capacity self) (obses self) (next_obses self) (actions self)
       (rewards self) (not_dones self) v (full self).
Definition set_full (v : bool) (self : t) : t :=
  Make (capacity self) (obses self) (next_obses self) (actions self)
       (rewards self) (not_dones self) (idx self) v.

(** [__init__]: [np.empty] leaves the five arrays uninitialised; [junk]
    stands for what the memory holds, slot by slot.  [np.empty] rejects a
    negative capacity. *)
Definition init (capacity : Z) (junk : nat -> transition) : exn + t :=
  if capacity <? 0 then inl ValueError
  else
    let slots := junk <$> seq 0 (Z.to_nat capacity) in
    inr (Make capacity
              (t_obs <$> slots) (t_next_obs <$> slots) (t_action <$> slots)
              (t_reward <$> slots) ((fun s => not_done_flag (t_done s)) <$> slots)
              0 false).

(** [__len__] *)
Definition len (self : t) : Z :=
  if full self then capacity self else idx self.

(** [np.copyto(self.<column>[self.idx], v)] *)
Definition copyto {A} (column : t -> list A) (store : list A -> t -> t) (v : A)
  : M t unit :=
  self <- get ;;
  a <- orRaise IndexError (np_set (column self) (idx self) v) ;;
  put (store a self).

Definition add (obs action : vec) (reward : R) (next_obs : vec) (done : bool)
  : M t unit :=
  copyto obses set_obses obs ;;
  copyto actions set_actions action ;;
  copyto rewards set_rewards reward ;;
  copyto next_obses set_next_obses next_obs ;;
  copyto not_dones set_not_dones (not_done_flag done) ;;
  self <- get ;;
  (if capacity self =? 0 then raise ZeroDivisionError else ret tt) ;;
  put (set_idx ((idx self + 1) mod capacity self) self) ;;
  self <- get ;;
  put (set_full (full self || (idx self =? 0)) self).

(** The loop of [fetch]: [k] iterations are left, [i] is the loop variable;
    [rewards] and [not_dones] are the two accumulators, one entry per
    sampled index. *)
Fixpoint fetch_loop (self : t) (idxs : list Z) (discount : R)
    (k : nat) (i : Z) (rewards_acc not_dones_acc : list R)
  : option (list R * list R) :=
  match k with
  | O => Some (rewards_acc, not_dones_acc)
  | S k' =>
      match np_take (rewards self) ((fun j => j + i) <$> idxs),
            np_take (not_dones self) ((fun j => j + i) <$> idxs) with
      | Some r, Some nd =>
          fetch_loop self idxs discount k' (i + 1)
            (zip_with (fun acc term => (acc + term)%R) rewards_acc
               (zip_with (fun c x => (discount ^ Z.to_nat i * c * sign x)%R)
                  not_dones_acc r))
            (zip_with Rmin not_dones_acc nd)
      | _, _ => None
      end
  end.

Definition fetch (idxs : list Z) (discount : R) (n : Z) : M t batch :=
  self <- get ;;
  m <- orRaise ValueError (np_max idxs) ;;
  assert_ (m + n <=? len self) ;;
  o <- orRaise IndexError (np_take (obses self) idxs) ;;
  no <- orRaise IndexError
          (np_take (next_obses self) ((fun j => j + n - 1) <$> idxs)) ;;
  a <- orRaise IndexError (np_take (actions self) idxs) ;;
  acc <- orRaise IndexError
           (fetch_loop self idxs discount (Z.to_nat n) 0
              (replicate (length idxs) 0%R) (replicate (length idxs) 1%R)) ;;
  ret (Batch o a (fst acc) no (snd acc)).

Definition sample_idxs (batch_size n : Z) (draws : list Z) : M t (list Z) :=
  self <- get ;;
  let last_idx := (if full self then capacity self else idx self) - (n - 1) in
  randint 0 last_idx batch_size draws.

Definition sample_multistep (batch_size : Z) (discount : R) (n : Z)
    (draws : list Z) : M t batch :=
  self <- get ;;
  assert_ ((n <=? idx self) || full self) ;;
  idxs <- sample_idxs batch_size n draws ;;
  fetch idxs discount n.

End ReplayBuffer.

(** ** PrioritizedReplayBuffer *)

(** What the prioritized [sample_multistep] returns: the fetched batch, the
    importance-sampling weights and the sampled indices. *)
Record prioritized_sample : Type := PrioritizedSample {
  ps_batch : batch;
  ps_weights : list R;
  ps_idxs : list Z
}.

Module PrioritizedReplayBuffer.

(** The subclass: the attributes of [ReplayBuffer] ([base]) and its own. *)
Record t : Type := Make {
  base : ReplayBuffer.t;
  alpha : R;
  sum_tree : SumSegmentTree.t;
  min_tree : MinSegmentTree.t;
  max_priority : R
}.

Definition set_base (v : ReplayBuffer.t) (self : t) : t :=
  Make v (alpha self) (sum_tree self) (min_tree self) (max_priority self).
Definition set_sum_tree (v : SumSegmentTree.t) (self : t) : t :=
  Make (base self) (alpha self) v (min_tree self) (max_priority self).
Definition set_min_tree (v : MinSegmentTree.t) (self : t) : t :=
  Make (base self) (alpha self) (sum_tree self) v (max_priority self).
Definition set_max_priority (v : R) (self : t) : t :=
  Make (base self) (alpha self) (sum_tree self) (min_tree self) v.

(** A method inherited from [ReplayBuffer], run on this object. *)
Definition super {A} (m : M ReplayBuffer.t A) : M t A :=
  fun self =>
    match m (base self) with
    | Val a b => Val a (set_base b self)
    | Exn e b => Exn e (set_base b self)
    | Starved => Starved
    end.

Definition len (self : t) : Z := ReplayBuffer.len (base self).

(** [while tree_capacity < capacity: tree_capacity *= 2]; the loop runs
    fewer than [capacity] times, which bounds [fuel]. *)
Fixpoint tree_capacity_loop (fuel : nat) (tree_capacity capacity : Z) : Z :=
  match fuel with
  | O => tree_capacity
  | S fuel' =>
      if tree_capacity <? capacity
      then tree_capacity_loop fuel' (tree_capacity * 2) capacity
      else tree_capacity
  end.

(** [__init__] *)
Definition init (capacity : Z) (alpha : R) (junk : nat -> transition)
  : exn + t :=
  match ReplayBuffer.init capacity junk with
  | inl e => inl e
  | inr b =>
      if Rlt_dec alpha 0 then inl AssertionError
      else
        let tree_capacity := tree_capacity_loop (Z.to_nat capacity) 1 capacity in
        inr (Make b alpha (SumSegmentTree.init tree_capacity)
                  (MinSegmentTree.init tree_capacity) 1%R)
  end.

(** [self.sum_tree[i] = v] *)
Definition sum_tree_set (i : Z) (v : R) : M t unit :=
  self <- get ;;
  tree <- orRaise IndexError (SumSegmentTree.setitem (sum_tree self) i v) ;;
  put (set_sum_tree tree self).

(** [self.min_tree[i] = v] *)
Definition min_tree_set (i : Z) (v : R) : M t unit :=
  self <- get ;;
  tree <- orRaise IndexError (MinSegmentTree.setitem (min_tree self) i (Finite v)) ;;
  put (set_min_tree tree self).

Definition add (obs action : vec) (reward : R) (next_obs : vec) (done : bool)
  : M t unit :=
  super (ReplayBuffer.add obs action reward next_obs done) ;;
  self <- get ;;
  p <- orRaise ZeroDivisionError (pypow (max_priority self) (alpha self)) ;;
  sum_tree_set (ReplayBuffer.idx (base self)) p ;;
  self <- get ;;
  p <- orRaise ZeroDivisionError (pypow (max_priority self) (alpha self)) ;;
  min_tree_set (ReplayBuffer.idx (base self)) p.

(** The [while True] loop of [sample_idxs] for band [i]: draws are read
    until one lands on an index that leaves room for [n] steps.  [None]
    when the draws end first. *)
Fixpoint draw_idx (self : t) (every_range_len : R) (i n : Z) (draws : list R)
  : option (Z * list R) :=
  match draws with
  | [] => None
  | u :: draws' =>
      let mass := (u * every_range_len + IZR i * every_range_len)%R in
      let idx := SumSegmentTree.find_prefixsum_idx (sum_tree self) mass in
      if idx + n <=? len self then Some (idx, draws')
      else draw_idx self every_range_len i n draws'
  end.

(** The [for i in range(batch_size)] loop: [k] bands are left, [i] is the
    current one. *)
Fixpoint draw_bands (self : t) (every_range_len : R) (n : Z)
    (k : nat) (i : Z) (draws : list R) : option (list Z) :=
  match k with
  | O => Some []
  | S k' =>
      match draw_idx self every_range_len i n draws with
      | None => None
      | Some (idx, draws') =>
          match draw_bands self every_range_len n k' (i + 1) draws' with
          | None => None
          | Some idxs => Some (idx :: idxs)
          end
      end
  end.

Definition sample_idxs (batch_size n : Z) (draws : list R) : M t (list Z) :=
  self <- get ;;
  p_total <- orRaise IndexError
               (SumSegmentTree.sum (sum_tree self) 0 (len self - n - 1)) ;;
  every_range_len <- orRaise ZeroDivisionError (pydiv p_total (IZR batch_size)) ;;
  match draw_bands self every_range_len n (Z.to_nat batch_size) 0 draws with
  | Some idxs => ret idxs
  | None => starve
  end.

(** The weight of one sampled index. *)
Definition weight_of (self : t) (beta max_weight : R) (idx : Z) : M t R :=
  leaf <- orRaise IndexError (SumSegmentTree.getitem (sum_tree self) idx) ;;
  p_sample <- orRaise ZeroDivisionError
                (pydiv leaf (SumSegmentTree.total (sum_tree self))) ;;
  weight <- orRaise ZeroDivisionError
              (pypow (p_sample * IZR (len self)) (- beta)) ;;
  orRaise ZeroDivisionError (pydiv weight max_weight).

(** [sample_multistep].  With no leaf set the minimum is [+inf] and the
    sum is 0, so [p_min] already divides by zero; the model raises at
    [p_min] for an infinite minimum whatever the sum. *)
Definition sample_multistep (batch_size : Z) (beta discount : R) (n : Z)
    (draws : list R) : M t prioritized_sample :=
  self <- get ;;
  assert_ ((n <=? ReplayBuffer.idx (base self)) || ReplayBuffer.full (base self)) ;;
  assert_ (Rltb 0 beta) ;;
  idxs <- sample_idxs batch_size n draws ;;
  p_min <- orRaise ZeroDivisionError
             (match MinSegmentTree.min (min_tree self) with
              | Finite m => pydiv m (SumSegmentTree.total (sum_tree self))
              | PInf => None
              end) ;;
  max_weight <- orRaise ZeroDivisionError
                  (pypow (p_min * IZR (len self)) (- beta)) ;;
  weights <- mapM (weight_of self beta max_weight) idxs ;;
  sample <- super (ReplayBuffer.fetch idxs discount n) ;;
  ret (PrioritizedSample sample weights idxs).

(** The body of the loop of [update_priorities]. *)
Definition update_priority (entry : Z * R) : M t unit :=
  let '(idx, prio) := entry in
  assert_ (Rltb 0 prio) ;;
  self <- get ;;
  assert_ ((0 <=? idx) && (idx <? len self)) ;;
  p <- orRaise ZeroDivisionError (pypow prio (alpha self)) ;;
  sum_tree_set idx p ;;
  self <- get ;;
  p <- orRaise ZeroDivisionError (pypow prio (alpha self)) ;;
  min_tree_set idx p ;;
  self <- get ;;
  put (set_max_priority (Rmax (max_priority self) prio) self).

Definition update_priorities (idxs : list Z) (prios : list R) : M t unit :=
  assert_ (Nat.eqb (length idxs) (length prios)) ;;
  forM_ (zip idxs prios) update_priority.

End PrioritizedReplayBuffer.

(** ** MultiAgentReplayBuffer *)

(** [sample] of the multi-agent buffer changes nothing and can also fail
    inside torch: its outcome is a value, an exception, or nothing yet when
    the generator's picks are not a selection it can make. *)
Inductive pyerr : Type :=
| Py (e : exn)
| TorchRuntimeError.

Inductive outcome (A : Type) : Type :=
| Returned (a : A)
| Raised (e : pyerr)
| NotDrawn.

Arguments Returned {A} a.
Arguments Raised {A} e.
Arguments NotDrawn {A}.

(** The tuple [push] stores: per-agent states, actions and next states,
    the rewards as a numpy array, and the [done] flag. *)
Record experience : Type := Experience {
  e_state : list vec;
  e_action : list vec;
  e_reward : list R;
  e_next_state : list vec;
  e_done : bool
}.

(** The eight lists [sample] builds and returns. *)
Record agent_batch : Type := AgentBatch {
  obs_batch : list (list vec);
  indiv_action_batch : list (list vec);
  indiv_reward_batch : list (list R);
  next_obs_batch : list (list vec);
  global_state_batch : list vec;
  global_actions_batch : list vec;
  global_next_state_batch : list vec;
  done_batch : list bool
}.

(** [np.concatenate] of a list of vectors: a ValueError on an empty list. *)
Definition np_concatenate (l : list vec) : outcome vec :=
  match l with
  | [] => Raised (Py ValueError)
  | _ => Returned (concat l)
  end.

(** [torch.cat] of a list of vectors: a RuntimeError on an empty list. *)
Definition torch_cat (l : list vec) : outcome vec :=
  match l with
  | [] => Raised TorchRuntimeError
  | _ => Returned (concat l)
  end.

(** [l[i]] on a Python list or a one-dimensional array, [i >= 0]. *)
Definition py_index {A} (l : list A) (i : nat) : outcome A :=
  match l !! i with
  | Some x => Returned x
  | None => Raised (Py IndexError)
  end.

Fixpoint pick_all {A} (population : list A) (picks : list nat)
  : option (list A) :=
  match picks with
  | [] => Some []
  | i :: picks' =>
      match population !! i, pick_all population picks' with
      | Some x, Some xs => Some (x :: xs)
      | _, _ => None
      end
  end.

(** [random.sample(population, k)]: a ValueError unless [0 <= k <= len];
    otherwise the elements at the [k] positions the generator picks
    ([picks], which it takes distinct and inside the population). *)
Definition random_sample {A} (population : list A) (k : Z) (picks : list nat)
  : outcome (list A) :=
  if (k <? 0) || (Z.of_nat (length population) <? k) then Raised (Py ValueError)
  else if Z.of_nat (length picks) <? k then NotDrawn
  else match pick_all population (take (Z.to_nat k) picks) with
       | Some l => Returned l
       | None => NotDrawn
       end.

Module MultiAgentReplayBuffer.

Record t : Type := Make {
  max_size : Z;
  num_agents : Z;
  buffer : list experience
}.

(** [__init__]: [deque(maxlen=max_size)] rejects a negative [maxlen]. *)
Definition init (num_agents max_size : Z) : exn + t :=
  if max_size <? 0 then inl ValueError
  else inr (Make max_size num_agents []).

(** [self.buffer.append(x)] on a deque with [maxlen]: the element goes to
    the right end and, when that makes the deque longer than [maxlen], the
    leftmost element is dropped. *)
Definition deque_append {A} (maxlen : Z) (d : list A) (x : A) : list A :=
  let d' := d ++ [x] in
  if maxlen <? Z.of_nat (length d') then drop 1 d' else d'.

Definition push (state action : list vec) (reward : list R)
    (next_state : list vec) (done : bool) (self : t) : t :=
  let experience := Experience state action reward next_state done in
  Make (max_size self) (num_agents self)
       (deque_append (max_size self) (buffer self) experience).

(** [__len__] *)
Definition len (self : t) : Z := Z.of_nat (length (buffer self)).

(** [l[i].append(x)] *)
Definition append_at {A} (l : list (list A)) (i : nat) (x : A) : list (list A) :=
  alter (fun row => row ++ [x]) i l.

(** The loop [for i in range(self.num_agents)] for one experience: [k]
    agents are left, [i] is the current one. *)
Fixpoint agent_loop (e : experience) (k : nat) (i : nat) (out : agent_batch)
  : outcome agent_batch :=
  match k with
  | O => Returned out
  | S k' =>
      match py_index (e_state e) i with
      | Returned obs_i =>
          match py_index (e_action e) i with
          | Returned action_i =>
              match py_index (e_reward e) i with
              | Returned reward_i =>
                  match py_index (e_next_state e) i with
                  | Returned next_obs_i =>
                      agent_loop e k' (S i)
                        (AgentBatch
                           (append_at (obs_batch out) i obs_i)
                           (append_at (indiv_action_batch out) i action_i)
                           (append_at (indiv_reward_batch out) i reward_i)
                           (append_at (next_obs_batch out) i next_obs_i)
                           (global_state_batch out) (global_actions_batch out)
                           (global_next_state_batch out) (done_batch out))
                  | Raised err => Raised err
                  | NotDrawn => NotDrawn
                  end
              | Raised err => Raised err
              | NotDrawn => NotDrawn
              end
          | Raised err => Raised err
          | NotDrawn => NotDrawn
          end
      | Raised err => Raised err
      | NotDrawn => NotDrawn
      end
  end.

(** The body of [for experience in batch]. *)
Definition experience_step (num_agents : Z) (e : experience) (out : agent_batch)
  : outcome agent_batch :=
  match agent_loop e (Z.to_nat num_agents) 0 out with
  | Returned out1 =>
      match np_concatenate (e_state e) with
      | Returned gs =>
          match torch_cat (e_action e) with
          | Returned ga =>
              match np_concatenate (e_next_state e) with
              | Returned gns =>
                  Returned
                    (AgentBatch (obs_batch out1) (indiv_action_batch out1)
                       (indiv_reward_batch out1) (next_obs_batch out1)
                       (global_state_batch out1 ++ [gs])
                       (global_actions_batch out1 ++ [ga])
                       (global_next_state_batch out1 ++ [gns])
                       (done_batch out1 ++ [e_done e]))
              | Raised err => Raised err
              | NotDrawn => NotDrawn
              end
          | Raised err => Raised err
          | NotDrawn => NotDrawn
          end
      | Raised err => Raised err
      | NotDrawn => NotDrawn
      end
  | Raised err => Raised err
  | NotDrawn => NotDrawn
  end.

Fixpoint batch_loop (num_agents : Z) (batch : list experience) (out : agent_batch)
  : outcome agent_batch :=
  match batch with
  | [] => Returned out
  | e :: batch' =>
      match experience_step num_agents e out with
      | Returned out' => batch_loop num_agents batch' out'
      | Raised err => Raised err
      | NotDrawn => NotDrawn
      end
  end.

(** [[[] for _ in range(self.num_agents)]] *)
Definition empty_rows {A} (num_agents : Z) : list (list A) :=
  replicate (Z.to_nat num_agents) [].

Definition sample (batch_size : Z) (picks : list nat) (self : t)
  : outcome agent_batch :=
  let out := AgentBatch (empty_rows (num_agents self)) (empty_rows (num_agents self))
               (empty_rows (num_agents self)) (empty_rows (num_agents self))
               [] [] [] [] in
  match random_sample (buffer self) batch_size picks with
  | Returned batch => batch_loop (num_agents self) batch out
  | Raised err => Raised err
  | NotDrawn => NotDrawn
  end.

End MultiAgentReplayBuffer.

(** ** Notions used by the statements *)

(** The state of a well-formed buffer: five arrays of [capacity] rows and a
    cursor inside them.  [__init__] establishes it and [add] keeps it. *)
Record wf (b : ReplayBuffer.t) : Prop := Wf {
  wf_capacity : 0 < ReplayBuffer.capacity b;
  wf_idx : 0 <= ReplayBuffer.idx b < ReplayBuffer.capacity b;
  wf_obses : Z.of_nat (length (ReplayBuffer.obses b)) = ReplayBuffer.capacity b;
  wf_next_obses : Z.of_nat (length (ReplayBuffer.next_obses b)) = ReplayBuffer.capacity b;
  wf_actions : Z.of_nat (length (ReplayBuffer.actions b)) = ReplayBuffer.capacity b;
  wf_rewards : Z.of_nat (length (ReplayBuffer.rewards b)) = ReplayBuffer.capacity b;
  wf_not_dones : Z.of_nat (length (ReplayBuffer.not_dones b)) = ReplayBuffer.capacity b
}.

(** The transition held by slot [j] of the five arrays. *)
Definition slot (b : ReplayBuffer.t) (j : nat)
  : option (vec * vec * R * vec * R) :=
  match ReplayBuffer.obses b !! j, ReplayBuffer.actions b !! j,
        ReplayBuffer.rewards b !! j, ReplayBuffer.next_obses b !! j,
        ReplayBuffer.not_dones b !! j with
  | Some o, Some a, Some r, Some no, Some nd => Some (o, a, r, no, nd)
  | _, _, _, _, _ => None
  end.

(** What a slot holds once transition [x] has been written to it. *)
Definition stored (x : transition) : vec * vec * R * vec * R :=
  (t_obs x, t_action x, t_reward x, t_next_obs x, not_done_flag (t_done x)).

(** [add] called with the components of [x]. *)
Definition add_transition (x : transition) : M ReplayBuffer.t unit :=
  ReplayBuffer.add (t_obs x) (t_action x) (t_reward x) (t_next_obs x) (t_done x).

Definition add_prioritized (x : transition) : M PrioritizedReplayBuffer.t unit :=
  PrioritizedReplayBuffer.add (t_obs x) (t_action x) (t_reward x) (t_next_obs x)
    (t_done x).

(** The row an array holds at index [i] ([d] outside the array). *)
Definition at_ {A} (d : A) (a : list A) (i : Z) : A :=
  default d (a !! Z.to_nat i).

(** The running continuation flag of the n-step window that starts at [i],
    after [k] steps: it starts at 1 and takes the minimum with the flag of
    each step. *)
Fixpoint notDone_running (not_dones : list R) (i : Z) (k : nat) : R :=
  match k with
  | O => 1%R
  | S k' =>
      Rmin (notDone_running not_dones i k') (at_ 0%R not_dones (i + Z.of_nat k'))
  end.

(** The n-step return of the window that starts at [i]: the sum over
    [k < n] of [discount^k * notDone_running * sign(reward[i+k])]. *)
Fixpoint nstep_return (rewards not_dones : list R) (discount : R) (i : Z)
    (n : nat) : R :=
  match n with
  | O => 0%R
  | S n' =>
      (nstep_return rewards not_dones discount i n'
       + discount ^ n' * notDone_running not_dones i n'
         * sign (at_ 0%R rewards (i + Z.of_nat n')))%R
  end.

(** ** Concrete buffers used to exercise the statements *)

(** The n-step scenario: capacity 4, rewards [+5, -1, 0, +2], nothing
    terminal; the buffer as four calls of [add] leave it. *)
Definition scenario_transitions : list transition :=
  [Transition [] [] 5 [] false; Transition [] [] (-1) [] false;
   Transition [] [] 0 [] false; Transition [] [] 2 [] false].

Definition scenario_buffer : ReplayBuffer.t :=
  ReplayBuffer.Make 4 [[]; []; []; []] [[]; []; []; []] [[]; []; []; []]
    [5%R; (-1)%R; 0%R; 2%R] [1%R; 1%R; 1%R; 1%R] 0 true.

(** A buffer of capacity 3 as [__init__] leaves it, the memory holding
    zeros. *)
Definition blank : transition := Transition [] [] 0 [] true.

Definition fresh3 : ReplayBuffer.t :=
  ReplayBuffer.Make 3 [[]; []; []] [[]; []; []] [[]; []; []]
    [0%R; 0%R; 0%R] [0%R; 0%R; 0%R] 0 false.

Definition four_transitions : list transition :=
  [Transition [1%R] [] 1 [2%R] false; Transition [2%R] [] 0 [3%R] false;
   Transition [3%R] [] (-1) [4%R] false; Transition [4%R] [] 1 [5%R] true].

(** A well-formed prioritized buffer: a well-formed ring, trees with a leaf
    for every slot, and a positive [max_priority]. *)
Record pwf (p : PrioritizedReplayBuffer.t) : Prop := Pwf {
  pwf_base : wf (PrioritizedReplayBuffer.base p);
  pwf_sum_tree :
    ReplayBuffer.capacity (PrioritizedReplayBuffer.base p)
    <= Z.of_nat (length (PrioritizedReplayBuffer.sum_tree p));
  pwf_min_tree :
    ReplayBuffer.capacity (PrioritizedReplayBuffer.base p)
    <= Z.of_nat (length (PrioritizedReplayBuffer.min_tree p));
  pwf_max_priority : (0 < PrioritizedReplayBuffer.max_priority p)%R
}.

(** A prioritized buffer of capacity 2 with [alpha = 1] as [__init__]
    leaves it. *)
Definition pfresh2 : PrioritizedReplayBuffer.t :=
  PrioritizedReplayBuffer.Make
    (ReplayBuffer.Make 2 [[]; []] [[]; []] [[]; []] [0%R; 0%R] [0%R; 0%R] 0 false)
    1 [0%R; 0%R] [PInf; PInf] 1.

Definition x1 : transition := Transition [1%R] [] 1 [2%R] false.
Definition x2 : transition := Transition [2%R] [] 0 [3%R] false.
Definition x3 : transition := Transition [3%R] [] (-1) [4%R] false.

(** ** What a call does to the state *)

(** Whenever the call [m] started in state [s] ends, by returning or by
    raising, the state it leaves is related to [s] by [rel]. *)
Definition preserves_at {St A} (rel : St -> St -> Prop) (m : M St A) (s : St)
  : Prop :=
  match final_state (m s) with
  | Some s' => rel s s'
  | None => True
  end.

(** The call leaves the object exactly as it found it. *)
Definition leaves_unchanged {St A} (m : M St A) (s : St) : Prop :=
  preserves_at eq m s.

(** ** Priorities *)

(** An entry [(idx, prio)] that passes the two assertions of
    [update_priorities] on buffer [p]. *)
Definition valid_entry (p : PrioritizedReplayBuffer.t) (e : Z * R) : Prop :=
  (0 < snd e)%R /\ 0 <= fst e < PrioritizedReplayBuffer.len p.

(** The buffer after a valid entry has been applied: the leaf of the index
    is [prio^alpha] in both trees and [max_priority] has been raised. *)
Definition apply_entry (p : PrioritizedReplayBuffer.t) (e : Z * R)
  : PrioritizedReplayBuffer.t :=
  let v := Rpower (snd e) (PrioritizedReplayBuffer.alpha p) in
  PrioritizedReplayBuffer.Make (PrioritizedReplayBuffer.base p)
    (PrioritizedReplayBuffer.alpha p)
    (<[Z.to_nat (fst e) := v]> (PrioritizedReplayBuffer.sum_tree p))
    (<[Z.to_nat (fst e) := Finite v]> (PrioritizedReplayBuffer.min_tree p))
    (Rmax (PrioritizedReplayBuffer.max_priority p) (snd e)).

Definition apply_entries (p : PrioritizedReplayBuffer.t) (es : list (Z * R))
  : PrioritizedReplayBuffer.t :=
  fold_left apply_entry es p.

(** The calls that change a prioritized buffer. *)
Inductive call : Type :=
| CallAdd (x : transition)
| CallUpdate (idxs : list Z) (prios : list R).

Definition run_call (c : call) : M PrioritizedReplayBuffer.t unit :=
  match c with
  | CallAdd x => add_prioritized x
  | CallUpdate idxs prios => PrioritizedReplayBuffer.update_priorities idxs prios
  end.

(** The buffer after a call, whether the call returned or raised. *)
Definition after (p : PrioritizedReplayBuffer.t) (c : call)
  : PrioritizedReplayBuffer.t :=
  match final_state (run_call c p) with
  | Some p' => p'
  | None => p
  end.

Definition after_all (p : PrioritizedReplayBuffer.t) (cs : list call)
  : PrioritizedReplayBuffer.t :=
  fold_left after cs p.

(** [max_priority] has not gone down. *)
Definition max_priority_le (p p' : PrioritizedReplayBuffer.t) : Prop :=
  (PrioritizedReplayBuffer.max_priority p
   <= PrioritizedReplayBuffer.max_priority p')%R.

(** The prioritized buffer of capacity 2 after [x1] and [x2] were added. *)
Definition pfull2 : PrioritizedReplayBuffer.t :=
  PrioritizedReplayBuffer.Make
    (ReplayBuffer.Make 2 [[1%R]; [2%R]] [[2%R]; [3%R]] [[]; []] [1%R; 0%R]
       [1%R; 1%R] 0 true)
    1 [1%R; 1%R] [Finite 1; Finite 1] 1.

(** ** Stratified sampling *)

(** The mass drawn in band [k] of width [W] from the uniform number [u]. *)
Definition band_mass (W : R) (k : Z) (u : R) : R := (u * W + IZR k * W)%R.

(** The index that mass maps to through the prefix-sum lookup. *)
Definition band_index (p : PrioritizedReplayBuffer.t) (W : R) (k : Z) (u : R)
  : Z :=
  SumSegmentTree.find_prefixsum_idx (PrioritizedReplayBuffer.sum_tree p)
    (band_mass W k u).

(** An index that leaves room for an [n]-step window. *)
Definition fits (p : PrioritizedReplayBuffer.t) (n : Z) (idx : Z) : Prop :=
  idx + n <= PrioritizedReplayBuffer.len p.

(** What the generator hands out while bands [k, k+1, ...] are served: for
    each band the draws that were rejected, then the draw that was
    accepted. *)
Fixpoint served (p : PrioritizedReplayBuffer.t) (W : R) (n : Z) (k : Z)
    (blocks : list (list R * R)) : Prop :=
  match blocks with
  | [] => True
  | (rejected, u) :: blocks' =>
      Forall (fun r => ~ fits p n (band_index p W k r)) rejected /\
      fits p n (band_index p W k u) /\
      served p W n (k + 1) blocks'
  end.

Fixpoint band_indices (p : PrioritizedReplayBuffer.t) (W : R) (k : Z)
    (blocks : list (list R * R)) : list Z :=
  match blocks with
  | [] => []
  | (_, u) :: blocks' => band_index p W k u :: band_indices p W (k + 1) blocks'
  end.

Fixpoint consumed (blocks : list (list R * R)) : list R :=
  match blocks with
  | [] => []
  | (rejected, u) :: blocks' => rejected ++ u :: consumed blocks'
  end.

(** ** The two trees move together *)

(** A leaf of the sum tree and the same leaf of the minimum tree: both
    still neutral, or both at the same positive value. *)
Definition leaf_ok (s : R) (m : xreal) : Prop :=
  (s = 0%R /\ m = PInf) \/ ((0 < s)%R /\ m = Finite s).

(** The invariant of a prioritized buffer. *)
Definition coherent (p : PrioritizedReplayBuffer.t) : Prop :=
  pwf p /\
  Forall2 leaf_ok (PrioritizedReplayBuffer.sum_tree p)
    (PrioritizedReplayBuffer.min_tree p).

(** ** Notions used by the further properties *)

(** Two buffers that differ at most in the slots that have not been
    written: same capacity, cursor and flag, and the same rows below [len]. *)
Record same_written (b1 b2 : ReplayBuffer.t) : Prop := SameWritten {
  sw_capacity : ReplayBuffer.capacity b1 = ReplayBuffer.capacity b2;
  sw_idx : ReplayBuffer.idx b1 = ReplayBuffer.idx b2;
  sw_full : ReplayBuffer.full b1 = ReplayBuffer.full b2;
  sw_obses : forall j : nat,
      Z.of_nat j < ReplayBuffer.len b1 ->
      ReplayBuffer.obses b1 !! j = ReplayBuffer.obses b2 !! j;
  sw_next_obses : forall j : nat,
      Z.of_nat j < ReplayBuffer.len b1 ->
      ReplayBuffer.next_obses b1 !! j = ReplayBuffer.next_obses b2 !! j;
  sw_actions : forall j : nat,
      Z.of_nat j < ReplayBuffer.len b1 ->
      ReplayBuffer.actions b1 !! j = ReplayBuffer.actions b2 !! j;
  sw_rewards : forall j : nat,
      Z.of_nat j < ReplayBuffer.len b1 ->
      ReplayBuffer.rewards b1 !! j = ReplayBuffer.rewards b2 !! j;
  sw_not_dones : forall j : nat,
      Z.of_nat j < ReplayBuffer.len b1 ->
      ReplayBuffer.not_dones b1 !! j = ReplayBuffer.not_dones b2 !! j
}.

(** What [update_priorities] may not touch: the ring, [alpha] and the size
    of the two trees. *)
Definition same_ring (p p' : PrioritizedReplayBuffer.t) : Prop :=
  PrioritizedReplayBuffer.base p' = PrioritizedReplayBuffer.base p /\
  PrioritizedReplayBuffer.alpha p' = PrioritizedReplayBuffer.alpha p /\
  length (PrioritizedReplayBuffer.sum_tree p')
  = length (PrioritizedReplayBuffer.sum_tree p) /\
  length (PrioritizedReplayBuffer.min_tree p')
  = length (PrioritizedReplayBuffer.min_tree p).

(** A value of numpy's [int64], the type of an index array and of the sum
    the guard of [fetch] computes. *)
Definition int64 (z : Z) : Prop := - 2 ^ 63 <= z < 2 ^ 63.

(** [push] of each experience of a list, in order. *)
Definition push_all (es : list experience) (self : MultiAgentReplayBuffer.t)
  : MultiAgentReplayBuffer.t :=
  foldl (fun s e =>
           MultiAgentReplayBuffer.push (e_state e) (e_action e) (e_reward e)
             (e_next_state e) (e_done e) s) self es.

(** An experience that has an entry for each of [n] agents. *)
Definition covers (n : nat) (e : experience) : Prop :=
  (n <= length (e_state e))%nat /\ (n <= length (e_action e))%nat /\
  (n <= length (e_reward e))%nat /\ (n <= length (e_next_state e))%nat.

(** The rows after agents [lo .. lo + k - 1] have appended their entry of
    [xs]. *)
Definition snoc_rows {A} (rows : list (list A)) (xs : list A) (lo k : nat)
  : list (list A) :=
  imap (fun j row =>
          if bool_decide (lo <= j < lo + k)%nat then
            match xs !! j with Some x => row ++ [x] | None => row end
          else row) rows.

(** Row [i] holds entry [i] of each experience, in the order of the batch. *)
Definition rows_of {A} (get : experience -> list A) (batch : list experience)
    (rows : list (list A)) : Prop :=
  forall (i : nat) (row : list A),
    rows !! i = Some row ->
    Forall2 (fun e x => get e !! i = Some x) batch row.

(** The lists [sample] returns are the batch, transposed: one row per agent
    and one column per experience, beside the per-experience
    concatenations. *)
Record transposed (n : nat) (batch : list experience) (r : agent_batch)
  : Prop := Transposed {
  tr_obs_len : length (obs_batch r) = n;
  tr_action_len : length (indiv_action_batch r) = n;
  tr_reward_len : length (indiv_reward_batch r) = n;
  tr_next_obs_len : length (next_obs_batch r) = n;
  tr_obs : rows_of e_state batch (obs_batch r);
  tr_action : rows_of e_action batch (indiv_action_batch r);
  tr_reward : rows_of e_reward batch (indiv_reward_batch r);
  tr_next_obs : rows_of e_next_state batch (next_obs_batch r);
  tr_global_state :
    global_state_batch r = map (fun e => concat (e_state e)) batch;
  tr_global_actions :
    global_actions_batch r = map (fun e => concat (e_action e)) batch;
  tr_global_next_state :
    global_next_state_batch r = map (fun e => concat (e_next_state e)) batch;
  tr_done : done_batch r = map e_done batch
}.

(** Three experiences of two agents, used to run the multi-agent buffer. *)
Definition exp_a : experience :=
  Experience [[1; 2]; [3; 4]]%R [[0]; [1]]%R [5; 6]%R [[2; 3]; [4; 5]]%R false.

Definition exp_b : experience :=
  Experience [[2; 3]; [4; 5]]%R [[1]; [0]]%R [7; 8]%R [[3; 4]; [5; 6]]%R false.

Definition exp_c : experience :=
  Experience [[3; 4]; [5; 6]]%R [[1]; [1]]%R [9; 0]%R [[4; 5]; [6; 7]]%R true.

(** A buffer for two agents that keeps two experiences. *)
Definition two_agents : MultiAgentReplayBuffer.t :=
  MultiAgentReplayBuffer.Make 2 2 [].

(** ** The monad *)

Lemma bind_Val {St A B} (m : M St A) (k : A -> M St B) s a s' :
  m s = Val a s' -> bind m k s = k a s'.
Proof. unfold bind. intros ->. reflexivity. Qed.

Lemma bind_Exn {St A B} (m : M St A) (k : A -> M St B) s e s' :
  m s = Exn e s' -> bind m k s = Exn e s'.
Proof. unfold bind. intros ->. reflexivity. Qed.

Lemma bind_Starved {St A B} (m : M St A) (k : A -> M St B) s :
  m s = Starved -> bind m k s = Starved.
Proof. unfold bind. intros ->. reflexivity. Qed.

(** ** numpy indexing inside the array *)

Lemma np_norm_in (len i : Z) :
  0 <= i < len -> np_norm len i = Some (Z.to_nat i).
Proof.
  intros H. unfold np_norm.
  destruct (Z.leb_spec 0 i); [|lia]. destruct (Z.ltb_spec i len); [|lia].
  reflexivity.
Qed.

Lemma np_get_in {A} (a : list A) (i : Z) :
  0 <= i < Z.of_nat (length a) -> np_get a i = a !! Z.to_nat i.
Proof. intros H. unfold np_get. rewrite np_norm_in by exact H. reflexivity. Qed.

Lemma np_set_in {A} (a : list A) (i : Z) (v : A) :
  0 <= i < Z.of_nat (length a) -> np_set a i v = Some (<[Z.to_nat i := v]> a).
Proof. intros H. unfold np_set. rewrite np_norm_in by exact H. reflexivity. Qed.

(** ** ReplayBuffer.add *)

(** The state [add] leaves behind in a well-formed buffer. *)
Lemma add_Val (b : ReplayBuffer.t) o a r no d :
  wf b ->
  ReplayBuffer.add o a r no d b =
  Val tt
    (let k := Z.to_nat (ReplayBuffer.idx b) in
     let i' := (ReplayBuffer.idx b + 1) mod ReplayBuffer.capacity b in
     ReplayBuffer.Make (ReplayBuffer.capacity b)
       (<[k := o]> (ReplayBuffer.obses b))
       (<[k := no]> (ReplayBuffer.next_obses b))
       (<[k := a]> (ReplayBuffer.actions b))
       (<[k := r]> (ReplayBuffer.rewards b))
       (<[k := not_done_flag d]> (ReplayBuffer.not_dones b))
       i' (ReplayBuffer.full b || (i' =? 0))).
Proof.
  intros [Hc Hi Ho Hno Ha Hr Hnd]. destruct b as [C os nos acs rs nds i f].
  simpl in *.
  unfold ReplayBuffer.add, ReplayBuffer.copyto, bind, get, put, orRaise, ret;
    simpl.
  repeat (rewrite np_set_in by (simpl; lia); simpl).
  destruct (Z.eqb_spec C 0); [lia|]. reflexivity.
Qed.

(** ** Floats as reals *)

Lemma sign_pos (x : R) : (0 < x)%R -> sign x = 1%R.
Proof.
  intros H. unfold sign.
  destruct (Rlt_dec x 0); [lra|]. destruct (Rlt_dec 0 x); [reflexivity|lra].
Qed.

Lemma sign_neg (x : R) : (x < 0)%R -> sign x = (-1)%R.
Proof. intros H. unfold sign. destruct (Rlt_dec x 0); [reflexivity|lra]. Qed.

Lemma sign_zero : sign 0 = 0%R.
Proof.
  unfold sign. destruct (Rlt_dec 0 0); [lra|]. reflexivity.
Qed.

(** ** Running a method step by step *)

Lemma bind_get {St B} (k : St -> M St B) s : bind get k s = k s s.
Proof. reflexivity. Qed.

Lemma bind_ret {St A B} (a : A) (k : A -> M St B) s : bind (ret a) k s = k a s.
Proof. reflexivity. Qed.

Lemma bind_assert_true {St B} c (k : unit -> M St B) s :
  c = true -> bind (assert_ c) k s = k tt s.
Proof. intros ->. reflexivity. Qed.

Lemma bind_assert_false {St B} c (k : unit -> M St B) s :
  c = false -> bind (assert_ c) k s = Exn AssertionError s.
Proof. intros ->. reflexivity. Qed.

Lemma bind_orRaise_Some {St A B} e (o : option A) a (k : A -> M St B) s :
  o = Some a -> bind (orRaise e o) k s = k a s.
Proof. intros ->. reflexivity. Qed.

Lemma bind_orRaise_None {St A B} e (o : option A) (k : A -> M St B) s :
  o = None -> bind (orRaise e o) k s = Exn e s.
Proof. intros ->. reflexivity. Qed.

(** ** Reasoning about what a call does to the state *)

Section Preserves.
Context {St : Type} (rel : St -> St -> Prop) `{!PreOrder rel}.

Lemma preserves_ret {A} (a : A) s : preserves_at rel (ret a) s.
Proof. unfold preserves_at; simpl. reflexivity. Qed.

Lemma preserves_raise {A} e s : preserves_at rel (raise (A:=A) e) s.
Proof. unfold preserves_at; simpl. reflexivity. Qed.

Lemma preserves_starve {A} s : preserves_at rel (starve (A:=A)) s.
Proof. exact I. Qed.

Lemma preserves_put s s' : rel s s' -> preserves_at rel (put s') s.
Proof. intros H. exact H. Qed.

Lemma preserves_orRaise {A} e (o : option A) s :
  preserves_at rel (orRaise e o) s.
Proof. destruct o; [apply preserves_ret | apply preserves_raise]. Qed.

Lemma preserves_assert c s : preserves_at rel (assert_ c) s.
Proof. destruct c; [apply preserves_ret | apply preserves_raise]. Qed.

Lemma preserves_bind {A B} (m : M St A) (k : A -> M St B) s :
  preserves_at rel m s ->
  (forall a s', m s = Val a s' -> preserves_at rel (k a) s') ->
  preserves_at rel (bind m k) s.
Proof.
  unfold preserves_at, bind. intros Hm Hk.
  destruct (m s) as [a s'| e s' |]; simpl in *; [|exact Hm|exact I].
  specialize (Hk a s' eq_refl).
  destruct (final_state (k a s')); [|exact I].
  etransitivity; eassumption.
Qed.

(** Reading the state, testing and failing leave the state where it is, so
    what follows starts from the same state. *)
Lemma preserves_get_bind {B} (k : St -> M St B) s :
  preserves_at rel (k s) s -> preserves_at rel (bind get k) s.
Proof. intros H. exact H. Qed.

Lemma preserves_orRaise_bind {A B} e (o : option A) (k : A -> M St B) s :
  (forall a, o = Some a -> preserves_at rel (k a) s) ->
  preserves_at rel (bind (orRaise e o) k) s.
Proof.
  intros H. destruct o as [a|]; [exact (H a eq_refl)|].
  unfold preserves_at; simpl. reflexivity.
Qed.

Lemma preserves_assert_bind {B} c (k : unit -> M St B) s :
  (c = true -> preserves_at rel (k tt) s) ->
  preserves_at rel (bind (assert_ c) k) s.
Proof.
  intros H. destruct c; [exact (H eq_refl)|].
  unfold preserves_at; simpl. reflexivity.
Qed.

Lemma preserves_forM_ {A} (l : list A) (body : A -> M St unit) :
  (forall x s, preserves_at rel (body x) s) ->
  forall s, preserves_at rel (forM_ l body) s.
Proof.
  intros Hbody. induction l as [|x l IH]; intros s; simpl.
  - apply preserves_ret.
  - apply preserves_bind; [apply Hbody | intros; apply IH].
Qed.

Lemma preserves_mapM {A B} (f : A -> M St B) (l : list A) :
  (forall x s, preserves_at rel (f x) s) ->
  forall s, preserves_at rel (mapM f l) s.
Proof.
  intros Hf. induction l as [|x l IH]; intros s; simpl.
  - apply preserves_ret.
  - apply preserves_bind; [apply Hf|]. intros y s' _.
    apply preserves_bind; [apply IH|]. intros ys s'' _. apply preserves_ret.
Qed.

End Preserves.

(** A call that leaves the state unchanged returns in the state it started. *)
Lemma unchanged_Val {St A} (m : M St A) s a s' :
  leaves_unchanged m s -> m s = Val a s' -> s' = s.
Proof.
  unfold leaves_unchanged, preserves_at. intros H E. rewrite E in H.
  simpl in H. congruence.
Qed.

(** Inversion of a call that returned. *)
Lemma bind_Val_inv {St A B} (m : M St A) (k : A -> M St B) s b s'' :
  bind m k s = Val b s'' ->
  exists a s', m s = Val a s' /\ k a s' = Val b s''.
Proof.
  unfold bind. destruct (m s) as [a s'| |]; [|discriminate..].
  intros H. exists a, s'. split; [reflexivity | exact H].
Qed.

Lemma assert_Val_inv {St} c (s s' : St) u :
  assert_ c s = Val u s' -> c = true /\ s' = s.
Proof. destruct c; simpl; [|discriminate]. intros [= _ <-]. auto. Qed.

Lemma orRaise_Val_inv {St A} e (o : option A) (s s' : St) a :
  orRaise e o s = Val a s' -> o = Some a /\ s' = s.
Proof. destruct o; simpl; [|discriminate]. intros [= <- <-]. auto. Qed.

Lemma get_Val_inv {St} (s s' a : St) : get s = Val a s' -> a = s /\ s' = s.
Proof. intros [= <- <-]. auto. Qed.

Lemma put_Val_inv {St} (s s' s0 : St) u : put s0 s = Val u s' -> s' = s0.
Proof. intros [= _ <-]. reflexivity. Qed.

Ltac inv_run :=
  repeat match goal with
    | H : bind _ _ _ = Val _ _ |- _ =>
        let a := fresh "a" in let s := fresh "s" in let E := fresh "E" in
        apply bind_Val_inv in H as (a & s & E & H)
    | H : assert_ _ _ = Val _ _ |- _ =>
        let C := fresh "C" in apply assert_Val_inv in H as [C ->]
    | H : orRaise _ _ _ = Val _ _ |- _ =>
        let C := fresh "C" in apply orRaise_Val_inv in H as [C ->]
    | H : get _ = Val _ _ |- _ => apply get_Val_inv in H as [-> ->]
    | H : put _ _ = Val _ _ |- _ => apply put_Val_inv in H; subst
    end.

Lemma forM__app {St A} (l1 l2 : list A) (body : A -> M St unit) s :
  forM_ (l1 ++ l2) body s = bind (forM_ l1 body) (fun _ => forM_ l2 body) s.
Proof.
  revert s. induction l1 as [|x l1 IH]; intros s; simpl.
  - reflexivity.
  - unfold bind. destruct (body x s) as [u s'| |]; try reflexivity.
    rewrite IH. reflexivity.
Qed.

Lemma add_wf (b : ReplayBuffer.t) o a r no d b' :
  wf b -> ReplayBuffer.add o a r no d b = Val tt b' -> wf b'.
Proof.
  intros Hwf H. rewrite add_Val in H by exact Hwf. injection H as <-.
  destruct Hwf as [Hc Hi Ho Hno Ha Hr Hnd].
  split; simpl; rewrite ?length_insert; try assumption.
  apply Z.mod_pos_bound. exact Hc.
Qed.

(** Two cursor positions less than a lap apart are different slots. *)
Lemma mod_apart (a d C : Z) :
  0 < d < C -> (a + d) mod C <> a mod C.
Proof.
  intros Hd Heq.
  assert (H : (a + d - a) mod C = 0).
  { rewrite Zminus_mod, Heq, Z.sub_diag. apply Z.mod_0_l. lia. }
  replace (a + d - a) with d in H by lia.
  rewrite Z.mod_small in H by lia. lia.
Qed.

Lemma slot_add_here (b : ReplayBuffer.t) (x : transition) b' :
  wf b -> add_transition x b = Val tt b' ->
  slot b' (Z.to_nat (ReplayBuffer.idx b)) = Some (stored x).
Proof.
  intros Hwf H. unfold add_transition in H.
  rewrite add_Val in H by exact Hwf. injection H as <-.
  destruct Hwf as [Hc Hi Ho Hno Ha Hr Hnd].
  unfold slot; simpl. rewrite !list_lookup_insert_eq by lia. reflexivity.
Qed.

Lemma slot_add_other (b : ReplayBuffer.t) (x : transition) b' (j : nat) :
  wf b -> add_transition x b = Val tt b' ->
  j <> Z.to_nat (ReplayBuffer.idx b) -> slot b' j = slot b j.
Proof.
  intros Hwf H Hj. unfold add_transition in H.
  rewrite add_Val in H by exact Hwf. injection H as <-.
  unfold slot; simpl. rewrite !list_lookup_insert_ne by congruence.
  reflexivity.
Qed.

Lemma add_cursor (b : ReplayBuffer.t) (x : transition) b' :
  wf b -> add_transition x b = Val tt b' ->
  ReplayBuffer.capacity b' = ReplayBuffer.capacity b /\
  ReplayBuffer.idx b' = (ReplayBuffer.idx b + 1) mod ReplayBuffer.capacity b /\
  ReplayBuffer.full b' =
    ReplayBuffer.full b || (ReplayBuffer.idx b' =? 0).
Proof.
  intros Hwf H. unfold add_transition in H.
  rewrite add_Val in H by exact Hwf. injection H as <-. simpl. auto.
Qed.

(** C3 -- the ring invariant.  From any well-formed buffer of capacity [C],
    [k] calls of [add] all return; afterwards [len] is [C] when [full] is
    set and the cursor otherwise, the cursor is inside [[0, C)] and has
    advanced by one modulo [C] per call, [full] is set exactly when it was
    set or the cursor has wrapped, every one of the last [C] transitions sits
    in the slot the cursor had when it was added (so older ones have been
    overwritten in cursor order), and with [k > C] the length is [C]. *)
Theorem ring_after_adds (b : ReplayBuffer.t) (ts : list transition) :
  wf b ->
  exists b',
    forM_ ts add_transition b = Val tt b' /\
    wf b' /\
    ReplayBuffer.capacity b' = ReplayBuffer.capacity b /\
    ReplayBuffer.len b' =
      (if ReplayBuffer.full b' then ReplayBuffer.capacity b
       else ReplayBuffer.idx b') /\
    0 <= ReplayBuffer.idx b' < ReplayBuffer.capacity b /\
    ReplayBuffer.idx b' =
      (ReplayBuffer.idx b + Z.of_nat (length ts)) mod ReplayBuffer.capacity b /\
    ReplayBuffer.full b' =
      ReplayBuffer.full b
      || (ReplayBuffer.capacity b <=? ReplayBuffer.idx b + Z.of_nat (length ts)) /\
    (forall (j : nat) (x : transition),
        ts !! j = Some x ->
        Z.of_nat (length ts) - ReplayBuffer.capacity b <= Z.of_nat j ->
        slot b' (Z.to_nat ((ReplayBuffer.idx b + Z.of_nat j)
                             mod ReplayBuffer.capacity b))
        = Some (stored x)) /\
    (ReplayBuffer.capacity b < Z.of_nat (length ts) ->
     ReplayBuffer.len b' = ReplayBuffer.capacity b).
Proof.
  intros Hwf. induction ts as [|x ts IH] using rev_ind.
  - exists b. pose proof Hwf as [Hc Hi _ _ _ _ _]. simpl.
    split; [|split; [|split; [|split; [|split; [|split; [|split; [|split]]]]]]];
      try assumption; try reflexivity; try lia.
    + rewrite Z.add_0_r, Z.mod_small by lia. reflexivity.
    + rewrite Z.add_0_r.
      destruct (Z.leb_spec (ReplayBuffer.capacity b) (ReplayBuffer.idx b));
        [lia|]. symmetry. apply orb_false_r.
    + intros j x Hj. rewrite lookup_nil in Hj. discriminate.
  - destruct IH as (b1 & Hrun & Hwf1 & Hcap & Hlen & Hidx & Hcur & Hfull & Hslots & _).
    set (C := ReplayBuffer.capacity b) in *.
    set (k := Z.of_nat (length ts)) in *.
    destruct (add_transition x b1) as [[] b2| |] eqn:Hadd.
    2,3: unfold add_transition in Hadd; rewrite add_Val in Hadd by exact Hwf1;
         discriminate.
    destruct (add_cursor _ _ _ Hwf1 Hadd) as (Hcap2 & Hidx2 & Hfull2).
    assert (Hwf2 : wf b2) by (eapply add_wf; [exact Hwf1 | exact Hadd]).
    assert (Hk : Z.of_nat (length (ts ++ [x])) = k + 1).
    { rewrite length_app. simpl. lia. }
    assert (Hcur2 : ReplayBuffer.idx b2 = (ReplayBuffer.idx b + (k + 1)) mod C).
    { rewrite Hidx2, Hcap, Hcur. fold C.
      rewrite Zplus_mod_idemp_l. f_equal. lia. }
    assert (Hfull' : ReplayBuffer.full b2 =
                     ReplayBuffer.full b || (C <=? ReplayBuffer.idx b + (k + 1))).
    { rewrite Hfull2, Hfull.
      pose proof (wf_idx _ Hwf) as Hi0. fold C in Hi0.
      destruct (ReplayBuffer.full b); [reflexivity|]. simpl.
      destruct (Z.leb_spec C (ReplayBuffer.idx b + k)).
      - destruct (Z.leb_spec C (ReplayBuffer.idx b + (k + 1))); [reflexivity|lia].
      - simpl. rewrite Hcur2.
        destruct (Z.leb_spec C (ReplayBuffer.idx b + (k + 1))).
        + replace (ReplayBuffer.idx b + (k + 1)) with C by lia.
          rewrite Z.mod_same by lia. reflexivity.
        + rewrite Z.mod_small by lia.
          destruct (Z.eqb_spec (ReplayBuffer.idx b + (k + 1)) 0); [lia|].
          reflexivity. }
    exists b2. rewrite Hk.
    split; [|split; [|split; [|split; [|split; [|split; [|split; [|split]]]]]]].
    + rewrite forM__app. rewrite (bind_Val _ _ _ _ _ Hrun). simpl.
      rewrite (bind_Val _ _ _ _ _ Hadd). reflexivity.
    + exact Hwf2.
    + congruence.
    + unfold ReplayBuffer.len. rewrite Hcap2, Hcap. reflexivity.
    + rewrite Hcur2. apply Z.mod_pos_bound. exact (wf_capacity _ Hwf).
    + exact Hcur2.
    + exact Hfull'.
    + intros j y Hj Hlow.
      destruct (decide (j = length ts)) as [->|Hne].
      * rewrite list_lookup_middle in Hj by reflexivity. injection Hj as <-.
        fold k. rewrite <- Hcur.
        eapply slot_add_here; [exact Hwf1 | exact Hadd].
      * assert (Hlt : (j < length ts)%nat).
        { apply lookup_lt_Some in Hj. rewrite length_app in Hj. simpl in Hj. lia. }
        rewrite lookup_app_l in Hj by exact Hlt.
        rewrite (slot_add_other _ _ _ _ Hwf1 Hadd).
        -- apply Hslots; [exact Hj | fold k; lia].
        -- rewrite Hcur. intros Heq. apply Z2Nat.inj in Heq.
           ++ replace (ReplayBuffer.idx b + k)
                with ((ReplayBuffer.idx b + Z.of_nat j) + (k - Z.of_nat j)) in Heq
                by lia.
              symmetry in Heq. revert Heq. apply mod_apart. unfold k in *. lia.
           ++ apply Z.mod_pos_bound. exact (wf_capacity _ Hwf).
           ++ apply Z.mod_pos_bound. exact (wf_capacity _ Hwf).
    + intros Hbig. unfold ReplayBuffer.len. rewrite Hfull'.
      pose proof (wf_idx _ Hwf) as Hi0. fold C in Hi0.
      destruct (Z.leb_spec C (ReplayBuffer.idx b + (k + 1))); [|lia].
      rewrite orb_true_r. congruence.
Qed.

Lemma fresh3_init :
  ReplayBuffer.init 3 (fun _ => blank) = inr fresh3.
Proof. reflexivity. Qed.

Lemma fresh3_wf : wf fresh3.
Proof. split; simpl; lia. Qed.

(** The scenario of the uniform buffer: capacity 3, four transitions added;
    the length is 3 and the first transition is gone, its slot holding the
    fourth. *)
Lemma ring_after_adds_witness :
  wf fresh3 /\
  exists b',
    forM_ four_transitions add_transition fresh3 = Val tt b' /\
    ReplayBuffer.len b' = 3 /\
    ReplayBuffer.idx b' = 1 /\
    slot b' 0 = Some ([4%R], [], 1%R, [5%R], 0%R) /\
    slot b' 1 = Some ([2%R], [], 0%R, [3%R], 1%R) /\
    slot b' 2 = Some ([3%R], [], (-1)%R, [4%R], 1%R).
Proof.
  split; [exact fresh3_wf|].
  destruct (ring_after_adds fresh3 four_transitions fresh3_wf)
    as (b' & Hrun & _ & _ & _ & _ & Hidx & _ & Hslots & Hlen).
  exists b'. split; [exact Hrun|]. split; [apply Hlen; simpl; lia|].
  split; [exact Hidx|].
  split; [exact (Hslots 3%nat _ eq_refl ltac:(simpl; lia))|].
  split; [exact (Hslots 1%nat _ eq_refl ltac:(simpl; lia))|].
  exact (Hslots 2%nat _ eq_refl ltac:(simpl; lia)).
Defined.

(** ** fetch *)

Lemma np_max_upper (idxs : list Z) (m : Z) :
  np_max idxs = Some m -> Forall (fun i => i <= m) idxs.
Proof.
  destruct idxs as [|i0 idxs]; simpl; [discriminate|].
  intros [= <-].
  assert (H : forall l a, a <= fold_left Z.max l a /\
                          Forall (fun i => i <= fold_left Z.max l a) l).
  { induction l as [|x l IH]; intros a; simpl.
    - split; [lia | constructor].
    - destruct (IH (Z.max a x)) as [H1 H2]. split; [lia|].
      constructor; [lia | exact H2]. }
  destruct (H idxs i0) as [H1 H2]. constructor; assumption.
Qed.

Lemma np_take_in {A} (d : A) (a : list A) (f : Z -> Z) (idxs : list Z) :
  Forall (fun i => 0 <= f i < Z.of_nat (length a)) idxs ->
  np_take a (f <$> idxs) = Some ((fun i => at_ d a (f i)) <$> idxs).
Proof.
  induction 1 as [|i idxs Hi _ IH]; [reflexivity|].
  rewrite !fmap_cons. cbn [np_take].
  rewrite IH, np_get_in by exact Hi. unfold at_.
  destruct (lookup_lt_is_Some_2 a (Z.to_nat (f i))) as [x ->]; [lia|].
  reflexivity.
Qed.

Lemma np_take_at {A} (d : A) (a : list A) (idxs : list Z) :
  Forall (fun i => 0 <= i < Z.of_nat (length a)) idxs ->
  np_take a idxs = Some (at_ d a <$> idxs).
Proof.
  intros H. rewrite <- (np_take_in d a (fun i => i)) by exact H.
  rewrite list_fmap_id. reflexivity.
Qed.

Lemma zip_with_fmap_same {A B C D} (f : B -> C -> D) (g : A -> B) (h : A -> C)
    (l : list A) :
  zip_with f (g <$> l) (h <$> l) = (fun x => f (g x) (h x)) <$> l.
Proof.
  induction l as [|x l IH]; [reflexivity|].
  rewrite !fmap_cons. cbn [zip_with]. rewrite IH. reflexivity.
Qed.

Lemma replicate_fmap_const {A B} (l : list A) (c : B) :
  replicate (length l) c = (fun _ => c) <$> l.
Proof.
  induction l as [|x l IH]; [reflexivity|].
  rewrite fmap_cons. cbn [length replicate]. rewrite IH. reflexivity.
Qed.

(** After [k] more iterations the accumulators of the loop hold, for each
    index, the return and the running flag of a window [k] steps longer. *)
Lemma fetch_loop_spec (b : ReplayBuffer.t) (idxs : list Z) (discount : R) :
  forall (k i0 : nat),
    Forall (fun i => 0 <= i /\
                     i + Z.of_nat (i0 + k) <= Z.of_nat (length (ReplayBuffer.rewards b)) /\
                     i + Z.of_nat (i0 + k) <= Z.of_nat (length (ReplayBuffer.not_dones b)))
           idxs ->
    ReplayBuffer.fetch_loop b idxs discount k (Z.of_nat i0)
      ((fun i => nstep_return (ReplayBuffer.rewards b) (ReplayBuffer.not_dones b)
                   discount i i0) <$> idxs)
      ((fun i => notDone_running (ReplayBuffer.not_dones b) i i0) <$> idxs)
    = Some
        ((fun i => nstep_return (ReplayBuffer.rewards b) (ReplayBuffer.not_dones b)
                     discount i (i0 + k)) <$> idxs,
         (fun i => notDone_running (ReplayBuffer.not_dones b) i (i0 + k)) <$> idxs).
Proof.
  induction k as [|k IH]; intros i0 Hin; cbn [ReplayBuffer.fetch_loop].
  - rewrite Nat.add_0_r. reflexivity.
  - rewrite (np_take_in 0%R (ReplayBuffer.rewards b) (fun j => j + Z.of_nat i0)).
    2:{ eapply Forall_impl; [exact Hin|]. simpl. intros i Hi. lia. }
    rewrite (np_take_in 0%R (ReplayBuffer.not_dones b) (fun j => j + Z.of_nat i0)).
    2:{ eapply Forall_impl; [exact Hin|]. simpl. intros i Hi. lia. }
    rewrite !zip_with_fmap_same. rewrite Nat2Z.id.
    replace (Z.of_nat i0 + 1) with (Z.of_nat (S i0)) by lia.
    replace (i0 + S k)%nat with (S i0 + k)%nat by lia.
    apply (IH (S i0)).
    eapply Forall_impl; [exact Hin|]. simpl. intros i Hi.
    replace (S (i0 + k)) with (i0 + S k)%nat by lia. exact Hi.
Qed.

(** [fetch] on indices inside the buffer. *)
Lemma fetch_Val (b : ReplayBuffer.t) (idxs : list Z) (discount : R)
    (n m : Z) :
  wf b ->
  np_max idxs = Some m ->
  m + n <= ReplayBuffer.len b ->
  Forall (fun i => 0 <= i) idxs ->
  1 <= n ->
  ReplayBuffer.fetch idxs discount n b =
  Val (Batch
         ((fun i => at_ [] (ReplayBuffer.obses b) i) <$> idxs)
         ((fun i => at_ [] (ReplayBuffer.actions b) i) <$> idxs)
         ((fun i => nstep_return (ReplayBuffer.rewards b) (ReplayBuffer.not_dones b)
                      discount i (Z.to_nat n)) <$> idxs)
         ((fun i => at_ [] (ReplayBuffer.next_obses b) (i + n - 1)) <$> idxs)
         ((fun i => notDone_running (ReplayBuffer.not_dones b) i (Z.to_nat n))
            <$> idxs))
      b.
Proof.
  intros Hwf Hmax Hlen Hpos Hn.
  assert (Hcap : ReplayBuffer.len b <= ReplayBuffer.capacity b).
  { unfold ReplayBuffer.len. pose proof (wf_idx _ Hwf).
    destruct (ReplayBuffer.full b); lia. }
  assert (Hall : Forall (fun i => 0 <= i /\ i + n <= ReplayBuffer.capacity b) idxs).
  { apply np_max_upper in Hmax. rewrite Forall_forall in *.
    intros i Hi. specialize (Hmax i Hi). specialize (Hpos i Hi). lia. }
  destruct Hwf as [Hc Hi Ho Hno Ha Hr Hnd].
  unfold ReplayBuffer.fetch, bind, get. rewrite Hmax. simpl.
  unfold assert_. destruct (Z.leb_spec (m + n) (ReplayBuffer.len b)); [|lia].
  simpl.
  rewrite (np_take_at [] (ReplayBuffer.obses b)).
  2:{ eapply Forall_impl; [exact Hall|]. simpl. intros i ?. lia. }
  simpl.
  rewrite (np_take_in [] (ReplayBuffer.next_obses b) (fun j => j + n - 1)).
  2:{ eapply Forall_impl; [exact Hall|]. simpl. intros i ?. lia. }
  simpl.
  rewrite (np_take_at [] (ReplayBuffer.actions b)).
  2:{ eapply Forall_impl; [exact Hall|]. simpl. intros i ?. lia. }
  simpl.
  rewrite !replicate_fmap_const.
  pose proof (fetch_loop_spec b idxs discount (Z.to_nat n) 0) as Hloop.
  cbn [nstep_return notDone_running Nat.add] in Hloop.
  change (Z.of_nat 0) with 0 in Hloop. rewrite Hloop.
  - reflexivity.
  - eapply Forall_impl; [exact Hall|]. simpl. intros i ?. lia.
Qed.

(** C2 -- what [fetch] returns.  On a well-formed buffer, for an array of
    non-negative indices whose maximum [m] satisfies [m + n <= len] and a
    window length [n >= 1], [fetch] returns (and leaves the buffer as it
    was), per index [i]: the observation and the action stored at [i], the
    next observation stored at [i + n - 1], the n-step return
    [sum_{k<n} discount^k * notDone_running * sign(reward[i+k])] and the
    minimum of the continuation flags over the window.  The guard of
    [fetch] checks neither the sign of the indices nor [n >= 1]; without
    them the call can raise after the guard has passed. *)
Theorem fetch_returns (b : ReplayBuffer.t) (idxs : list Z) (discount : R)
    (n m : Z) :
  wf b ->
  np_max idxs = Some m ->
  m + n <= ReplayBuffer.len b ->
  Forall (fun i => 0 <= i) idxs ->
  1 <= n ->
  ReplayBuffer.fetch idxs discount n b =
  Val (Batch
         ((fun i => at_ [] (ReplayBuffer.obses b) i) <$> idxs)
         ((fun i => at_ [] (ReplayBuffer.actions b) i) <$> idxs)
         ((fun i => nstep_return (ReplayBuffer.rewards b) (ReplayBuffer.not_dones b)
                      discount i (Z.to_nat n)) <$> idxs)
         ((fun i => at_ [] (ReplayBuffer.next_obses b) (i + n - 1)) <$> idxs)
         ((fun i => notDone_running (ReplayBuffer.not_dones b) i (Z.to_nat n))
            <$> idxs))
      b.
Proof. apply fetch_Val. Qed.


Lemma scenario_buffer_wf : wf scenario_buffer.
Proof. split; simpl; lia. Qed.

(** The scenario buffer is what four calls of [add] make of an empty
    buffer of capacity 4. *)
Lemma scenario_buffer_built :
  forM_ scenario_transitions add_transition
    (ReplayBuffer.Make 4 [[]; []; []; []] [[]; []; []; []] [[]; []; []; []]
       [0%R; 0%R; 0%R; 0%R] [0%R; 0%R; 0%R; 0%R] 0 false)
  = Val tt scenario_buffer.
Proof.
  unfold scenario_transitions, forM_, add_transition.
  repeat (erewrite bind_Val; [|rewrite add_Val by (split; simpl; lia); reflexivity]).
  reflexivity.
Qed.

(** The n-step scenario: rewards [+5, -1, 0, +2], continuation flags 1,
    discount 1/2, n = 2, index 0: the return is [1 - 1/2 = 1/2]. *)
Lemma fetch_returns_witness :
  wf scenario_buffer /\ np_max [0] = Some 0 /\
  0 + 2 <= ReplayBuffer.len scenario_buffer /\
  Forall (fun i => 0 <= i) [0] /\ 1 <= 2 /\
  ReplayBuffer.fetch [0] (1 / 2)%R 2 scenario_buffer =
  Val (Batch [[]] [[]] [(1 / 2)%R] [[]] [1%R]) scenario_buffer.
Proof.
  assert (Hlen : 0 + 2 <= ReplayBuffer.len scenario_buffer)
    by (unfold ReplayBuffer.len, scenario_buffer; simpl; lia).
  assert (Hpos : Forall (fun i => 0 <= i) [0]) by (repeat constructor; lia).
  assert (Hn : 1 <= 2) by lia.
  split; [exact scenario_buffer_wf|]. split; [reflexivity|].
  split; [exact Hlen|]. split; [exact Hpos|]. split; [exact Hn|].
  rewrite (fetch_returns scenario_buffer [0] (1 / 2)%R 2 0
             scenario_buffer_wf eq_refl Hlen Hpos Hn).
  f_equal. f_equal.
  - simpl. unfold at_. simpl.
    rewrite (sign_pos 5) by lra. rewrite (sign_neg (-1)) by lra.
    rewrite Rmin_left by lra. f_equal. lra.
  - simpl. unfold at_. simpl. rewrite !(Rmin_left 1 1) by lra. reflexivity.
Defined.

(** The guard [max(idxs) + n <= len] alone does not make [fetch] return:
    on the scenario buffer, of length 4, it passes for index 4 with
    [n = 0] and for index -5 with [n = 1], and in both cases the indexing
    that follows raises an IndexError. *)
Lemma fetch_guard_passes_counterexample :
  wf scenario_buffer /\
  (np_max [4] = Some 4 /\
   4 + 0 <= ReplayBuffer.len scenario_buffer /\
   ReplayBuffer.fetch [4] (1 / 2)%R 0 scenario_buffer
   = Exn IndexError scenario_buffer) /\
  (np_max [-5] = Some (-5) /\
   -5 + 1 <= ReplayBuffer.len scenario_buffer /\
   ReplayBuffer.fetch [-5] (1 / 2)%R 1 scenario_buffer
   = Exn IndexError scenario_buffer).
Proof.
  split; [exact scenario_buffer_wf|].
  split; (split; [reflexivity|]; split; [vm_compute; discriminate | reflexivity]).
Qed.

(** ** PrioritizedReplayBuffer: add and update_priorities *)

Lemma pypow_pos (x y : R) : (0 < x)%R -> pypow x y = Some (Rpower x y).
Proof. intros H. unfold pypow. destruct (Rlt_dec 0 x); [reflexivity|lra]. Qed.

Lemma Rltb_true (x y : R) : (x < y)%R -> Rltb x y = true.
Proof. intros H. unfold Rltb. destruct (Rlt_dec x y); [reflexivity|lra]. Qed.

Lemma Rltb_false (x y : R) : (y <= x)%R -> Rltb x y = false.
Proof. intros H. unfold Rltb. destruct (Rlt_dec x y); [lra|reflexivity]. Qed.

Lemma setitem_in {V} (tree : list V) (i : Z) (v : V) :
  0 <= i < Z.of_nat (length tree) ->
  SegmentTree.setitem tree i v = Some (<[Z.to_nat i := v]> tree).
Proof.
  intros H. unfold SegmentTree.setitem, SegmentTree.in_range.
  destruct (Z.leb_spec 0 i); [|lia].
  destruct (Z.ltb_spec i (Z.of_nat (length tree))); [|lia]. reflexivity.
Qed.

Lemma getitem_in {V} (tree : list V) (i : Z) :
  0 <= i < Z.of_nat (length tree) ->
  SegmentTree.getitem tree i = tree !! Z.to_nat i.
Proof.
  intros H. unfold SegmentTree.getitem, SegmentTree.in_range.
  destruct (Z.leb_spec 0 i); [|lia].
  destruct (Z.ltb_spec i (Z.of_nat (length tree))); [|lia]. reflexivity.
Qed.

(** [add] on a well-formed prioritized buffer: the row goes to the slot
    under the cursor, the cursor advances, and the leaf under the advanced
    cursor is set in both trees. *)
Lemma padd_Val (p : PrioritizedReplayBuffer.t) o a r no d b' :
  pwf p ->
  ReplayBuffer.add o a r no d (PrioritizedReplayBuffer.base p) = Val tt b' ->
  PrioritizedReplayBuffer.add o a r no d p =
  Val tt
    (let v := Rpower (PrioritizedReplayBuffer.max_priority p)
                (PrioritizedReplayBuffer.alpha p) in
     let k := Z.to_nat (ReplayBuffer.idx b') in
     PrioritizedReplayBuffer.Make b' (PrioritizedReplayBuffer.alpha p)
       (<[k := v]> (PrioritizedReplayBuffer.sum_tree p))
       (<[k := Finite v]> (PrioritizedReplayBuffer.min_tree p))
       (PrioritizedReplayBuffer.max_priority p)).
Proof.
  intros [Hwf Hs Hm Hp] Hadd.
  pose proof (add_wf _ _ _ _ _ _ _ Hwf Hadd) as [_ Hi' _ _ _ _ _].
  assert (Hcap : ReplayBuffer.capacity b'
                 = ReplayBuffer.capacity (PrioritizedReplayBuffer.base p)).
  { rewrite add_Val in Hadd by exact Hwf. injection Hadd as <-. reflexivity. }
  destruct p as [b al st mt mp]. simpl in *.
  unfold PrioritizedReplayBuffer.add, PrioritizedReplayBuffer.super, bind, get.
  simpl. rewrite Hadd. simpl.
  rewrite pypow_pos by exact Hp. simpl.
  unfold PrioritizedReplayBuffer.sum_tree_set, PrioritizedReplayBuffer.min_tree_set,
    bind, get, put. simpl.
  unfold SumSegmentTree.setitem, MinSegmentTree.setitem.
  rewrite setitem_in by lia. simpl.
  rewrite pypow_pos by exact Hp. simpl.
  rewrite setitem_in by lia. reflexivity.
Qed.

(** One entry of [update_priorities] that passes both assertions. *)
Lemma update_priority_Val (p : PrioritizedReplayBuffer.t) (i : Z) (prio : R) :
  pwf p ->
  (0 < prio)%R ->
  0 <= i < PrioritizedReplayBuffer.len p ->
  PrioritizedReplayBuffer.update_priority (i, prio) p =
  Val tt
    (let v := Rpower prio (PrioritizedReplayBuffer.alpha p) in
     PrioritizedReplayBuffer.Make (PrioritizedReplayBuffer.base p)
       (PrioritizedReplayBuffer.alpha p)
       (<[Z.to_nat i := v]> (PrioritizedReplayBuffer.sum_tree p))
       (<[Z.to_nat i := Finite v]> (PrioritizedReplayBuffer.min_tree p))
       (Rmax (PrioritizedReplayBuffer.max_priority p) prio)).
Proof.
  intros [Hwf Hs Hm Hp] Hprio Hi.
  assert (Hlen : PrioritizedReplayBuffer.len p
                 <= ReplayBuffer.capacity (PrioritizedReplayBuffer.base p)).
  { unfold PrioritizedReplayBuffer.len, ReplayBuffer.len.
    pose proof (wf_idx _ Hwf).
    destruct (ReplayBuffer.full (PrioritizedReplayBuffer.base p)); lia. }
  destruct p as [b al st mt mp]. simpl in *.
  unfold PrioritizedReplayBuffer.update_priority, bind, get, assert_.
  rewrite Rltb_true by exact Hprio. simpl.
  destruct (Z.leb_spec 0 i); [|lia].
  destruct (Z.ltb_spec i (PrioritizedReplayBuffer.len
                            (PrioritizedReplayBuffer.Make b al st mt mp))); [|lia].
  simpl. rewrite pypow_pos by exact Hprio. simpl.
  unfold PrioritizedReplayBuffer.sum_tree_set, PrioritizedReplayBuffer.min_tree_set,
    bind, get, put. simpl.
  unfold SumSegmentTree.setitem, MinSegmentTree.setitem.
  rewrite setitem_in by lia. simpl.
  rewrite pypow_pos by exact Hprio. simpl.
  rewrite setitem_in by lia. reflexivity.
Qed.

Lemma pfresh2_init :
  PrioritizedReplayBuffer.init 2 1 (fun _ => blank) = inr pfresh2.
Proof.
  unfold PrioritizedReplayBuffer.init. simpl.
  destruct (Rlt_dec 1 0); [lra|]. reflexivity.
Qed.

Ltac prove_pwf := split; [split; simpl; lia | simpl; lia | simpl; lia | simpl; lra].

Ltac norm_cursor :=
  repeat match goal with
         | |- context [(?a mod ?b)%Z] =>
             let v := eval vm_compute in (a mod b)%Z in
             change (a mod b)%Z with v
         end.

Ltac run_padd :=
  erewrite padd_Val;
  [ | prove_pwf
    | unfold add_transition; rewrite add_Val by (split; simpl; lia); reflexivity ];
  simpl; norm_cursor; simpl.

(** C1 -- [add] seeds the leaf under the advanced cursor, not the leaf of
    the slot it has just written.  On a fresh buffer of capacity 2 with
    [alpha = 1] the first transition is written to slot 0, while the leaf
    set to [max_priority^alpha = 1] is leaf 1 and leaf 0 keeps the neutral
    elements.  After a second [add] and [update_priorities([0, 1], [2, 3])]
    a third [add] overwrites slot 0 and sets leaf 1 to [3]; leaf 0 still
    holds 2, not [max_priority^alpha = 3]. *)
Theorem add_seeds_leaf_under_advanced_cursor :
  exists p1 p2 p3 p4 : PrioritizedReplayBuffer.t,
    add_prioritized x1 pfresh2 = Val tt p1 /\
    slot (PrioritizedReplayBuffer.base p1) 0 = Some (stored x1) /\
    PrioritizedReplayBuffer.sum_tree p1 = [0%R; 1%R] /\
    PrioritizedReplayBuffer.min_tree p1 = [PInf; Finite 1] /\
    pypow (PrioritizedReplayBuffer.max_priority p1)
          (PrioritizedReplayBuffer.alpha p1) = Some 1%R /\
    add_prioritized x2 p1 = Val tt p2 /\
    PrioritizedReplayBuffer.update_priorities [0; 1] [2%R; 3%R] p2 = Val tt p3 /\
    PrioritizedReplayBuffer.sum_tree p3 = [2%R; 3%R] /\
    ReplayBuffer.idx (PrioritizedReplayBuffer.base p3) = 0 /\
    add_prioritized x3 p3 = Val tt p4 /\
    slot (PrioritizedReplayBuffer.base p4) 0 = Some (stored x3) /\
    PrioritizedReplayBuffer.sum_tree p4 = [2%R; 3%R] /\
    PrioritizedReplayBuffer.min_tree p4 = [Finite 2; Finite 3] /\
    pypow (PrioritizedReplayBuffer.max_priority p4)
          (PrioritizedReplayBuffer.alpha p4) = Some 3%R.
Proof.
  eexists _, _, _, _.
  split. { unfold add_prioritized, pfresh2. run_padd. rewrite ?Rpower_1 by lra. reflexivity. }
  split; [reflexivity|]. split; [reflexivity|]. split; [reflexivity|].
  split. { simpl. rewrite pypow_pos by lra. rewrite Rpower_1 by lra. reflexivity. }
  split. { unfold add_prioritized. run_padd. rewrite ?Rpower_1 by lra. reflexivity. }
  split.
  { unfold PrioritizedReplayBuffer.update_priorities.
    erewrite bind_Val; [|reflexivity]. cbn [zip_with forM_].
    erewrite bind_Val;
      [ | rewrite update_priority_Val;
          [ reflexivity | prove_pwf | lra
          | unfold PrioritizedReplayBuffer.len, ReplayBuffer.len; simpl; lia ] ].
    cbv beta. cbn [forM_].
    erewrite bind_Val;
      [ | rewrite update_priority_Val;
          [ reflexivity
          | split; [split; simpl; lia | simpl; lia | simpl; lia
                   | simpl; unfold Rmax; destruct (Rle_dec 1 2); lra]
          | lra
          | unfold PrioritizedReplayBuffer.len, ReplayBuffer.len; simpl; lia ] ].
    simpl. rewrite ?Rpower_1 by lra. rewrite (Rmax_right 1 2) by lra. rewrite (Rmax_right 2 3) by lra.
    reflexivity. }
  split; [reflexivity|]. split; [reflexivity|].
  split. { unfold add_prioritized. run_padd. rewrite ?Rpower_1 by lra. reflexivity. }
  split; [reflexivity|]. split; [reflexivity|]. split; [reflexivity|].
  simpl. rewrite pypow_pos by lra. rewrite Rpower_1 by lra. reflexivity.
Qed.

(** ** update_priorities *)

Lemma Rltb_true_inv (x y : R) : Rltb x y = true -> (x < y)%R.
Proof. unfold Rltb. destruct (Rlt_dec x y); [auto|discriminate]. Qed.

Lemma pfull2_pwf : pwf pfull2.
Proof. prove_pwf. Qed.

Lemma pfull2_built :
  forM_ [x1; x2] add_prioritized pfresh2 = Val tt pfull2.
Proof.
  cbn [forM_]. unfold add_prioritized, pfresh2.
  erewrite bind_Val; [|run_padd; rewrite ?Rpower_1 by lra; reflexivity].
  erewrite bind_Val; [|run_padd; rewrite ?Rpower_1 by lra; reflexivity].
  reflexivity.
Qed.

(** An entry with a priority that is not positive stops the call. *)
Lemma update_priority_bad_prio (p : PrioritizedReplayBuffer.t) i prio :
  ~ (0 < prio)%R ->
  PrioritizedReplayBuffer.update_priority (i, prio) p = Exn AssertionError p.
Proof.
  intros H. unfold PrioritizedReplayBuffer.update_priority, bind, assert_.
  rewrite Rltb_false by lra. reflexivity.
Qed.

(** So does an entry with an index outside [[0, len)]. *)
Lemma update_priority_bad_idx (p : PrioritizedReplayBuffer.t) i prio :
  (0 < prio)%R ->
  ~ (0 <= i < PrioritizedReplayBuffer.len p) ->
  PrioritizedReplayBuffer.update_priority (i, prio) p = Exn AssertionError p.
Proof.
  intros Hp H. unfold PrioritizedReplayBuffer.update_priority, bind, assert_, get.
  rewrite Rltb_true by exact Hp. simpl.
  destruct (Z.leb_spec 0 i); simpl; [|reflexivity].
  destruct (Z.ltb_spec i (PrioritizedReplayBuffer.len p)); [lia|reflexivity].
Qed.

Lemma update_priority_invalid (p : PrioritizedReplayBuffer.t) e :
  ~ valid_entry p e ->
  PrioritizedReplayBuffer.update_priority e p = Exn AssertionError p.
Proof.
  destruct e as [i prio]. unfold valid_entry; simpl. intros H.
  destruct (Rlt_dec 0 prio) as [Hp|Hp].
  - apply update_priority_bad_idx; [exact Hp | tauto].
  - apply update_priority_bad_prio. exact Hp.
Qed.

Lemma update_priority_valid (p : PrioritizedReplayBuffer.t) e :
  pwf p -> valid_entry p e ->
  PrioritizedReplayBuffer.update_priority e p = Val tt (apply_entry p e).
Proof.
  destruct e as [i prio]. intros Hwf [Hp Hi]. cbn [fst snd] in Hp, Hi.
  rewrite update_priority_Val by assumption. reflexivity.
Qed.

Lemma apply_entry_pwf (p : PrioritizedReplayBuffer.t) e :
  pwf p -> valid_entry p e -> pwf (apply_entry p e).
Proof.
  intros [Hwf Hs Hm Hp] [Hprio Hi]. split; simpl; rewrite ?length_insert;
    try assumption.
  eapply Rlt_le_trans; [exact Hp | apply Rmax_l].
Qed.

Lemma apply_entry_len (p : PrioritizedReplayBuffer.t) e :
  PrioritizedReplayBuffer.len (apply_entry p e) = PrioritizedReplayBuffer.len p.
Proof. reflexivity. Qed.

Lemma valid_entry_apply (p : PrioritizedReplayBuffer.t) e e' :
  valid_entry (apply_entry p e) e' <-> valid_entry p e'.
Proof. unfold valid_entry. rewrite apply_entry_len. reflexivity. Qed.

Lemma apply_entries_len (es : list (Z * R)) :
  forall p : PrioritizedReplayBuffer.t,
    PrioritizedReplayBuffer.len (apply_entries p es) = PrioritizedReplayBuffer.len p.
Proof.
  induction es as [|e es IH]; intros p; [reflexivity|].
  unfold apply_entries in *. cbn [fold_left]. rewrite IH. reflexivity.
Qed.

Lemma valid_entry_apply_entries (p : PrioritizedReplayBuffer.t) es e :
  valid_entry (apply_entries p es) e <-> valid_entry p e.
Proof. unfold valid_entry. rewrite apply_entries_len. reflexivity. Qed.

(** The loop of [update_priorities] runs through a prefix of valid entries
    applying each of them. *)
Lemma update_loop_prefix (es1 rest : list (Z * R)) :
  forall p : PrioritizedReplayBuffer.t,
    pwf p -> Forall (valid_entry p) es1 ->
    forM_ (es1 ++ rest) PrioritizedReplayBuffer.update_priority p =
    forM_ rest PrioritizedReplayBuffer.update_priority (apply_entries p es1).
Proof.
  induction es1 as [|e es1 IH]; intros p Hwf Hall; [reflexivity|].
  apply Forall_cons in Hall as [He Hall]. cbn [app forM_].
  rewrite (bind_Val _ _ _ _ _ (update_priority_valid p e Hwf He)).
  rewrite IH; [reflexivity | apply apply_entry_pwf; assumption |].
  eapply Forall_impl; [exact Hall|]. intros e'. apply valid_entry_apply.
Qed.

(** Whether an entry is valid can be tested. *)
Lemma valid_entry_dec (p : PrioritizedReplayBuffer.t) e :
  {valid_entry p e} + {~ valid_entry p e}.
Proof.
  unfold valid_entry. destruct (Rlt_dec 0 (snd e)); [|right; tauto].
  destruct (Z_le_dec 0 (fst e)); [|right; lia].
  destruct (Z_lt_dec (fst e) (PrioritizedReplayBuffer.len p)); [|right; lia].
  left; auto.
Qed.

(** A list with an invalid entry splits at its first invalid entry. *)
Lemma first_invalid (p : PrioritizedReplayBuffer.t) (es : list (Z * R)) :
  Exists (fun e => ~ valid_entry p e) es ->
  exists es1 e es2,
    es = es1 ++ e :: es2 /\ Forall (valid_entry p) es1 /\ ~ valid_entry p e.
Proof.
  induction es as [|e es IH]; intros H.
  - inversion H.
  - destruct (valid_entry_dec p e) as [He|He].
    + apply Exists_cons in H as [H|H]; [contradiction|].
      destruct (IH H) as (es1 & e' & es2 & -> & Hall & Hbad).
      exists (e :: es1), e', es2. repeat split; auto.
    + exists [], e, es. repeat split; auto.
Qed.

(** C8 -- failing [update_priorities].  On a well-formed prioritized buffer
    the call raises an AssertionError when the two arrays differ in length
    and when some entry has a priority that is not positive or an index
    outside [[0, len)].  A length mismatch leaves the buffer unchanged;
    otherwise the entries before the first offending one have been applied
    (their leaves set to [prio^alpha] in both trees, [max_priority] raised)
    and the offending entry and the ones after it have not. *)
Theorem update_priorities_failure
    (p : PrioritizedReplayBuffer.t) (idxs : list Z) (prios : list R) :
  pwf p ->
  length idxs <> length prios
  \/ Exists (fun e => ~ valid_entry p e) (zip idxs prios) ->
  exists p',
    PrioritizedReplayBuffer.update_priorities idxs prios p
    = Exn AssertionError p' /\
    (length idxs <> length prios -> p' = p) /\
    (length idxs = length prios ->
     exists es1 e es2,
       zip idxs prios = es1 ++ e :: es2 /\
       Forall (valid_entry p) es1 /\ ~ valid_entry p e /\
       p' = apply_entries p es1).
Proof.
  intros Hwf Hbad. unfold PrioritizedReplayBuffer.update_priorities.
  destruct (Nat.eqb_spec (length idxs) (length prios)) as [Hlen|Hlen].
  - destruct Hbad as [Hbad|Hbad]; [contradiction|].
    destruct (first_invalid p _ Hbad) as (es1 & e & es2 & Hzip & Hall & He).
    exists (apply_entries p es1). split; [|split; [contradiction|]].
    + unfold bind at 1. cbn [assert_ ret]. rewrite Hzip.
      rewrite update_loop_prefix by assumption. cbn [forM_].
      apply bind_Exn. apply update_priority_invalid.
      intros Hv. apply He.
      exact (proj1 (valid_entry_apply_entries p es1 e) Hv).
    + intros _. exists es1, e, es2. auto.
  - exists p. split; [reflexivity|]. split; [reflexivity|]. contradiction.
Qed.

(** An offending second entry: the first entry has already been applied
    when the call raises. *)
Lemma update_priorities_failure_witness :
  pwf pfull2 /\
  (length [0; 0] <> length [2%R; (-1)%R]
   \/ Exists (fun e => ~ valid_entry pfull2 e) (zip [0; 0] [2%R; (-1)%R])) /\
  exists p',
    PrioritizedReplayBuffer.update_priorities [0; 0] [2%R; (-1)%R] pfull2
    = Exn AssertionError p'.
Proof.
  assert (Hbad : length [0; 0] <> length [2%R; (-1)%R]
                 \/ Exists (fun e => ~ valid_entry pfull2 e)
                      (zip [0; 0] [2%R; (-1)%R])).
  { right. apply Exists_cons_tl, Exists_cons_hd.
    unfold valid_entry; simpl. lra. }
  split; [exact pfull2_pwf|]. split; [exact Hbad|].
  destruct (update_priorities_failure pfull2 [0; 0] [2%R; (-1)%R]
              pfull2_pwf Hbad) as (p' & Hrun & _).
  exists p'. exact Hrun.
Defined.

(** The claim as written fails: [update_priorities([0, 0], [2, -1])] on the
    full buffer of capacity 2 raises at the second entry, and the buffer it
    leaves has leaf 0 at [2] in both trees and [max_priority = 2], where it
    had [1] before. *)
Lemma update_priorities_partial_counterexample :
  PrioritizedReplayBuffer.update_priorities [0; 0] [2%R; (-1)%R] pfull2
  = Exn AssertionError
      (PrioritizedReplayBuffer.Make (PrioritizedReplayBuffer.base pfull2) 1
         [2%R; 1%R] [Finite 2; Finite 1] 2) /\
  PrioritizedReplayBuffer.sum_tree pfull2 = [1%R; 1%R] /\
  PrioritizedReplayBuffer.min_tree pfull2 = [Finite 1; Finite 1] /\
  PrioritizedReplayBuffer.max_priority pfull2 = 1%R /\
  PrioritizedReplayBuffer.Make (PrioritizedReplayBuffer.base pfull2) 1
    [2%R; 1%R] [Finite 2; Finite 1] 2 <> pfull2.
Proof.
  split; [|split; [reflexivity|split; [reflexivity|split; [reflexivity|]]]].
  - unfold PrioritizedReplayBuffer.update_priorities.
    erewrite bind_Val; [|reflexivity].
    change (zip [0; 0] [2%R; (-1)%R]) with ([(0, 2%R)] ++ [(0, (-1)%R)]).
    rewrite update_loop_prefix.
    + cbn [forM_]. erewrite bind_Exn;
        [|apply update_priority_bad_prio; lra].
      unfold apply_entries, apply_entry, pfull2. simpl.
      rewrite Rpower_1 by lra. rewrite Rmax_right by lra. reflexivity.
    + exact pfull2_pwf.
    + repeat constructor; simpl; try lra;
        unfold PrioritizedReplayBuffer.len, ReplayBuffer.len; simpl; lia.
  - unfold pfull2. intros [= H]. lra.
Qed.

(** ** max_priority never goes down *)

#[local] Instance max_priority_le_preorder : PreOrder max_priority_le.
Proof.
  split.
  - intros p. unfold max_priority_le. lra.
  - intros p q r. unfold max_priority_le. lra.
Qed.












(** ** Stratified sampling of indices *)

Lemma draw_idx_inv (p : PrioritizedReplayBuffer.t) W k n draws idx rest :
  PrioritizedReplayBuffer.draw_idx p W k n draws = Some (idx, rest) ->
  exists rejected u,
    draws = rejected ++ u :: rest /\
    Forall (fun r => ~ fits p n (band_index p W k r)) rejected /\
    fits p n (band_index p W k u) /\ idx = band_index p W k u.
Proof.
  induction draws as [|u draws IH]; simpl; [discriminate|].
  fold (band_mass W k u). fold (band_index p W k u).
  destruct (Z.leb_spec (band_index p W k u + n) (PrioritizedReplayBuffer.len p))
    as [Hfit|Hno].
  - intros [= <- <-]. exists [], u. repeat split; auto.
  - intros H. destruct (IH H) as (rej & u' & -> & Hrej & Hfit & ->).
    exists (u :: rej), u'. repeat split; auto.
    constructor; [unfold fits; lia | exact Hrej].
Qed.

Lemma draw_idx_served (p : PrioritizedReplayBuffer.t) W k n rejected u rest :
  Forall (fun r => ~ fits p n (band_index p W k r)) rejected ->
  fits p n (band_index p W k u) ->
  PrioritizedReplayBuffer.draw_idx p W k n (rejected ++ u :: rest)
  = Some (band_index p W k u, rest).
Proof.
  intros Hrej Hfit. induction Hrej as [|r rejected Hr _ IH]; simpl.
  - fold (band_mass W k u). fold (band_index p W k u).
    destruct (Z.leb_spec (band_index p W k u + n) (PrioritizedReplayBuffer.len p));
      [reflexivity | unfold fits in Hfit; lia].
  - fold (band_mass W k r). fold (band_index p W k r).
    destruct (Z.leb_spec (band_index p W k r + n) (PrioritizedReplayBuffer.len p));
      [contradiction | exact IH].
Qed.

Lemma draw_bands_inv (p : PrioritizedReplayBuffer.t) W n :
  forall (c : nat) k draws idxs,
    PrioritizedReplayBuffer.draw_bands p W n c k draws = Some idxs ->
    exists blocks rest,
      draws = consumed blocks ++ rest /\ length blocks = c /\
      served p W n k blocks /\ idxs = band_indices p W k blocks.
Proof.
  induction c as [|c IH]; intros k draws idxs; simpl.
  - intros [= <-]. exists [], draws. repeat split; auto.
  - destruct (PrioritizedReplayBuffer.draw_idx p W k n draws) as [[idx draws']|]
      eqn:Hd; [|discriminate].
    destruct (PrioritizedReplayBuffer.draw_bands p W n c (k + 1) draws')
      as [idxs'|] eqn:Hb; [|discriminate].
    intros [= <-].
    destruct (draw_idx_inv _ _ _ _ _ _ _ Hd) as (rej & u & -> & Hrej & Hfit & ->).
    destruct (IH _ _ _ Hb) as (blocks & rest & -> & Hlen & Hserved & ->).
    exists ((rej, u) :: blocks), rest. simpl.
    split; [rewrite <- app_assoc; reflexivity|].
    split; [congruence|]. split; [auto|reflexivity].
Qed.

Lemma draw_bands_served (p : PrioritizedReplayBuffer.t) W n :
  forall blocks k rest,
    served p W n k blocks ->
    PrioritizedReplayBuffer.draw_bands p W n (length blocks) k
      (consumed blocks ++ rest)
    = Some (band_indices p W k blocks).
Proof.
  induction blocks as [|[rej u] blocks IH]; intros k rest; simpl; [reflexivity|].
  intros (Hrej & Hfit & Hserved).
  rewrite <- app_assoc. simpl.
  rewrite draw_idx_served by assumption.
  rewrite IH by exact Hserved. reflexivity.
Qed.

Lemma band_indices_length (p : PrioritizedReplayBuffer.t) W blocks :
  forall k, length (band_indices p W k blocks) = length blocks.
Proof.
  induction blocks as [|[rej u] blocks IH]; intros k; simpl;
    [reflexivity | rewrite IH; reflexivity].
Qed.

Lemma band_indices_fit (p : PrioritizedReplayBuffer.t) W n blocks :
  forall k, served p W n k blocks ->
            Forall (fits p n) (band_indices p W k blocks).
Proof.
  induction blocks as [|[rej u] blocks IH]; intros k; simpl; [constructor|].
  intros (_ & Hfit & Hserved). constructor; [exact Hfit | apply IH, Hserved].
Qed.

(** The mass of a draw in [[0, 1)] lies in the band it is drawn for. *)
Lemma band_mass_in_band (W : R) (k : Z) (u : R) :
  (0 <= u < 1)%R -> (0 < W)%R ->
  (IZR k * W <= band_mass W k u < (IZR k + 1) * W)%R.
Proof. intros Hu HW. unfold band_mass. nra. Qed.

Lemma pydiv_Some (x y : R) : y <> 0%R -> pydiv x y = Some (x / y)%R.
Proof. intros H. unfold pydiv. destruct (Req_dec_T y 0); [contradiction|reflexivity]. Qed.

Lemma IZR_batch_nonzero (batch_size : Z) : 1 <= batch_size -> IZR batch_size <> 0%R.
Proof. intros H. apply not_0_IZR. lia. Qed.

(** [sample_idxs] once the range sum and the band width are known. *)
Lemma psample_idxs_run (p : PrioritizedReplayBuffer.t) batch_size n draws total :
  1 <= batch_size ->
  SumSegmentTree.sum (PrioritizedReplayBuffer.sum_tree p) 0
    (PrioritizedReplayBuffer.len p - n - 1) = Some total ->
  PrioritizedReplayBuffer.sample_idxs batch_size n draws p =
  match PrioritizedReplayBuffer.draw_bands p (total / IZR batch_size) n
          (Z.to_nat batch_size) 0 draws with
  | Some idxs => Val idxs p
  | None => Starved
  end.
Proof.
  intros Hb Hsum. unfold PrioritizedReplayBuffer.sample_idxs.
  rewrite bind_get. rewrite (bind_orRaise_Some _ _ _ _ _ Hsum).
  rewrite (bind_orRaise_Some _ _ _ _ _
             (pydiv_Some total _ (IZR_batch_nonzero _ Hb))).
  destruct (PrioritizedReplayBuffer.draw_bands _ _ _ _ _ _); reflexivity.
Qed.

(** Enough draws make [sample_idxs] return: when the generator serves
    every band, the indices of the accepted draws are returned. *)
Lemma psample_idxs_served (p : PrioritizedReplayBuffer.t) batch_size n total
    blocks rest :
  1 <= batch_size ->
  SumSegmentTree.sum (PrioritizedReplayBuffer.sum_tree p) 0
    (PrioritizedReplayBuffer.len p - n - 1) = Some total ->
  Z.of_nat (length blocks) = batch_size ->
  served p (total / IZR batch_size) n 0 blocks ->
  PrioritizedReplayBuffer.sample_idxs batch_size n (consumed blocks ++ rest) p
  = Val (band_indices p (total / IZR batch_size) 0 blocks) p.
Proof.
  intros Hb Hsum Hlen Hserved.
  rewrite (psample_idxs_run p batch_size n _ total Hb Hsum).
  replace (Z.to_nat batch_size) with (length blocks) by lia.
  rewrite draw_bands_served by exact Hserved. reflexivity.
Qed.

(** C4 -- stratified sampling.  With [total] the priority mass of the range
    sum [sum(0, len - n - 1)] and [batch_size >= 1], the band width is
    [total / batch_size] and [sample_idxs] returns exactly when the generator
    serves every band [k = 0 .. batch_size - 1] in turn: some draws whose
    index does not leave room for [n] steps, which are thrown away, then a
    draw [u] whose mass [u * W + k * W] maps through the prefix-sum lookup to
    an index with [idx + n <= len]; that index is the one returned for the
    band.  So the result has [batch_size] indices, each of them with
    [idx + n <= len], and the mass of a draw [u] of [[0, 1)] lies in
    [[k * W, (k + 1) * W)]. *)
Theorem psample_idxs_bands (p : PrioritizedReplayBuffer.t)
    (batch_size n : Z) (total : R) (draws : list R) (idxs : list Z)
    (p' : PrioritizedReplayBuffer.t) :
  1 <= batch_size ->
  SumSegmentTree.sum (PrioritizedReplayBuffer.sum_tree p) 0
    (PrioritizedReplayBuffer.len p - n - 1) = Some total ->
  (PrioritizedReplayBuffer.sample_idxs batch_size n draws p = Val idxs p' <->
   p' = p /\
   exists blocks rest,
     draws = consumed blocks ++ rest /\
     Z.of_nat (length blocks) = batch_size /\
     served p (total / IZR batch_size) n 0 blocks /\
     idxs = band_indices p (total / IZR batch_size) 0 blocks) /\
  (PrioritizedReplayBuffer.sample_idxs batch_size n draws p = Val idxs p' ->
   Z.of_nat (length idxs) = batch_size /\
   Forall (fun idx => idx + n <= PrioritizedReplayBuffer.len p) idxs) /\
  (forall (k : Z) (u : R),
      (0 <= u < 1)%R -> (0 < total)%R ->
      (IZR k * (total / IZR batch_size)
       <= band_mass (total / IZR batch_size) k u
       < (IZR k + 1) * (total / IZR batch_size))%R).
Proof.
  intros Hb Hsum.
  assert (Hinv : PrioritizedReplayBuffer.sample_idxs batch_size n draws p
                 = Val idxs p' ->
                 p' = p /\
                 exists blocks rest,
                   draws = consumed blocks ++ rest /\
                   Z.of_nat (length blocks) = batch_size /\
                   served p (total / IZR batch_size) n 0 blocks /\
                   idxs = band_indices p (total / IZR batch_size) 0 blocks).
  { rewrite (psample_idxs_run p batch_size n draws total Hb Hsum).
    destruct (PrioritizedReplayBuffer.draw_bands _ _ _ _ _ _) as [idxs'|] eqn:Hd;
      [|discriminate].
    intros [= <- <-]. split; [reflexivity|].
    destruct (draw_bands_inv _ _ _ _ _ _ _ Hd) as (blocks & rest & ? & ? & ? & ?).
    exists blocks, rest. repeat split; try assumption. lia. }
  split; [split; [exact Hinv|]|split].
  - intros (-> & blocks & rest & -> & Hlen & Hserved & ->).
    apply psample_idxs_served; assumption.
  - intros Hrun. destruct (Hinv Hrun) as (_ & blocks & rest & _ & Hlen & Hserved & ->).
    split.
    + rewrite band_indices_length. exact Hlen.
    + exact (band_indices_fit _ _ _ _ _ Hserved).
  - intros k u Hu Ht. apply band_mass_in_band; [exact Hu|].
    apply Rdiv_lt_0_compat; [exact Ht|]. apply IZR_lt. lia.
Qed.

(** One band over the full buffer of capacity 2, one-step windows: the
    range sum is leaf 0, the draw 1/2 has mass 1/2 and maps to index 0. *)
Lemma psample_idxs_bands_witness :
  1 <= 1 /\
  SumSegmentTree.sum (PrioritizedReplayBuffer.sum_tree pfull2) 0
    (PrioritizedReplayBuffer.len pfull2 - 1 - 1) = Some (1 + 0)%R /\
  PrioritizedReplayBuffer.sample_idxs 1 1 [(1 / 2)%R] pfull2 = Val [0] pfull2.
Proof.
  assert (Hb : 1 <= 1) by lia.
  assert (Hsum : SumSegmentTree.sum (PrioritizedReplayBuffer.sum_tree pfull2) 0
                   (PrioritizedReplayBuffer.len pfull2 - 1 - 1) = Some (1 + 0)%R)
    by reflexivity.
  assert (Hidx : band_index pfull2 ((1 + 0) / IZR 1) 0 (1 / 2) = 0).
  { unfold band_index, band_mass, SumSegmentTree.find_prefixsum_idx. simpl.
    destruct (Rlt_dec _ _) as [_|Hn]; [reflexivity|]. exfalso. apply Hn. lra. }
  split; [exact Hb|]. split; [exact Hsum|].
  apply (proj1 (psample_idxs_bands pfull2 1 1 (1 + 0)%R [(1 / 2)%R] [0] pfull2
                  Hb Hsum)).
  split; [reflexivity|]. exists [([], (1 / 2)%R)], [].
  split; [reflexivity|]. split; [reflexivity|]. split.
  - simpl. split; [constructor|]. split; [|exact I].
    rewrite Hidx. unfold fits, PrioritizedReplayBuffer.len, ReplayBuffer.len.
    simpl. lia.
  - simpl. rewrite Hidx. reflexivity.
Defined.

(** ** Sampling a window longer than the buffer *)

Lemma randint_empty_high {St} (high size : Z) (draws : list Z) (s : St) :
  high <= 0 -> size <> 0 ->
  randint 0 high size draws s = Exn ValueError s.
Proof.
  intros Hh Hs. unfold randint.
  destruct (Z.eqb_spec size 0); [contradiction|].
  destruct (Z.leb_spec high 0); [|lia]. reflexivity.
Qed.

Lemma sample_multistep_too_long (b : ReplayBuffer.t) batch_size discount n draws :
  ReplayBuffer.len b < n ->
  raises (ReplayBuffer.sample_multistep batch_size discount n draws b).
Proof.
  unfold ReplayBuffer.len. intros Hn.
  unfold ReplayBuffer.sample_multistep. rewrite bind_get.
  destruct (ReplayBuffer.full b) eqn:Hfull.
  - rewrite bind_assert_true by apply orb_true_r.
    unfold ReplayBuffer.sample_idxs.
    destruct (Z.eq_dec batch_size 0) as [->|Hb].
    + erewrite bind_Val; [|rewrite bind_get; reflexivity].
      unfold ReplayBuffer.fetch. rewrite bind_get.
      rewrite bind_orRaise_None by reflexivity. exact I.
    + erewrite bind_Exn;
        [exact I | rewrite bind_get, Hfull; apply randint_empty_high; lia].
  - rewrite bind_assert_false; [exact I|].
    rewrite orb_false_r. apply Z.leb_gt. lia.
Qed.

Lemma reduce_hi_negative {V} (operation : V -> V -> V) neutral tree lo hi :
  hi < 0 -> SegmentTree.reduce operation neutral tree lo hi = None.
Proof.
  intros H. unfold SegmentTree.reduce, SegmentTree.in_range.
  destruct (Z.leb_spec 0 hi); [lia|]. simpl. rewrite andb_false_r. reflexivity.
Qed.

Lemma psample_multistep_too_long (p : PrioritizedReplayBuffer.t)
    batch_size beta discount n draws :
  PrioritizedReplayBuffer.len p < n ->
  raises (PrioritizedReplayBuffer.sample_multistep batch_size beta discount n
            draws p).
Proof.
  unfold PrioritizedReplayBuffer.len, ReplayBuffer.len. intros Hn.
  unfold PrioritizedReplayBuffer.sample_multistep. rewrite bind_get.
  destruct (ReplayBuffer.full (PrioritizedReplayBuffer.base p)) eqn:Hfull.
  - rewrite bind_assert_true by apply orb_true_r.
    destruct (Rltb 0 beta) eqn:Hbeta;
      [|rewrite bind_assert_false by reflexivity; exact I].
    rewrite bind_assert_true by reflexivity.
    erewrite bind_Exn; [exact I|].
    unfold PrioritizedReplayBuffer.sample_idxs. rewrite bind_get.
    apply bind_orRaise_None. unfold SumSegmentTree.sum.
    apply reduce_hi_negative.
    unfold PrioritizedReplayBuffer.len, ReplayBuffer.len. rewrite Hfull. lia.
  - rewrite bind_assert_false; [exact I|].
    rewrite orb_false_r. apply Z.leb_gt. lia.
Qed.

(** C6 -- a window longer than the buffer.  With [n > len], the uniform
    and the prioritized [sample_multistep] both raise, whatever the
    generator hands out.  While the buffer is not full it is the assertion
    [n <= idx or full] that fails; once it is full that assertion passes for
    every [n], and the call fails later: the uniform one in [randint], whose
    range is empty (or in [fetch], on the empty index array of a batch of
    size 0), the prioritized one at the range sum, whose upper end
    [len - n - 1] is negative. *)
Theorem sample_multistep_requires_window
    (b : ReplayBuffer.t) (p : PrioritizedReplayBuffer.t)
    (batch_size n : Z) (beta discount : R) (draws : list Z) (rdraws : list R) :
  ReplayBuffer.len b < n ->
  PrioritizedReplayBuffer.len p < n ->
  raises (ReplayBuffer.sample_multistep batch_size discount n draws b) /\
  raises (PrioritizedReplayBuffer.sample_multistep batch_size beta discount n
            rdraws p).
Proof.
  intros Hb Hp. split.
  - apply sample_multistep_too_long. exact Hb.
  - apply psample_multistep_too_long. exact Hp.
Qed.

(** A full buffer of capacity 4 and a full prioritized buffer of capacity 2,
    both asked for a window of 5 steps. *)
Lemma sample_multistep_requires_window_witness :
  ReplayBuffer.len scenario_buffer < 5 /\
  PrioritizedReplayBuffer.len pfull2 < 5 /\
  raises (ReplayBuffer.sample_multistep 1 (1 / 2)%R 5 [0] scenario_buffer) /\
  raises (PrioritizedReplayBuffer.sample_multistep 1 1%R (1 / 2)%R 5 [(1 / 2)%R]
            pfull2).
Proof.
  assert (H1 : ReplayBuffer.len scenario_buffer < 5)
    by (unfold ReplayBuffer.len; simpl; lia).
  assert (H2 : PrioritizedReplayBuffer.len pfull2 < 5)
    by (unfold PrioritizedReplayBuffer.len, ReplayBuffer.len; simpl; lia).
  split; [exact H1|]. split; [exact H2|].
  exact (sample_multistep_requires_window scenario_buffer pfull2 1 5 1%R
           (1 / 2)%R [0] [(1 / 2)%R] H1 H2).
Defined.

(** ** Sampling and fetching do not touch the buffer *)

Lemma randint_unchanged {St} low high size draws (s : St) :
  leaves_unchanged (randint low high size draws) s.
Proof.
  unfold leaves_unchanged, randint.
  destruct (size =? 0); [apply preserves_ret; apply _|].
  destruct ((high <=? low) || (size <? 0)); [apply preserves_raise; apply _|].
  destruct (Z.of_nat (length draws) <? size);
    [apply preserves_starve | apply preserves_ret; apply _].
Qed.

Lemma fetch_unchanged idxs discount n (b : ReplayBuffer.t) :
  leaves_unchanged (ReplayBuffer.fetch idxs discount n) b.
Proof.
  unfold leaves_unchanged, ReplayBuffer.fetch.
  apply preserves_get_bind.
  apply preserves_orRaise_bind; [apply _|]. intros m _.
  apply preserves_assert_bind; [apply _|]. intros _.
  apply preserves_orRaise_bind; [apply _|]. intros o _.
  apply preserves_orRaise_bind; [apply _|]. intros no _.
  apply preserves_orRaise_bind; [apply _|]. intros a _.
  apply preserves_orRaise_bind; [apply _|]. intros acc _.
  apply preserves_ret; apply _.
Qed.

Lemma sample_idxs_unchanged batch_size n draws (b : ReplayBuffer.t) :
  leaves_unchanged (ReplayBuffer.sample_idxs batch_size n draws) b.
Proof.
  unfold leaves_unchanged, ReplayBuffer.sample_idxs.
  apply preserves_get_bind. apply randint_unchanged.
Qed.

Lemma sample_multistep_unchanged batch_size discount n draws (b : ReplayBuffer.t) :
  leaves_unchanged (ReplayBuffer.sample_multistep batch_size discount n draws) b.
Proof.
  unfold leaves_unchanged, ReplayBuffer.sample_multistep.
  apply preserves_get_bind.
  apply preserves_assert_bind; [apply _|]. intros _.
  apply preserves_bind; [apply _ | apply sample_idxs_unchanged |].
  intros idxs s' _. apply fetch_unchanged.
Qed.

Lemma super_unchanged {A} (m : M ReplayBuffer.t A) (p : PrioritizedReplayBuffer.t) :
  leaves_unchanged m (PrioritizedReplayBuffer.base p) ->
  leaves_unchanged (PrioritizedReplayBuffer.super m) p.
Proof.
  unfold leaves_unchanged, preserves_at, PrioritizedReplayBuffer.super.
  destruct (m (PrioritizedReplayBuffer.base p)) as [a b| e b|]; simpl;
    try (intros <-; destruct p; reflexivity).
  intros _. exact I.
Qed.

Lemma psample_idxs_unchanged batch_size n draws (p : PrioritizedReplayBuffer.t) :
  leaves_unchanged (PrioritizedReplayBuffer.sample_idxs batch_size n draws) p.
Proof.
  unfold leaves_unchanged, PrioritizedReplayBuffer.sample_idxs.
  apply preserves_get_bind.
  apply preserves_orRaise_bind; [apply _|]. intros p_total _.
  apply preserves_orRaise_bind; [apply _|]. intros w _.
  destruct (PrioritizedReplayBuffer.draw_bands _ _ _ _ _ _);
    [apply preserves_ret; apply _ | apply preserves_starve].
Qed.

Lemma weight_of_unchanged self beta max_weight idx (p : PrioritizedReplayBuffer.t) :
  leaves_unchanged (PrioritizedReplayBuffer.weight_of self beta max_weight idx) p.
Proof.
  unfold leaves_unchanged, PrioritizedReplayBuffer.weight_of.
  apply preserves_orRaise_bind; [apply _|]. intros leaf _.
  apply preserves_orRaise_bind; [apply _|]. intros p_sample _.
  apply preserves_orRaise_bind; [apply _|]. intros w _.
  apply preserves_orRaise; apply _.
Qed.

Lemma psample_multistep_unchanged batch_size beta discount n draws
    (p : PrioritizedReplayBuffer.t) :
  leaves_unchanged
    (PrioritizedReplayBuffer.sample_multistep batch_size beta discount n draws) p.
Proof.
  unfold leaves_unchanged, PrioritizedReplayBuffer.sample_multistep.
  apply preserves_get_bind.
  apply preserves_assert_bind; [apply _|]. intros _.
  apply preserves_assert_bind; [apply _|]. intros _.
  apply preserves_bind; [apply _ | apply psample_idxs_unchanged |].
  intros idxs s' E. apply (unchanged_Val _ _ _ _ (psample_idxs_unchanged _ _ _ _)) in E.
  subst s'.
  apply preserves_orRaise_bind; [apply _|]. intros p_min _.
  apply preserves_orRaise_bind; [apply _|]. intros max_weight _.
  apply preserves_bind;
    [apply _ | apply preserves_mapM; [apply _ | intros; apply weight_of_unchanged] |].
  intros ws s' _.
  apply preserves_bind;
    [apply _ | apply super_unchanged, fetch_unchanged |].
  intros sample s'' _. apply preserves_ret; apply _.
Qed.

(** C10 -- frame.  Whenever [fetch] or [sample_multistep], uniform or
    prioritized, ends (by returning or by raising), the object is in the
    state the call found it in: the five arrays, the cursor [idx], the
    [full] flag and, for the prioritized buffer, the leaves of both trees
    and [max_priority]. *)
Theorem sampling_leaves_buffer_unchanged
    (b : ReplayBuffer.t) (p : PrioritizedReplayBuffer.t)
    (idxs : list Z) (batch_size n : Z) (beta discount : R)
    (draws : list Z) (rdraws : list R) :
  leaves_unchanged (ReplayBuffer.fetch idxs discount n) b /\
  leaves_unchanged (ReplayBuffer.sample_multistep batch_size discount n draws) b /\
  leaves_unchanged
    (PrioritizedReplayBuffer.super (ReplayBuffer.fetch idxs discount n)) p /\
  leaves_unchanged
    (PrioritizedReplayBuffer.sample_multistep batch_size beta discount n rdraws) p.
Proof.
  split; [apply fetch_unchanged|].
  split; [apply sample_multistep_unchanged|].
  split; [apply super_unchanged, fetch_unchanged|].
  apply psample_multistep_unchanged.
Qed.

(** ** The invariant of the prioritized buffer *)

Lemma tree_capacity_loop_ge (fuel : nat) :
  forall tree_capacity capacity,
    1 <= tree_capacity ->
    capacity <= tree_capacity + Z.of_nat fuel ->
    capacity <= PrioritizedReplayBuffer.tree_capacity_loop fuel tree_capacity capacity.
Proof.
  induction fuel as [|fuel IH]; intros tc capacity Htc Hfuel; simpl.
  - lia.
  - destruct (Z.ltb_spec tc capacity); [|lia]. apply IH; lia.
Qed.

Lemma init_wf capacity junk (b : ReplayBuffer.t) :
  0 < capacity -> ReplayBuffer.init capacity junk = inr b ->
  wf b /\ ReplayBuffer.capacity b = capacity.
Proof.
  intros Hc. unfold ReplayBuffer.init.
  destruct (Z.ltb_spec capacity 0); [lia|]. intros [= <-].
  split; [|reflexivity].
  split; simpl; rewrite ?length_fmap, ?length_seq; lia.
Qed.

Lemma init_coherent capacity alpha junk (p : PrioritizedReplayBuffer.t) :
  0 < capacity ->
  PrioritizedReplayBuffer.init capacity alpha junk = inr p -> coherent p.
Proof.
  intros Hc. unfold PrioritizedReplayBuffer.init.
  destruct (ReplayBuffer.init capacity junk) as [|b] eqn:Hb; [discriminate|].
  destruct (Rlt_dec alpha 0); [discriminate|]. intros [= <-].
  destruct (init_wf _ _ _ Hc Hb) as [Hwf Hcap].
  pose proof (tree_capacity_loop_ge (Z.to_nat capacity) 1 capacity) as Hge.
  split; [split|]; simpl.
  - exact Hwf.
  - unfold SumSegmentTree.init, SegmentTree.init. rewrite length_replicate. lia.
  - unfold MinSegmentTree.init, SegmentTree.init. rewrite length_replicate. lia.
  - lra.
  - apply Forall2_replicate. left. auto.
Qed.

Lemma Rpower_pos (x y : R) : (0 < Rpower x y)%R.
Proof. unfold Rpower. apply exp_pos. Qed.

Lemma apply_entry_coherent (p : PrioritizedReplayBuffer.t) e :
  coherent p -> valid_entry p e -> coherent (apply_entry p e).
Proof.
  intros [Hwf Hleaves] He. split; [apply apply_entry_pwf; assumption|].
  simpl. apply Forall2_insert; [exact Hleaves|].
  right. split; [apply Rpower_pos | reflexivity].
Qed.

Lemma apply_entries_coherent (es : list (Z * R)) :
  forall p : PrioritizedReplayBuffer.t,
    coherent p -> Forall (valid_entry p) es -> coherent (apply_entries p es).
Proof.
  induction es as [|e es IH]; intros p Hp Hall; [exact Hp|].
  apply Forall_cons in Hall as [He Hall].
  unfold apply_entries in *. cbn [fold_left].
  apply IH; [apply apply_entry_coherent; assumption|].
  eapply Forall_impl; [exact Hall|]. intros e'. apply valid_entry_apply.
Qed.

(** However [update_priorities] ends, it has applied a prefix of valid
    entries and nothing else. *)
Lemma update_priorities_final (p : PrioritizedReplayBuffer.t) idxs prios :
  pwf p ->
  exists es,
    Forall (valid_entry p) es /\
    final_state (PrioritizedReplayBuffer.update_priorities idxs prios p)
    = Some (apply_entries p es).
Proof.
  intros Hwf. unfold PrioritizedReplayBuffer.update_priorities.
  destruct (Nat.eqb (length idxs) (length prios)) eqn:Hlen.
  2:{ exists []. split; [constructor|].
      rewrite bind_assert_false by reflexivity. reflexivity. }
  rewrite bind_assert_true by reflexivity.
  destruct (Forall_Exists_dec (valid_entry p) (fun e => ~ valid_entry p e)
              (valid_entry_dec p) (zip idxs prios)) as [Hall|Hbad].
  - exists (zip idxs prios). split; [exact Hall|].
    rewrite <- (app_nil_r (zip idxs prios)) at 1.
    rewrite update_loop_prefix by assumption. reflexivity.
  - destruct (first_invalid p _ Hbad) as (es1 & e & es2 & -> & Hall & He).
    exists es1. split; [exact Hall|].
    rewrite update_loop_prefix by assumption. cbn [forM_].
    erewrite bind_Exn; [reflexivity|]. apply update_priority_invalid.
    intros Hv. apply He. exact (proj1 (valid_entry_apply_entries p es1 e) Hv).
Qed.

Lemma padd_coherent (p : PrioritizedReplayBuffer.t) (x : transition) :
  coherent p ->
  exists p', add_prioritized x p = Val tt p' /\ coherent p'.
Proof.
  intros [Hwf Hleaves]. pose proof Hwf as [Hb Hs Hm Hp].
  destruct (ReplayBuffer.add (t_obs x) (t_action x) (t_reward x) (t_next_obs x)
              (t_done x) (PrioritizedReplayBuffer.base p)) as [[] b'| |] eqn:Hadd.
  2,3: rewrite add_Val in Hadd by exact Hb; discriminate.
  eexists. split; [unfold add_prioritized; apply padd_Val; eassumption|].
  pose proof (add_wf _ _ _ _ _ _ _ Hb Hadd) as Hb'.
  assert (Hcap : ReplayBuffer.capacity b'
                 = ReplayBuffer.capacity (PrioritizedReplayBuffer.base p)).
  { rewrite add_Val in Hadd by exact Hb. injection Hadd as <-. reflexivity. }
  split; [split|]; simpl; rewrite ?length_insert; try assumption; try lia.
  apply Forall2_insert; [exact Hleaves|].
  right. split; [apply Rpower_pos | reflexivity].
Qed.

Lemma after_coherent (p : PrioritizedReplayBuffer.t) (c : call) :
  coherent p -> coherent (after p c).
Proof.
  intros Hp. unfold after. destruct c as [x|idxs prios]; simpl.
  - destruct (padd_coherent p x Hp) as (p' & -> & Hp'). exact Hp'.
  - destruct (update_priorities_final p idxs prios (proj1 Hp))
      as (es & Hall & ->).
    apply apply_entries_coherent; assumption.
Qed.

Lemma after_all_coherent (cs : list call) :
  forall p : PrioritizedReplayBuffer.t, coherent p -> coherent (after_all p cs).
Proof.
  induction cs as [|c cs IH]; intros p Hp; [exact Hp|].
  unfold after_all in *. cbn [fold_left]. apply IH, after_coherent, Hp.
Qed.

(** Every buffer built by [__init__] with a positive capacity and then
    driven through [add] and [update_priorities] is coherent. *)
Lemma reachable_coherent capacity alpha junk (p0 : PrioritizedReplayBuffer.t) cs :
  0 < capacity ->
  PrioritizedReplayBuffer.init capacity alpha junk = inr p0 ->
  coherent (after_all p0 cs).
Proof.
  intros Hc Hinit. apply after_all_coherent.
  exact (init_coherent _ _ _ _ Hc Hinit).
Qed.

(** The prioritized [add] stores transitions exactly as the inherited one
    does: a run of calls returns, and the ring it leaves is the one the same
    calls of [ReplayBuffer.add] leave. *)
Lemma padd_ring (ts : list transition) :
  forall p : PrioritizedReplayBuffer.t,
    coherent p ->
    exists p',
      forM_ ts add_prioritized p = Val tt p' /\
      coherent p' /\
      forM_ ts add_transition (PrioritizedReplayBuffer.base p)
      = Val tt (PrioritizedReplayBuffer.base p').
Proof.
  induction ts as [|x ts IH]; intros p Hp.
  - exists p. auto.
  - destruct (padd_coherent p x Hp) as (p1 & Hadd & Hp1).
    destruct (IH p1 Hp1) as (p' & Hrun & Hp' & Hbase).
    exists p'. cbn [forM_].
    rewrite (bind_Val _ _ _ _ _ Hadd). split; [exact Hrun|]. split; [exact Hp'|].
    assert (Hb : add_transition x (PrioritizedReplayBuffer.base p)
                 = Val tt (PrioritizedReplayBuffer.base p1)).
    { unfold add_prioritized, PrioritizedReplayBuffer.add in Hadd.
      apply bind_Val_inv in Hadd as ([] & s & Hsuper & Hrest).
      unfold PrioritizedReplayBuffer.super in Hsuper.
      unfold add_transition.
      destruct (ReplayBuffer.add _ _ _ _ _ (PrioritizedReplayBuffer.base p))
        as [[] b| |]; [|discriminate..].
      injection Hsuper as <-.
      unfold PrioritizedReplayBuffer.sum_tree_set,
        PrioritizedReplayBuffer.min_tree_set in Hrest.
      inv_run. reflexivity. }
    rewrite (bind_Val _ _ _ _ _ Hb). exact Hbase.
Qed.

(** ** Importance-sampling weights *)

Lemma total_nonneg (S : list R) (Mn : list xreal) :
  Forall2 leaf_ok S Mn -> (0 <= SumSegmentTree.total S)%R.
Proof.
  unfold SumSegmentTree.total, SegmentTree.reduce_all.
  induction 1 as [|s m S Mn Hleaf _ IH]; simpl; [lra|].
  destruct Hleaf as [[-> _]|[Hs _]]; lra.
Qed.

(** An infinite minimum means that no leaf has been set. *)
Lemma min_inf_neutral (S : list R) (Mn : list xreal) :
  Forall2 leaf_ok S Mn ->
  MinSegmentTree.min Mn = PInf ->
  forall i leaf, S !! i = Some leaf -> leaf = 0%R.
Proof.
  unfold MinSegmentTree.min, SegmentTree.reduce_all.
  induction 1 as [|s x S Mn Hleaf _ IH]; simpl; intros Hmin i leaf Hi.
  - rewrite lookup_nil in Hi. discriminate.
  - destruct Hleaf as [[-> ->]|[Hs ->]]; simpl in Hmin.
    + destruct i as [|i]; simpl in Hi.
      * injection Hi as <-. reflexivity.
      * exact (IH Hmin i leaf Hi).
    + destruct (fold_right xmin PInf Mn); discriminate.
Qed.

(** The minimum of the minimum tree is positive and bounds every positive
    leaf of the sum tree from below. *)
Lemma min_lower_bound (S : list R) (Mn : list xreal) (m : R) :
  Forall2 leaf_ok S Mn ->
  MinSegmentTree.min Mn = Finite m ->
  (0 < m)%R /\
  forall i leaf, S !! i = Some leaf -> (0 < leaf)%R -> (m <= leaf)%R.
Proof.
  intros H. revert m. induction H as [|s x S Mn Hleaf Hrest IH]; intros m.
  - discriminate.
  - unfold MinSegmentTree.min, SegmentTree.reduce_all. simpl.
    fold (SegmentTree.reduce_all xmin PInf Mn). fold (MinSegmentTree.min Mn).
    destruct Hleaf as [[-> ->]|[Hs ->]]; simpl.
    + intros Hm. destruct (IH m Hm) as [Hpos Hle]. split; [exact Hpos|].
      intros [|i] leaf Hi Hl; simpl in Hi.
      * injection Hi as <-. lra.
      * exact (Hle i leaf Hi Hl).
    + destruct (MinSegmentTree.min Mn) as [r|] eqn:Hmin; intros [= <-].
      * destruct (IH r eq_refl) as [Hpos Hle]. split.
        { apply Rmin_glb_lt; assumption. }
        intros [|i] leaf Hi Hl; simpl in Hi.
        -- injection Hi as <-. apply Rmin_l.
        -- etransitivity; [apply Rmin_r | exact (Hle i leaf Hi Hl)].
      * split; [exact Hs|].
        intros [|i] leaf Hi Hl; simpl in Hi.
        -- injection Hi as <-. lra.
        -- pose proof (min_inf_neutral _ _ Hrest Hmin i leaf Hi). lra.
Qed.

Lemma pydiv_inv (x y q : R) : pydiv x y = Some q -> y <> 0%R /\ q = (x / y)%R.
Proof.
  unfold pydiv. destruct (Req_dec_T y 0); [discriminate|].
  intros [= <-]. auto.
Qed.

Lemma pypow_neg_inv (x y w : R) :
  pypow x y = Some w -> (y < 0)%R -> (0 < x)%R /\ w = Rpower x y.
Proof.
  unfold pypow. destruct (Rlt_dec 0 x).
  - intros [= <-] _. auto.
  - destruct (Req_dec_T x 0); [|discriminate].
    destruct (Rlt_dec 0 y); [lra|].
    destruct (Req_dec_T y 0); [lra|discriminate].
Qed.

(** A negative power reverses the order of positive bases. *)
Lemma Rpower_neg_antitone (a b beta : R) :
  (0 < b <= a)%R -> (0 < beta)%R ->
  (Rpower a (- beta) <= Rpower b (- beta))%R.
Proof.
  intros Hab Hbeta. rewrite !Rpower_Ropp.
  apply Rinv_le_contravar; [apply Rpower_pos|].
  apply Rle_Rpower_l; [lra | exact Hab].
Qed.

(** What the weight loop computes for each sampled index. *)
Lemma weights_inv (self : PrioritizedReplayBuffer.t) beta max_weight :
  forall idxs ws (s s' : PrioritizedReplayBuffer.t),
    mapM (PrioritizedReplayBuffer.weight_of self beta max_weight) idxs s
    = Val ws s' ->
    s' = s /\
    Forall2
      (fun idx w =>
         exists leaf p_sample weight,
           SumSegmentTree.getitem (PrioritizedReplayBuffer.sum_tree self) idx
           = Some leaf /\
           pydiv leaf (SumSegmentTree.total (PrioritizedReplayBuffer.sum_tree self))
           = Some p_sample /\
           pypow (p_sample * IZR (PrioritizedReplayBuffer.len self)) (- beta)
           = Some weight /\
           pydiv weight max_weight = Some w)
      idxs ws.
Proof.
  induction idxs as [|idx idxs IH]; intros ws s s' H; simpl in H.
  - injection H as <- <-. split; [reflexivity | constructor].
  - unfold PrioritizedReplayBuffer.weight_of in H at 1. inv_run.
    injection H as <- <-.
    match goal with
    | E : mapM _ _ _ = Val _ _ |- _ => destruct (IH _ _ _ E) as [-> Hrest]
    end.
    split; [reflexivity|]. constructor; [|exact Hrest]. eauto 10.
Qed.

Lemma getitem_lookup {V} (tree : list V) (i : Z) (v : V) :
  SegmentTree.getitem tree i = Some v -> tree !! Z.to_nat i = Some v.
Proof.
  unfold SegmentTree.getitem. destruct (SegmentTree.in_range tree i);
    [auto|discriminate].
Qed.

Lemma pos_factor (q L : R) : (0 < q)%R -> (0 < q * L)%R -> (0 < L)%R.
Proof.
  intros Hq H. destruct (Rle_or_lt L 0) as [HL|HL]; [|exact HL].
  assert (q * L <= q * 0)%R by (apply Rmult_le_compat_l; lra). lra.
Qed.

(** The quotient of the code for one index, bounded. *)
Lemma weight_ratio_bounded (leaf m total L beta : R) :
  (0 < total)%R -> (0 < m <= leaf)%R -> (0 < L)%R -> (0 < beta)%R ->
  (0 < Rpower (leaf / total * L) (- beta) / Rpower (m / total * L) (- beta)
   <= 1)%R.
Proof.
  intros Ht Hm HL Hb.
  assert (Hinv : (0 < / total)%R) by (apply Rinv_0_lt_compat; exact Ht).
  assert (Hb0 : (0 < m / total * L)%R).
  { apply Rmult_lt_0_compat; [|exact HL]. apply Rdiv_lt_0_compat; lra. }
  assert (Hle : (m / total * L <= leaf / total * L)%R).
  { apply Rmult_le_compat_r; [lra|]. unfold Rdiv.
    apply Rmult_le_compat_r; lra. }
  pose proof (Rpower_pos (leaf / total * L) (- beta)) as Hx.
  pose proof (Rpower_pos (m / total * L) (- beta)) as Hy.
  pose proof (Rpower_neg_antitone _ _ beta (conj Hb0 Hle) Hb) as Hxy.
  split.
  - apply Rdiv_lt_0_compat; assumption.
  - apply (Rmult_le_reg_r (Rpower (m / total * L) (- beta))); [exact Hy|].
    unfold Rdiv. rewrite Rmult_assoc, Rinv_l by lra. lra.
Qed.

(** C5 -- importance-sampling weights.  For a buffer built by [__init__]
    with a positive capacity and driven through any calls of [add] and
    [update_priorities], whenever the prioritized [sample_multistep] returns
    on draws of [[0, 1)], the minimum tree has a finite minimum [m] and the
    weight returned for each sampled index is
    [(p_sample * len)^(-beta) / (p_min * len)^(-beta)] with
    [p_sample = sum_tree[idx] / sum_tree.sum()] and
    [p_min = m / sum_tree.sum()]; it is positive and at most 1. *)
Theorem weights_bounded
    (capacity : Z) (alpha : R) (junk : nat -> transition)
    (p0 : PrioritizedReplayBuffer.t) (cs : list call)
    (batch_size n : Z) (beta discount : R) (draws : list R)
    (r : prioritized_sample) (p' : PrioritizedReplayBuffer.t) :
  0 < capacity ->
  PrioritizedReplayBuffer.init capacity alpha junk = inr p0 ->
  Forall (fun u => (0 <= u < 1)%R) draws ->
  PrioritizedReplayBuffer.sample_multistep batch_size beta discount n draws
    (after_all p0 cs) = Val r p' ->
  exists m,
    MinSegmentTree.min (PrioritizedReplayBuffer.min_tree (after_all p0 cs))
    = Finite m /\
    Forall2
      (fun idx w =>
         exists leaf,
           SumSegmentTree.getitem
             (PrioritizedReplayBuffer.sum_tree (after_all p0 cs)) idx = Some leaf /\
           w = (Rpower
                  (leaf / SumSegmentTree.total
                            (PrioritizedReplayBuffer.sum_tree (after_all p0 cs))
                   * IZR (PrioritizedReplayBuffer.len (after_all p0 cs)))
                  (- beta)
                / Rpower
                    (m / SumSegmentTree.total
                           (PrioritizedReplayBuffer.sum_tree (after_all p0 cs))
                     * IZR (PrioritizedReplayBuffer.len (after_all p0 cs)))
                    (- beta))%R /\
           (0 < w <= 1)%R)
      (ps_idxs r) (ps_weights r).
Proof.
  intros Hc Hinit _ Hrun.
  pose proof (reachable_coherent _ _ _ _ cs Hc Hinit) as [Hwf Hleaves].
  set (p := after_all p0 cs) in *.
  unfold PrioritizedReplayBuffer.sample_multistep in Hrun. inv_run.
  injection Hrun as <- <-. simpl.
  match goal with
  | E : PrioritizedReplayBuffer.sample_idxs _ _ _ _ = Val _ _ |- _ =>
      apply (unchanged_Val _ _ _ _ (psample_idxs_unchanged _ _ _ _)) in E; subst
  end.
  destruct (MinSegmentTree.min (PrioritizedReplayBuffer.min_tree p))
    as [m|] eqn:Hmin; [|discriminate].
  exists m. split; [reflexivity|].
  match goal with
  | H : pydiv m _ = Some _ |- _ => apply pydiv_inv in H as [Htotal ->]
  end.
  assert (Hbeta : (0 < beta)%R) by (apply Rltb_true_inv; assumption).
  match goal with
  | H : pypow _ (- beta) = Some _ |- _ =>
      apply pypow_neg_inv in H as [Hbase ->]; [|lra]
  end.
  destruct (min_lower_bound _ _ _ Hleaves Hmin) as [Hm Hbound].
  pose proof (total_nonneg _ _ Hleaves) as Hnonneg.
  assert (Ht : (0 < SumSegmentTree.total (PrioritizedReplayBuffer.sum_tree p))%R)
    by lra.
  assert (HL : (0 < IZR (PrioritizedReplayBuffer.len p))%R).
  { apply (pos_factor (m / SumSegmentTree.total
                             (PrioritizedReplayBuffer.sum_tree p)));
      [apply Rdiv_lt_0_compat; assumption | exact Hbase]. }
  match goal with
  | E : mapM _ _ _ = Val _ _ |- _ => apply weights_inv in E as [_ Hws]
  end.
  eapply Forall2_impl; [exact Hws|].
  intros idx w (leaf & p_sample & weight & Hget & Hps & Hw & Hq). simpl in *.
  apply pydiv_inv in Hps as [_ ->].
  apply pypow_neg_inv in Hw as [Hleafbase ->]; [|lra].
  apply pydiv_inv in Hq as [_ ->].
  exists leaf. split; [exact Hget|]. split; [reflexivity|].
  assert (Hleaf : (0 < leaf)%R).
  { assert (Hq : (0 < leaf / SumSegmentTree.total
                              (PrioritizedReplayBuffer.sum_tree p))%R).
    { apply (pos_factor (IZR (PrioritizedReplayBuffer.len p))); [exact HL|].
      rewrite Rmult_comm. exact Hleafbase. }
    unfold Rdiv in Hq. rewrite Rmult_comm in Hq.
    apply (pos_factor (/ SumSegmentTree.total
                           (PrioritizedReplayBuffer.sum_tree p)));
      [apply Rinv_0_lt_compat; exact Ht | exact Hq]. }
  apply weight_ratio_bounded; try assumption.
  split; [exact Hm|]. apply (Hbound (Z.to_nat idx)); [|exact Hleaf].
  apply getitem_lookup. exact Hget.
Qed.

Lemma after_CallAdd (p p' : PrioritizedReplayBuffer.t) (x : transition) :
  add_prioritized x p = Val tt p' -> after p (CallAdd x) = p'.
Proof. unfold after; simpl. intros ->. reflexivity. Qed.

Lemma pfull2_reached : after_all pfresh2 [CallAdd x1; CallAdd x2] = pfull2.
Proof.
  unfold after_all. cbn [fold_left].
  erewrite (after_CallAdd pfresh2);
    [|unfold add_prioritized, pfresh2; run_padd; rewrite ?Rpower_1 by lra;
      reflexivity].
  erewrite after_CallAdd;
    [|unfold add_prioritized; run_padd; rewrite ?Rpower_1 by lra; reflexivity].
  reflexivity.
Qed.

Lemma pfull2_sample_idxs :
  PrioritizedReplayBuffer.sample_idxs 1 1 [(1 / 2)%R] pfull2 = Val [0] pfull2.
Proof.
  assert (Hidx : band_index pfull2 ((1 + 0) / IZR 1) 0 (1 / 2) = 0).
  { unfold band_index, band_mass, SumSegmentTree.find_prefixsum_idx. simpl.
    destruct (Rlt_dec _ _) as [_|Hn]; [reflexivity|]. exfalso. apply Hn. lra. }
  change [(1 / 2)%R] with (consumed [([], (1 / 2)%R)] ++ []).
  rewrite (psample_idxs_served pfull2 1 1 (1 + 0)%R [([], (1 / 2)%R)] []);
    [simpl; rewrite Hidx; reflexivity | lia | reflexivity | reflexivity |].
  simpl. split; [constructor|]. split; [|exact I].
  rewrite Hidx. unfold fits, PrioritizedReplayBuffer.len, ReplayBuffer.len.
  simpl. lia.
Qed.

(** The full buffer of capacity 2, one band, one-step windows: the call
    returns, with index 0. *)
Lemma pfull2_sample_multistep :
  exists r,
    PrioritizedReplayBuffer.sample_multistep 1 1 (1 / 2) 1 [(1 / 2)%R] pfull2
    = Val r pfull2 /\
    ps_idxs r = [0].
Proof.
  eexists.
  unfold PrioritizedReplayBuffer.sample_multistep. rewrite bind_get.
  rewrite bind_assert_true by reflexivity.
  rewrite bind_assert_true by (apply Rltb_true; lra).
  rewrite (bind_Val _ _ _ _ _ pfull2_sample_idxs).
  assert (Htotal : SumSegmentTree.total (PrioritizedReplayBuffer.sum_tree pfull2)
                   = 2%R).
  { unfold SumSegmentTree.total, SegmentTree.reduce_all. simpl. lra. }
  assert (Hmin : MinSegmentTree.min (PrioritizedReplayBuffer.min_tree pfull2)
                 = Finite 1).
  { unfold MinSegmentTree.min, SegmentTree.reduce_all. simpl.
    rewrite Rmin_left by lra. reflexivity. }
  rewrite Hmin, Htotal.
  erewrite bind_orRaise_Some; [|apply pydiv_Some; lra].
  erewrite bind_orRaise_Some;
    [|apply pypow_pos; unfold PrioritizedReplayBuffer.len, ReplayBuffer.len;
      simpl; lra].
  erewrite bind_Val.
  2:{ cbn [mapM]. unfold PrioritizedReplayBuffer.weight_of at 1.
      rewrite Htotal.
      erewrite bind_Val;
        [|erewrite bind_orRaise_Some; [|reflexivity];
          erewrite bind_orRaise_Some; [|apply pydiv_Some; lra];
          erewrite bind_orRaise_Some;
            [|apply pypow_pos;
              unfold PrioritizedReplayBuffer.len, ReplayBuffer.len;
              simpl; lra];
          erewrite pydiv_Some;
            [reflexivity | apply Rgt_not_eq, Rpower_pos]].
      reflexivity. }
  erewrite bind_Val.
  2:{ unfold PrioritizedReplayBuffer.super.
      rewrite (fetch_Val (PrioritizedReplayBuffer.base pfull2) [0] (1 / 2) 1 0);
        [reflexivity | split; simpl; lia | reflexivity
        | unfold ReplayBuffer.len; simpl; lia | repeat constructor; lia | lia]. }
  split; reflexivity.
Qed.

(** The full buffer of capacity 2, one band, one-step windows. *)
Lemma weights_bounded_witness :
  0 < 2 /\
  PrioritizedReplayBuffer.init 2 1 (fun _ => blank) = inr pfresh2 /\
  Forall (fun u => (0 <= u < 1)%R) [(1 / 2)%R] /\
  exists r p',
    PrioritizedReplayBuffer.sample_multistep 1 1 (1 / 2) 1 [(1 / 2)%R]
      (after_all pfresh2 [CallAdd x1; CallAdd x2]) = Val r p' /\
    ps_idxs r = [0] /\
    Forall (fun w => (0 < w <= 1)%R) (ps_weights r).
Proof.
  assert (Hc : 0 < 2) by lia.
  assert (Hu : Forall (fun u => (0 <= u < 1)%R) [(1 / 2)%R])
    by (repeat constructor; lra).
  split; [exact Hc|]. split; [exact pfresh2_init|]. split; [exact Hu|].
  destruct pfull2_sample_multistep as (r & Hrun & Hidxs).
  rewrite <- pfull2_reached in Hrun at 1.
  exists r, pfull2. split; [exact Hrun|]. split; [exact Hidxs|].
  destruct (weights_bounded 2 1 (fun _ => blank) pfresh2 [CallAdd x1; CallAdd x2]
              1 1 1 (1 / 2) [(1 / 2)%R] r pfull2 Hc pfresh2_init Hu Hrun)
    as (m & _ & Hws).
  clear -Hws. induction Hws as [|idx w idxs ws (leaf & _ & _ & Hw) _ IH];
    constructor; assumption.
Defined.

(** ** max_priority bounds the priorities that were applied *)




(** ** A buffer of capacity 0 *)








(** ** Further properties: construction and the ring *)

(** The doubling loop keeps [tree_capacity] a power of two whose half is
    still below [capacity]. *)
Lemma tree_capacity_loop_pow2 (fuel : nat) :
  forall (tree_capacity capacity : Z) (k : nat),
    tree_capacity = 2 ^ Z.of_nat k ->
    (k = 0%nat \/ 2 ^ (Z.of_nat k - 1) < capacity) ->
    exists k' : nat,
      PrioritizedReplayBuffer.tree_capacity_loop fuel tree_capacity capacity
      = 2 ^ Z.of_nat k' /\
      (k' = 0%nat \/ 2 ^ (Z.of_nat k' - 1) < capacity).
Proof.
  induction fuel as [|fuel IH]; intros tc capacity k Htc Hhalf; simpl.
  - exists k. auto.
  - destruct (Z.ltb_spec tc capacity) as [Hlt|Hge].
    + apply (IH _ _ (S k)).
      * rewrite Nat2Z.inj_succ, Z.pow_succ_r by lia. lia.
      * right. replace (Z.of_nat (S k) - 1) with (Z.of_nat k) by lia. lia.
    + exists k. auto.
Qed.

(** X1 -- the trees of a new prioritized buffer.  [__init__] gives both
    trees [2^k] leaves, all neutral (0 in the sum tree, [+inf] in the minimum
    tree), where [2^k] is the least power of two that is at least
    [capacity]. *)
Theorem init_trees_least_power_of_two
    (capacity : Z) (alpha : R) (junk : nat -> transition)
    (p : PrioritizedReplayBuffer.t) :
  PrioritizedReplayBuffer.init capacity alpha junk = inr p ->
  exists k : nat,
    PrioritizedReplayBuffer.sum_tree p
    = replicate (Z.to_nat (2 ^ Z.of_nat k)) 0%R /\
    PrioritizedReplayBuffer.min_tree p
    = replicate (Z.to_nat (2 ^ Z.of_nat k)) PInf /\
    capacity <= 2 ^ Z.of_nat k /\
    forall j : nat, capacity <= 2 ^ Z.of_nat j -> 2 ^ Z.of_nat k <= 2 ^ Z.of_nat j.
Proof.
  unfold PrioritizedReplayBuffer.init, ReplayBuffer.init.
  destruct (Z.ltb_spec capacity 0) as [|Hc]; [discriminate|].
  destruct (Rlt_dec alpha 0); [discriminate|]. intros [= <-]. simpl.
  destruct (tree_capacity_loop_pow2 (Z.to_nat capacity) 1 capacity 0%nat
              eq_refl (or_introl eq_refl)) as (k & Hk & Hhalf).
  pose proof (tree_capacity_loop_ge (Z.to_nat capacity) 1 capacity) as Hge.
  exists k. rewrite <- Hk.
  split; [reflexivity|]. split; [reflexivity|]. split; [apply Hge; lia|].
  intros j Hj. rewrite Hk.
  apply Z.pow_le_mono_r; [lia|].
  destruct Hhalf as [->|Hhalf]; [lia|].
  destruct (Z.le_gt_cases (Z.of_nat k) (Z.of_nat j)) as [|Hgt]; [assumption|].
  exfalso.
  assert (2 ^ Z.of_nat j <= 2 ^ (Z.of_nat k - 1))
    by (apply Z.pow_le_mono_r; lia).
  lia.
Qed.

(** Capacity 3: four leaves. *)
Lemma init_trees_least_power_of_two_witness :
  exists p,
    PrioritizedReplayBuffer.init 3 1 (fun _ => blank) = inr p /\
    PrioritizedReplayBuffer.sum_tree p = [0%R; 0%R; 0%R; 0%R] /\
    exists k : nat,
      PrioritizedReplayBuffer.sum_tree p
      = replicate (Z.to_nat (2 ^ Z.of_nat k)) 0%R /\
      3 <= 2 ^ Z.of_nat k.
Proof.
  assert (Hinit : exists p,
             PrioritizedReplayBuffer.init 3 1 (fun _ => blank) = inr p /\
             PrioritizedReplayBuffer.sum_tree p = [0%R; 0%R; 0%R; 0%R]).
  { unfold PrioritizedReplayBuffer.init. simpl.
    destruct (Rlt_dec 1 0); [lra|]. eexists. split; reflexivity. }
  destruct Hinit as (p & Hinit & Htree).
  exists p. split; [exact Hinit|]. split; [exact Htree|].
  destruct (init_trees_least_power_of_two 3 1 (fun _ => blank) p Hinit)
    as (k & Hs & _ & Hge & _).
  exists k. split; [exact Hs | exact Hge].
Defined.

(** One call of [add] on a well-formed buffer. *)
Lemma add_len_step (b : ReplayBuffer.t) (x : transition) :
  wf b ->
  exists b',
    add_transition x b = Val tt b' /\
    wf b' /\
    ReplayBuffer.capacity b' = ReplayBuffer.capacity b /\
    ReplayBuffer.len b' = Z.min (ReplayBuffer.len b + 1) (ReplayBuffer.capacity b).
Proof.
  intros Hwf. pose proof Hwf as [Hc Hi _ _ _ _ _].
  destruct (add_transition x b) as [[] b'| |] eqn:Hadd.
  2,3: unfold add_transition in Hadd; rewrite add_Val in Hadd by exact Hwf;
       discriminate.
  exists b'. split; [reflexivity|].
  split; [eapply add_wf; [exact Hwf | exact Hadd]|].
  destruct (add_cursor _ _ _ Hwf Hadd) as (Hcap & Hidx & Hfull).
  split; [exact Hcap|].
  unfold ReplayBuffer.len. rewrite Hfull, Hcap.
  destruct (ReplayBuffer.full b); simpl; [lia|].
  rewrite Hidx.
  destruct (Z.eq_dec (ReplayBuffer.idx b + 1) (ReplayBuffer.capacity b)) as [E|E].
  - rewrite E, Z.mod_same by lia. simpl. lia.
  - rewrite Z.mod_small by lia.
    destruct (Z.eqb_spec (ReplayBuffer.idx b + 1) 0); [lia|]. lia.
Qed.

(** X2 -- [len] counts up to the capacity.  On a well-formed buffer [add]
    returns, keeps the buffer well-formed and makes [len] the smaller of
    [len + 1] and [capacity]: the length never shrinks and never passes the
    capacity. *)
Theorem len_after_add (b : ReplayBuffer.t) (x : transition) :
  wf b ->
  exists b',
    add_transition x b = Val tt b' /\
    wf b' /\
    ReplayBuffer.capacity b' = ReplayBuffer.capacity b /\
    ReplayBuffer.len b' = Z.min (ReplayBuffer.len b + 1) (ReplayBuffer.capacity b).
Proof. apply add_len_step. Qed.


Lemma len_after_add_witness :
  wf fresh3 /\
  exists b',
    add_transition x1 fresh3 = Val tt b' /\ ReplayBuffer.len b' = 1.
Proof.
  split; [exact fresh3_wf|].
  destruct (len_after_add fresh3 x1 fresh3_wf) as (b' & Hadd & _ & _ & Hlen).
  exists b'. split; [exact Hadd|]. rewrite Hlen. reflexivity.
Defined.

(** X3 -- what [add] leaves alone.  On a well-formed prioritized buffer
    [add] returns and changes one slot of the arrays and one leaf of each
    tree: every slot but the one under the cursor, every leaf but the one
    under the advanced cursor, the size of the trees, [alpha] and
    [max_priority] are as before. *)
Theorem add_changes_one_slot_one_leaf
    (p : PrioritizedReplayBuffer.t) (x : transition) :
  pwf p ->
  exists p',
    add_prioritized x p = Val tt p' /\
    PrioritizedReplayBuffer.alpha p' = PrioritizedReplayBuffer.alpha p /\
    PrioritizedReplayBuffer.max_priority p'
    = PrioritizedReplayBuffer.max_priority p /\
    length (PrioritizedReplayBuffer.sum_tree p')
    = length (PrioritizedReplayBuffer.sum_tree p) /\
    length (PrioritizedReplayBuffer.min_tree p')
    = length (PrioritizedReplayBuffer.min_tree p) /\
    (forall j : nat,
        j <> Z.to_nat (ReplayBuffer.idx (PrioritizedReplayBuffer.base p)) ->
        slot (PrioritizedReplayBuffer.base p') j
        = slot (PrioritizedReplayBuffer.base p) j) /\
    (forall j : nat,
        j <> Z.to_nat (ReplayBuffer.idx (PrioritizedReplayBuffer.base p')) ->
        PrioritizedReplayBuffer.sum_tree p' !! j
        = PrioritizedReplayBuffer.sum_tree p !! j /\
        PrioritizedReplayBuffer.min_tree p' !! j
        = PrioritizedReplayBuffer.min_tree p !! j).
Proof.
  intros Hwf. pose proof Hwf as [Hb _ _ _].
  destruct (add_transition x (PrioritizedReplayBuffer.base p)) as [[] b'| |]
    eqn:Hadd.
  2,3: unfold add_transition in Hadd; rewrite add_Val in Hadd by exact Hb;
       discriminate.
  eexists. split; [unfold add_prioritized; apply padd_Val; eassumption|].
  simpl. rewrite !length_insert.
  split; [reflexivity|]. split; [reflexivity|]. split; [reflexivity|].
  split; [reflexivity|]. split.
  - intros j Hj. exact (slot_add_other _ _ _ _ Hb Hadd Hj).
  - intros j Hj. rewrite !list_lookup_insert_ne by congruence. auto.
Qed.

Lemma add_changes_one_slot_one_leaf_witness :
  pwf pfull2 /\
  exists p',
    add_prioritized x3 pfull2 = Val tt p' /\
    slot (PrioritizedReplayBuffer.base p') 1 = Some (stored x2) /\
    PrioritizedReplayBuffer.sum_tree p' !! 0%nat = Some 1%R.
Proof.
  split; [exact pfull2_pwf|].
  destruct (add_changes_one_slot_one_leaf pfull2 x3 pfull2_pwf)
    as (p' & Hadd & _ & _ & _ & _ & Hslots & Hleaves).
  assert (Hidx : ReplayBuffer.idx (PrioritizedReplayBuffer.base p') = 1).
  { unfold add_prioritized, PrioritizedReplayBuffer.add in Hadd.
    apply bind_Val_inv in Hadd as ([] & s & Hsuper & Hrest).
    unfold PrioritizedReplayBuffer.super in Hsuper.
    rewrite add_Val in Hsuper by (split; simpl; lia).
    injection Hsuper as <-.
    unfold PrioritizedReplayBuffer.sum_tree_set,
      PrioritizedReplayBuffer.min_tree_set in Hrest.
    inv_run. reflexivity. }
  exists p'. split; [exact Hadd|]. split.
  - rewrite (Hslots 1%nat) by (simpl; lia). reflexivity.
  - destruct (Hleaves 0%nat) as [Hs _]; [rewrite Hidx; lia|].
    rewrite Hs. reflexivity.
Defined.

(** ** Further properties: fetch *)

Lemma at_agree {A} (d : A) (a1 a2 : list A) (i : Z) :
  a1 !! Z.to_nat i = a2 !! Z.to_nat i -> at_ d a1 i = at_ d a2 i.
Proof. unfold at_. intros ->. reflexivity. Qed.

(** The return and the running flag of a window read the rewards and the
    flags of the window only. *)
Lemma nstep_agree (r1 r2 nd1 nd2 : list R) (discount : R) (i : Z) (n : nat) :
  (forall k : nat, (k < n)%nat ->
                   at_ 0%R r1 (i + Z.of_nat k) = at_ 0%R r2 (i + Z.of_nat k) /\
                   at_ 0%R nd1 (i + Z.of_nat k) = at_ 0%R nd2 (i + Z.of_nat k)) ->
  notDone_running nd1 i n = notDone_running nd2 i n /\
  nstep_return r1 nd1 discount i n = nstep_return r2 nd2 discount i n.
Proof.
  induction n as [|n IH]; intros H; simpl; [auto|].
  destruct IH as [IHrun IHret]; [intros k Hk; apply H; lia|].
  destruct (H n) as [Hr Hnd]; [lia|].
  rewrite IHrun, IHret, Hr, Hnd. auto.
Qed.

Lemma same_written_len (b1 b2 : ReplayBuffer.t) :
  same_written b1 b2 -> ReplayBuffer.len b2 = ReplayBuffer.len b1.
Proof.
  intros [Hc Hi Hf _ _ _ _ _]. unfold ReplayBuffer.len.
  rewrite Hc, Hi, Hf. reflexivity.
Qed.

(** [fetch] reads written slots only. *)
Lemma fetch_same_written (b1 b2 : ReplayBuffer.t) (idxs : list Z) (discount : R)
    (n m : Z) :
  wf b1 -> wf b2 -> same_written b1 b2 ->
  np_max idxs = Some m ->
  m + n <= ReplayBuffer.len b1 ->
  Forall (fun i => 0 <= i) idxs ->
  1 <= n ->
  exists r,
    ReplayBuffer.fetch idxs discount n b1 = Val r b1 /\
    ReplayBuffer.fetch idxs discount n b2 = Val r b2.
Proof.
  intros Hwf1 Hwf2 Hsame Hmax Hlen Hpos Hn.
  pose proof (same_written_len _ _ Hsame) as Hlen2.
  eexists. split; [apply (fetch_Val b1 idxs discount n m); assumption|].
  rewrite (fetch_Val b2 idxs discount n m) by (try assumption; lia).
  assert (Hall : Forall (fun i => 0 <= i /\ i + n <= ReplayBuffer.len b1) idxs).
  { apply np_max_upper in Hmax. rewrite Forall_forall in *.
    intros i Hi. specialize (Hmax i Hi). specialize (Hpos i Hi). lia. }
  destruct Hsame as [_ _ _ Ho Hno Ha Hr Hnd].
  f_equal. f_equal; apply Forall_fmap_ext; (eapply Forall_impl; [exact Hall|]);
    intros i [Hi0 Hi1]; simpl.
  - apply at_agree. symmetry. apply Ho. lia.
  - apply at_agree. symmetry. apply Ha. lia.
  - symmetry. apply nstep_agree. intros k Hk. split; apply at_agree.
    + apply Hr. lia.
    + apply Hnd. lia.
  - apply at_agree. symmetry. apply Hno. lia.
  - symmetry. apply (nstep_agree (ReplayBuffer.rewards b1) (ReplayBuffer.rewards b2)
                       _ _ discount).
    intros k Hk. split; apply at_agree.
    + apply Hr. lia.
    + apply Hnd. lia.
Qed.

Lemma same_written_init capacity junk1 junk2 (b1 b2 : ReplayBuffer.t) :
  ReplayBuffer.init capacity junk1 = inr b1 ->
  ReplayBuffer.init capacity junk2 = inr b2 ->
  same_written b1 b2.
Proof.
  unfold ReplayBuffer.init. destruct (capacity <? 0); [discriminate|].
  intros [= <-] [= <-]. split; try reflexivity;
    intros j Hj; unfold ReplayBuffer.len in Hj; simpl in Hj; lia.
Qed.

Lemma same_written_add (b1 b2 b1' b2' : ReplayBuffer.t) (x : transition) :
  wf b1 -> wf b2 -> same_written b1 b2 ->
  add_transition x b1 = Val tt b1' ->
  add_transition x b2 = Val tt b2' ->
  same_written b1' b2'.
Proof.
  intros Hwf1 Hwf2 Hsame H1 H2.
  destruct (add_len_step b1 x Hwf1) as (b & Hb & _ & _ & Hlen').
  rewrite H1 in Hb. injection Hb as <-.
  pose proof Hwf1 as [Hc1 Hi1 Ho1 Hno1 Ha1 Hr1 Hnd1].
  pose proof Hwf2 as [Hc2 Hi2 Ho2 Hno2 Ha2 Hr2 Hnd2].
  destruct Hsame as [Hc Hi Hf Ho Hno Ha Hr Hnd].
  assert (Hlt : forall j : nat,
             Z.of_nat j < ReplayBuffer.len b1' ->
             j <> Z.to_nat (ReplayBuffer.idx b1) ->
             Z.of_nat j < ReplayBuffer.len b1).
  { intros j Hj Hne. rewrite Hlen' in Hj. unfold ReplayBuffer.len in *.
    destruct (ReplayBuffer.full b1); lia. }
  unfold add_transition in H1, H2.
  rewrite add_Val in H1 by exact Hwf1. rewrite add_Val in H2 by exact Hwf2.
  injection H1 as H1. injection H2 as H2.
  assert (Hcol : forall (A : Type) (l1 l2 : list A) (v : A) (j : nat),
             Z.of_nat (length l1) = ReplayBuffer.capacity b1 ->
             Z.of_nat (length l2) = ReplayBuffer.capacity b1 ->
             (j <> Z.to_nat (ReplayBuffer.idx b1) -> l1 !! j = l2 !! j) ->
             <[Z.to_nat (ReplayBuffer.idx b1) := v]> l1 !! j
             = <[Z.to_nat (ReplayBuffer.idx b1) := v]> l2 !! j).
  { intros A l1 l2 v j Hl1 Hl2 Hother.
    destruct (decide (j = Z.to_nat (ReplayBuffer.idx b1))) as [->|Hne].
    - rewrite !list_lookup_insert_eq by lia. reflexivity.
    - rewrite !list_lookup_insert_ne by congruence. auto. }
  rewrite <- Hi, <- Hc, <- Hf in H2.
  split; intros; subst b1' b2'; simpl in *; try reflexivity;
    apply Hcol; try lia; intros Hne; auto.
Qed.

Lemma same_written_adds (ts : list transition) :
  forall b1 b2 b1' b2' : ReplayBuffer.t,
    wf b1 -> wf b2 -> same_written b1 b2 ->
    forM_ ts add_transition b1 = Val tt b1' ->
    forM_ ts add_transition b2 = Val tt b2' ->
    wf b1' /\ wf b2' /\ same_written b1' b2'.
Proof.
  induction ts as [|x ts IH]; intros b1 b2 b1' b2' Hwf1 Hwf2 Hsame H1 H2.
  - injection H1 as <-. injection H2 as <-. auto.
  - cbn [forM_] in H1, H2.
    apply bind_Val_inv in H1 as ([] & c1 & Ha1 & H1).
    apply bind_Val_inv in H2 as ([] & c2 & Ha2 & H2).
    apply (IH c1 c2); try assumption.
    + eapply add_wf; [exact Hwf1 | exact Ha1].
    + eapply add_wf; [exact Hwf2 | exact Ha2].
    + exact (same_written_add _ _ _ _ x Hwf1 Hwf2 Hsame Ha1 Ha2).
Qed.

(** X4 -- [fetch] never returns what [np.empty] left in the arrays.  Two
    buffers of the same capacity whose memory held different things at
    construction, after the same calls of [add], give the same batch for
    every index array that passes the assertion of [fetch] (non-negative
    indices, [n >= 1]). *)
Theorem fetch_ignores_initial_memory
    (capacity : Z) (junk1 junk2 : nat -> transition)
    (b1 b2 b1' b2' : ReplayBuffer.t) (ts : list transition)
    (idxs : list Z) (discount : R) (n m : Z) :
  0 < capacity ->
  ReplayBuffer.init capacity junk1 = inr b1 ->
  ReplayBuffer.init capacity junk2 = inr b2 ->
  forM_ ts add_transition b1 = Val tt b1' ->
  forM_ ts add_transition b2 = Val tt b2' ->
  np_max idxs = Some m ->
  m + n <= ReplayBuffer.len b1' ->
  Forall (fun i => 0 <= i) idxs ->
  1 <= n ->
  exists r,
    ReplayBuffer.fetch idxs discount n b1' = Val r b1' /\
    ReplayBuffer.fetch idxs discount n b2' = Val r b2'.
Proof.
  intros Hc Hi1 Hi2 H1 H2 Hmax Hlen Hpos Hn.
  destruct (init_wf _ _ _ Hc Hi1) as [Hwf1 _].
  destruct (init_wf _ _ _ Hc Hi2) as [Hwf2 _].
  destruct (same_written_adds ts _ _ _ _ Hwf1 Hwf2
              (same_written_init _ _ _ _ _ Hi1 Hi2) H1 H2)
    as (Hwf1' & Hwf2' & Hsame).
  exact (fetch_same_written _ _ idxs discount n m Hwf1' Hwf2' Hsame Hmax Hlen
           Hpos Hn).
Qed.

(** Calls of [add] on a well-formed buffer all return, and [len] counts them
    up to the capacity. *)
Lemma adds_return (ts : list transition) :
  forall b : ReplayBuffer.t,
    wf b ->
    exists b',
      forM_ ts add_transition b = Val tt b' /\ wf b' /\
      ReplayBuffer.capacity b' = ReplayBuffer.capacity b /\
      ReplayBuffer.len b'
      = Z.min (ReplayBuffer.len b + Z.of_nat (length ts)) (ReplayBuffer.capacity b).
Proof.
  induction ts as [|x ts IH]; intros b Hwf.
  - exists b. split; [reflexivity|]. split; [exact Hwf|]. split; [reflexivity|].
    simpl. unfold ReplayBuffer.len. pose proof (wf_idx _ Hwf).
    destruct (ReplayBuffer.full b); lia.
  - destruct (add_len_step b x Hwf) as (b1 & Hadd & Hwf1 & Hcap1 & Hlen1).
    destruct (IH b1 Hwf1) as (b' & Hrun & Hwf' & Hcap' & Hlen').
    exists b'. cbn [forM_]. rewrite (bind_Val _ _ _ _ _ Hadd).
    split; [exact Hrun|]. split; [exact Hwf'|]. split; [congruence|].
    rewrite Hlen', Hlen1, Hcap1. cbn [length]. lia.
Qed.

(** Capacity 3, memory full of zeros or full of nines, two transitions
    added, a window of two steps from index 0. *)
Lemma fetch_ignores_initial_memory_witness :
  exists b2 b1' b2' r,
    0 < 3 /\
    ReplayBuffer.init 3 (fun _ => blank) = inr fresh3 /\
    ReplayBuffer.init 3 (fun _ => Transition [9%R] [9%R] 9 [9%R] false) = inr b2 /\
    forM_ [x1; x2] add_transition fresh3 = Val tt b1' /\
    forM_ [x1; x2] add_transition b2 = Val tt b2' /\
    np_max [0] = Some 0 /\
    0 + 2 <= ReplayBuffer.len b1' /\
    Forall (fun i => 0 <= i) [0] /\
    1 <= 2 /\
    ReplayBuffer.fetch [0] (1 / 2) 2 b1' = Val r b1' /\
    ReplayBuffer.fetch [0] (1 / 2) 2 b2' = Val r b2'.
Proof.
  assert (Hc : 0 < 3) by lia.
  assert (Hi2 : exists b2,
             ReplayBuffer.init 3 (fun _ => Transition [9%R] [9%R] 9 [9%R] false)
             = inr b2) by (eexists; reflexivity).
  destruct Hi2 as (b2 & Hi2).
  destruct (init_wf _ _ _ Hc Hi2) as [Hwf2 _].
  destruct (adds_return [x1; x2] fresh3 fresh3_wf) as (b1' & H1 & _ & _ & Hlen).
  destruct (adds_return [x1; x2] b2 Hwf2) as (b2' & H2 & _).
  assert (Hlen' : 0 + 2 <= ReplayBuffer.len b1')
    by (rewrite Hlen; unfold ReplayBuffer.len, fresh3; cbn; lia).
  assert (Hpos : Forall (fun i => 0 <= i) [0]) by (repeat constructor; lia).
  assert (Hn : 1 <= 2) by lia.
  destruct (fetch_ignores_initial_memory 3 _ _ fresh3 b2 b1' b2' [x1; x2] [0]
              (1 / 2) 2 0 Hc fresh3_init Hi2 H1 H2 eq_refl Hlen' Hpos Hn)
    as (r & Hr1 & Hr2).
  exists b2, b1', b2', r. repeat (split; [assumption || reflexivity|]).
  exact Hr2.
Defined.

(** X5 -- the window guard of [fetch].  The guard adds [n] to the maximum
    of an [int64] array; for indices and [n] in that range whose sums
    [i + n] stay in it, so that the addition does not wrap, one index whose
    window of [n] steps would pass [len], anywhere in the array, makes
    [fetch] raise an AssertionError, the buffer being left as it was. *)
Theorem fetch_guards_window (b : ReplayBuffer.t) (idxs : list Z) (discount : R)
    (n : Z) :
  Forall int64 idxs ->
  int64 n ->
  Forall (fun i => int64 (i + n)) idxs ->
  Exists (fun i => ReplayBuffer.len b < i + n) idxs ->
  ReplayBuffer.fetch idxs discount n b = Exn AssertionError b.
Proof.
  intros _ _ _ Hex. unfold ReplayBuffer.fetch. rewrite bind_get.
  destruct (np_max idxs) as [m|] eqn:Hmax.
  - rewrite (bind_orRaise_Some _ _ _ _ _ eq_refl).
    apply bind_assert_false. apply Z.leb_gt.
    apply np_max_upper in Hmax. rewrite Forall_forall in Hmax.
    apply Exists_exists in Hex as (i & Hi & Hlt).
    specialize (Hmax i Hi). lia.
  - destruct idxs; [inversion Hex | discriminate].
Qed.

Lemma fetch_guards_window_witness :
  Forall int64 [0; 3; 1] /\
  int64 2 /\
  Forall (fun i => int64 (i + 2)) [0; 3; 1] /\
  Exists (fun i => ReplayBuffer.len scenario_buffer < i + 2) [0; 3; 1] /\
  ReplayBuffer.fetch [0; 3; 1] (1 / 2) 2 scenario_buffer
  = Exn AssertionError scenario_buffer.
Proof.
  assert (H1 : Forall int64 [0; 3; 1]) by (repeat constructor; unfold int64; lia).
  assert (H2 : int64 2) by (unfold int64; lia).
  assert (H3 : Forall (fun i => int64 (i + 2)) [0; 3; 1])
    by (repeat constructor; unfold int64; lia).
  assert (H : Exists (fun i => ReplayBuffer.len scenario_buffer < i + 2) [0; 3; 1]).
  { apply Exists_cons_tl, Exists_cons_hd.
    unfold ReplayBuffer.len, scenario_buffer. cbn. lia. }
  split; [exact H1|]. split; [exact H2|]. split; [exact H3|]. split; [exact H|].
  exact (fetch_guards_window scenario_buffer [0; 3; 1] (1 / 2) 2 H1 H2 H3 H).
Defined.

Lemma np_max_bound (idxs : list Z) (B : Z) :
  idxs <> [] -> Forall (fun i => i <= B) idxs ->
  exists m, np_max idxs = Some m /\ m <= B.
Proof.
  destruct idxs as [|i0 idxs]; [contradiction|]. intros _ Hall.
  apply Forall_cons in Hall as [H0 Hall]. simpl. eexists. split; [reflexivity|].
  revert i0 H0. induction Hall as [|x l Hx _ IH]; intros i0 H0; simpl; [exact H0|].
  apply IH. lia.
Qed.

(** The uniform [sample_idxs] on a non-empty range. *)
Lemma sample_idxs_Val (b : ReplayBuffer.t) (batch_size n : Z) (draws : list Z) :
  n <= ReplayBuffer.len b ->
  1 <= batch_size ->
  batch_size <= Z.of_nat (length draws) ->
  ReplayBuffer.sample_idxs batch_size n draws b
  = Val ((fun d => 0 + d mod (ReplayBuffer.len b - (n - 1)))
           <$> take (Z.to_nat batch_size) draws) b.
Proof.
  intros Hn Hb Hd. unfold ReplayBuffer.sample_idxs. rewrite bind_get.
  fold (ReplayBuffer.len b). unfold randint.
  destruct (Z.eqb_spec batch_size 0); [lia|].
  destruct (Z.leb_spec (ReplayBuffer.len b - (n - 1)) 0); [lia|].
  destruct (Z.ltb_spec batch_size 0); [lia|]. simpl.
  destruct (Z.ltb_spec (Z.of_nat (length draws)) batch_size); [lia|].
  replace (ReplayBuffer.len b - (n - 1) - 0) with (ReplayBuffer.len b - (n - 1))
    by lia.
  reflexivity.
Qed.

(** X6 -- the uniform [sample_multistep] returns.  On a well-formed buffer,
    for a window [1 <= n <= len], a batch size of at least 1 and a generator
    that hands out enough numbers, the call returns: the sampled indices are
    [batch_size] numbers with [0 <= idx] and [idx + n <= len], so the
    assertion of [fetch] never fails on them, and the batch has one row per
    index. *)
Theorem sample_multistep_returns
    (b : ReplayBuffer.t) (batch_size n : Z) (discount : R) (draws : list Z) :
  wf b ->
  1 <= n <= ReplayBuffer.len b ->
  1 <= batch_size ->
  batch_size <= Z.of_nat (length draws) ->
  exists idxs r,
    ReplayBuffer.sample_idxs batch_size n draws b = Val idxs b /\
    Z.of_nat (length idxs) = batch_size /\
    Forall (fun i => 0 <= i /\ i + n <= ReplayBuffer.len b) idxs /\
    ReplayBuffer.sample_multistep batch_size discount n draws b = Val r b /\
    length (b_obses r) = length idxs /\
    length (b_actions r) = length idxs /\
    length (b_rewards r) = length idxs /\
    length (b_next_obses r) = length idxs /\
    length (b_not_dones r) = length idxs.
Proof.
  intros Hwf [Hn1 Hn] Hb Hd.
  pose proof (sample_idxs_Val b batch_size n draws Hn Hb Hd) as Hidxs.
  set (idxs := (fun d => 0 + d mod (ReplayBuffer.len b - (n - 1)))
                 <$> take (Z.to_nat batch_size) draws) in *.
  assert (Hlen : Z.of_nat (length idxs) = batch_size).
  { unfold idxs. rewrite length_fmap, length_take. lia. }
  assert (Hall : Forall (fun i => 0 <= i /\ i + n <= ReplayBuffer.len b) idxs).
  { unfold idxs. apply Forall_fmap, Forall_forall. intros d _. simpl.
    pose proof (Z.mod_pos_bound d (ReplayBuffer.len b - (n - 1))). lia. }
  destruct (np_max_bound idxs (ReplayBuffer.len b - n)) as (m & Hmax & Hm).
  { intros E. rewrite E in Hlen. simpl in Hlen. lia. }
  { eapply Forall_impl; [exact Hall|]. simpl. intros i ?. lia. }
  eexists idxs, _. split; [exact Hidxs|]. split; [exact Hlen|].
  split; [exact Hall|]. split.
  - unfold ReplayBuffer.sample_multistep. rewrite bind_get.
    rewrite bind_assert_true.
    2:{ unfold ReplayBuffer.len in Hn. destruct (ReplayBuffer.full b);
          [apply orb_true_r|]. rewrite orb_false_r. apply Z.leb_le. lia. }
    rewrite (bind_Val _ _ _ _ _ Hidxs).
    apply (fetch_Val b idxs discount n m); try assumption; try lia.
    eapply Forall_impl; [exact Hall|]. simpl. intros i ?. lia.
  - simpl. rewrite !length_fmap. auto.
Qed.

Lemma sample_multistep_returns_witness :
  wf scenario_buffer /\
  1 <= 2 <= ReplayBuffer.len scenario_buffer /\
  1 <= 3 /\
  3 <= Z.of_nat (length [7; 2; 12; 5]) /\
  exists r,
    ReplayBuffer.sample_idxs 3 2 [7; 2; 12; 5] scenario_buffer
    = Val [1; 2; 0] scenario_buffer /\
    ReplayBuffer.sample_multistep 3 (1 / 2) 2 [7; 2; 12; 5] scenario_buffer
    = Val r scenario_buffer /\
    length (b_rewards r) = 3%nat.
Proof.
  assert (Hn : 1 <= 2 <= ReplayBuffer.len scenario_buffer)
    by (unfold ReplayBuffer.len, scenario_buffer; cbn; lia).
  assert (Hb : 1 <= 3) by lia.
  assert (Hd : 3 <= Z.of_nat (length [7; 2; 12; 5])) by (cbn; lia).
  split; [exact scenario_buffer_wf|]. split; [exact Hn|]. split; [exact Hb|].
  split; [exact Hd|].
  destruct (sample_multistep_returns scenario_buffer 3 2 (1 / 2) [7; 2; 12; 5]
              scenario_buffer_wf Hn Hb Hd)
    as (idxs & r & Hidxs & _ & _ & Hrun & _ & _ & Hr & _).
  assert (E : idxs = [1; 2; 0]).
  { assert (H : ReplayBuffer.sample_idxs 3 2 [7; 2; 12; 5] scenario_buffer
                = Val [1; 2; 0] scenario_buffer) by reflexivity.
    congruence. }
  subst idxs. exists r. split; [exact Hidxs|]. split; [exact Hrun|]. exact Hr.
Defined.

(** ** Further properties: sampling and priorities *)

(** X7 -- an empty batch cannot be sampled uniformly.  With
    [batch_size = 0] the uniform [sample_multistep] raises on every buffer,
    for every [n], and leaves the buffer as it was: an AssertionError when
    [n] passes the cursor of a buffer that is not full, and otherwise a
    ValueError, [fetch] taking the maximum of an empty index array. *)
Theorem uniform_empty_batch_raises
    (b : ReplayBuffer.t) (n : Z) (discount : R) (draws : list Z) :
  ReplayBuffer.sample_multistep 0 discount n draws b
  = Exn (if (n <=? ReplayBuffer.idx b) || ReplayBuffer.full b
         then ValueError else AssertionError) b.
Proof.
  unfold ReplayBuffer.sample_multistep. rewrite bind_get.
  destruct ((n <=? ReplayBuffer.idx b) || ReplayBuffer.full b) eqn:Ha;
    [|rewrite bind_assert_false by reflexivity; reflexivity].
  rewrite bind_assert_true by reflexivity.
  erewrite bind_Val;
    [|unfold ReplayBuffer.sample_idxs; rewrite bind_get; reflexivity].
  unfold ReplayBuffer.fetch. rewrite bind_get.
  rewrite bind_orRaise_None by reflexivity. reflexivity.
Qed.

Lemma apply_entries_app (p : PrioritizedReplayBuffer.t) (es1 es2 : list (Z * R)) :
  apply_entries p (es1 ++ es2) = apply_entries (apply_entries p es1) es2.
Proof. unfold apply_entries. apply fold_left_app. Qed.

Lemma apply_entries_same_ring (es : list (Z * R)) :
  forall p : PrioritizedReplayBuffer.t, same_ring p (apply_entries p es).
Proof.
  induction es as [|e es IH]; intros p; [repeat split|].
  unfold apply_entries in *. cbn [fold_left].
  destruct (IH (apply_entry p e)) as (Hb & Ha & Hs & Hm).
  unfold same_ring. rewrite Hb, Ha, Hs, Hm. simpl.
  rewrite !length_insert. auto.
Qed.

(** Entries for other indices leave a leaf as it is. *)
Lemma apply_entries_untouched (j : nat) (es : list (Z * R)) :
  forall p : PrioritizedReplayBuffer.t,
    Forall (fun e => Z.to_nat (fst e) <> j) es ->
    PrioritizedReplayBuffer.sum_tree (apply_entries p es) !! j
    = PrioritizedReplayBuffer.sum_tree p !! j /\
    PrioritizedReplayBuffer.min_tree (apply_entries p es) !! j
    = PrioritizedReplayBuffer.min_tree p !! j.
Proof.
  induction es as [|e es IH]; intros p Hall; [auto|].
  apply Forall_cons in Hall as [He Hall].
  unfold apply_entries in *. cbn [fold_left].
  destruct (IH (apply_entry p e) Hall) as [Hs Hm]. rewrite Hs, Hm. simpl.
  rewrite !list_lookup_insert_ne by exact He. auto.
Qed.

(** A call of [update_priorities] whose entries are all valid. *)
Lemma update_priorities_all_valid (p : PrioritizedReplayBuffer.t) idxs prios :
  pwf p ->
  length idxs = length prios ->
  Forall (valid_entry p) (zip idxs prios) ->
  PrioritizedReplayBuffer.update_priorities idxs prios p
  = Val tt (apply_entries p (zip idxs prios)).
Proof.
  intros Hwf Hlen Hall. unfold PrioritizedReplayBuffer.update_priorities.
  rewrite bind_assert_true by (apply Nat.eqb_eq; exact Hlen).
  rewrite <- (app_nil_r (zip idxs prios)) at 1.
  rewrite update_loop_prefix by assumption. reflexivity.
Qed.

(** X8 -- priorities read back.  On a well-formed prioritized buffer a
    call of [update_priorities] with arrays of one length, positive
    priorities and indices in [[0, len)] returns; afterwards the leaf of each
    index holds, in both trees, [prio^alpha] for the last priority given for
    that index, the leaves of the indices that do not occur are as before,
    and the ring and [alpha] are untouched. *)
Theorem update_priorities_reads_back
    (p : PrioritizedReplayBuffer.t) (idxs : list Z) (prios : list R) :
  pwf p ->
  length idxs = length prios ->
  Forall (valid_entry p) (zip idxs prios) ->
  exists p',
    PrioritizedReplayBuffer.update_priorities idxs prios p = Val tt p' /\
    PrioritizedReplayBuffer.base p' = PrioritizedReplayBuffer.base p /\
    PrioritizedReplayBuffer.alpha p' = PrioritizedReplayBuffer.alpha p /\
    (forall es1 i prio es2,
        zip idxs prios = es1 ++ (i, prio) :: es2 ->
        Forall (fun e => fst e <> i) es2 ->
        SumSegmentTree.getitem (PrioritizedReplayBuffer.sum_tree p') i
        = Some (Rpower prio (PrioritizedReplayBuffer.alpha p)) /\
        MinSegmentTree.getitem (PrioritizedReplayBuffer.min_tree p') i
        = Some (Finite (Rpower prio (PrioritizedReplayBuffer.alpha p)))) /\
    (forall j : nat,
        Forall (fun e => Z.to_nat (fst e) <> j) (zip idxs prios) ->
        PrioritizedReplayBuffer.sum_tree p' !! j
        = PrioritizedReplayBuffer.sum_tree p !! j /\
        PrioritizedReplayBuffer.min_tree p' !! j
        = PrioritizedReplayBuffer.min_tree p !! j).
Proof.
  intros Hwf Hlen Hall.
  exists (apply_entries p (zip idxs prios)).
  split; [apply update_priorities_all_valid; assumption|].
  destruct (apply_entries_same_ring (zip idxs prios) p) as (Hb & Ha & Hs & Hm).
  split; [exact Hb|]. split; [exact Ha|]. split.
  - intros es1 i prio es2 Hzip Hlast. rewrite Hzip in *.
    rewrite apply_entries_app. unfold apply_entries at 1 3. cbn [fold_left].
    fold (apply_entries (apply_entry (apply_entries p es1) (i, prio)) es2).
    apply Forall_app in Hall as [_ Hall].
    apply Forall_cons in Hall as [[_ Hi] Hall2]. simpl in Hi.
    assert (Hlenp : PrioritizedReplayBuffer.len p
                    <= ReplayBuffer.capacity (PrioritizedReplayBuffer.base p)).
    { unfold PrioritizedReplayBuffer.len, ReplayBuffer.len.
      pose proof (wf_idx _ (pwf_base _ Hwf)).
      destruct (ReplayBuffer.full (PrioritizedReplayBuffer.base p)); lia. }
    pose proof (pwf_sum_tree _ Hwf) as Hst. pose proof (pwf_min_tree _ Hwf) as Hmt.
    destruct (apply_entries_same_ring es1 p) as (_ & Ha1 & Hs1 & Hm1).
    destruct (apply_entries_untouched (Z.to_nat i) es2
                (apply_entry (apply_entries p es1) (i, prio))) as [Hsl Hml].
    { rewrite Forall_forall in *. intros e He.
      specialize (Hlast e He). destruct (Hall2 e He) as [_ He0]. lia. }
    destruct (apply_entries_same_ring es2
                (apply_entry (apply_entries p es1) (i, prio)))
      as (_ & _ & Hs2 & Hm2).
    unfold apply_entry at 2 in Hs2. unfold apply_entry at 2 in Hm2.
    cbn [PrioritizedReplayBuffer.sum_tree PrioritizedReplayBuffer.min_tree]
      in Hs2, Hm2.
    rewrite length_insert in Hs2. rewrite length_insert in Hm2.
    unfold SumSegmentTree.getitem, MinSegmentTree.getitem.
    rewrite !getitem_in by lia.
    rewrite Hsl, Hml. simpl. rewrite Ha1.
    rewrite !list_lookup_insert_eq by lia. auto.
  - intros j Hj. apply apply_entries_untouched. exact Hj.
Qed.

(** Index 0 is given twice: the second priority is the one kept. *)
Lemma update_priorities_reads_back_witness :
  pwf pfull2 /\
  length [0; 1; 0] = length [2%R; 3%R; 5%R] /\
  Forall (valid_entry pfull2) (zip [0; 1; 0] [2%R; 3%R; 5%R]) /\
  exists p',
    PrioritizedReplayBuffer.update_priorities [0; 1; 0] [2%R; 3%R; 5%R] pfull2
    = Val tt p' /\
    SumSegmentTree.getitem (PrioritizedReplayBuffer.sum_tree p') 0 = Some 5%R /\
    SumSegmentTree.getitem (PrioritizedReplayBuffer.sum_tree p') 1 = Some 3%R.
Proof.
  assert (Hlen : length [0; 1; 0] = length [2%R; 3%R; 5%R]) by reflexivity.
  assert (Hall : Forall (valid_entry pfull2) (zip [0; 1; 0] [2%R; 3%R; 5%R])).
  { repeat constructor; simpl; try lra;
      unfold PrioritizedReplayBuffer.len, ReplayBuffer.len; simpl; lia. }
  split; [exact pfull2_pwf|]. split; [exact Hlen|]. split; [exact Hall|].
  destruct (update_priorities_reads_back pfull2 [0; 1; 0] [2%R; 3%R; 5%R]
              pfull2_pwf Hlen Hall) as (p' & Hrun & _ & _ & Hread & _).
  exists p'. split; [exact Hrun|]. split.
  - destruct (Hread [(0, 2%R); (1, 3%R)] 0 5%R [] eq_refl) as [H _];
      [constructor|].
    rewrite H. simpl. rewrite Rpower_1 by lra. reflexivity.
  - destruct (Hread [(0, 2%R)] 1 3%R [(0, 5%R)] eq_refl) as [H _];
      [repeat constructor; simpl; lia|].
    rewrite H. simpl. rewrite Rpower_1 by lra. reflexivity.
Defined.

#[local] Instance same_ring_preorder : PreOrder same_ring.
Proof.
  split.
  - intros p. repeat split.
  - intros p q r (Hb1 & Ha1 & Hs1 & Hm1) (Hb2 & Ha2 & Hs2 & Hm2).
    unfold same_ring. rewrite Hb2, Ha2, Hs2, Hm2. auto.
Qed.

Lemma setitem_length {V} (tree tree' : list V) (i : Z) (v : V) :
  SegmentTree.setitem tree i v = Some tree' -> length tree' = length tree.
Proof.
  unfold SegmentTree.setitem. destruct (SegmentTree.in_range tree i);
    [|discriminate].
  intros [= <-]. apply length_insert.
Qed.

Lemma sum_tree_set_same_ring i v (p : PrioritizedReplayBuffer.t) :
  preserves_at same_ring (PrioritizedReplayBuffer.sum_tree_set i v) p.
Proof.
  unfold PrioritizedReplayBuffer.sum_tree_set.
  apply preserves_get_bind.
  apply preserves_orRaise_bind; [apply _|]. intros tree Htree.
  apply preserves_put. unfold same_ring; simpl.
  apply setitem_length in Htree. auto.
Qed.

Lemma min_tree_set_same_ring i v (p : PrioritizedReplayBuffer.t) :
  preserves_at same_ring (PrioritizedReplayBuffer.min_tree_set i v) p.
Proof.
  unfold PrioritizedReplayBuffer.min_tree_set.
  apply preserves_get_bind.
  apply preserves_orRaise_bind; [apply _|]. intros tree Htree.
  apply preserves_put. unfold same_ring; simpl.
  apply setitem_length in Htree. auto.
Qed.

Lemma update_priority_same_ring e (p : PrioritizedReplayBuffer.t) :
  preserves_at same_ring (PrioritizedReplayBuffer.update_priority e) p.
Proof.
  destruct e as [i prio]. unfold PrioritizedReplayBuffer.update_priority.
  apply preserves_assert_bind; [apply _|]. intros _.
  apply preserves_get_bind.
  apply preserves_assert_bind; [apply _|]. intros _.
  apply preserves_orRaise_bind; [apply _|]. intros v _.
  apply preserves_bind; [apply _ | apply sum_tree_set_same_ring |].
  intros _ s2 _.
  apply preserves_get_bind.
  apply preserves_orRaise_bind; [apply _|]. intros v' _.
  apply preserves_bind; [apply _ | apply min_tree_set_same_ring |].
  intros _ s3 _.
  apply preserves_get_bind.
  apply preserves_put. repeat split.
Qed.

(** X9 -- what [update_priorities] never touches.  However the call ends,
    on any buffer and any arguments, the ring (the five arrays, the cursor,
    the flag, the capacity), [alpha] and the number of leaves of both trees
    are as before. *)
Theorem update_priorities_keeps_ring
    (p : PrioritizedReplayBuffer.t) (idxs : list Z) (prios : list R) :
  preserves_at same_ring (PrioritizedReplayBuffer.update_priorities idxs prios) p.
Proof.
  unfold PrioritizedReplayBuffer.update_priorities.
  apply preserves_assert_bind; [apply _|]. intros _.
  apply preserves_forM_; [apply _|]. intros e s.
  apply update_priority_same_ring.
Qed.

(** The prefix-sum lookup of a mass below the sum of the first [h] leaves
    stops at one of them. *)
Lemma scan_below_prefix (leaves : list R) :
  forall (mass : R) (i0 : Z) (h : nat),
    (0 <= mass)%R ->
    (mass < fold_right Rplus 0 (take h leaves))%R ->
    i0 <= SumSegmentTree.scan leaves mass i0 < i0 + Z.of_nat h.
Proof.
  induction leaves as [|v leaves IH]; intros mass i0 h Hm Hlt.
  - rewrite take_nil in Hlt. simpl in Hlt. lra.
  - destruct h as [|h]; [simpl in Hlt; lra|]. simpl in *.
    destruct (Rlt_dec mass v); [lia|].
    destruct (IH (mass - v)%R (i0 + 1) h) as [H1 H2]; [lra | lra | lia].
Qed.

(** The lookup never goes below the first leaf of a tree that has one. *)
Lemma scan_nonneg (leaves : list R) :
  forall (mass : R) (i0 : Z),
    leaves <> [] -> i0 <= SumSegmentTree.scan leaves mass i0.
Proof.
  induction leaves as [|v leaves IH]; intros mass i0 Hne; [contradiction|].
  simpl. destruct (Rlt_dec mass v); [lia|].
  destruct leaves as [|w leaves]; [simpl; lia|].
  specialize (IH (mass - v)%R (i0 + 1) ltac:(discriminate)). lia.
Qed.

Lemma sum_prefix (tree : list R) (hi : Z) (total : R) :
  SumSegmentTree.sum tree 0 hi = Some total ->
  0 <= hi /\ total = fold_right Rplus 0%R (take (Z.to_nat (hi + 1)) tree).
Proof.
  unfold SumSegmentTree.sum, SegmentTree.reduce, SegmentTree.in_range.
  destruct (Z.leb_spec 0 hi); simpl;
    [|rewrite andb_false_r; discriminate].
  destruct (_ && _); [|discriminate]. intros [= <-].
  rewrite Z.sub_0_r. simpl. auto.
Qed.

(** Every draw of [[0, 1)] is accepted when the range mass is positive. *)
Lemma draw_accepted (p : PrioritizedReplayBuffer.t) (batch_size n : Z)
    (total : R) (k : Z) (u : R) :
  SumSegmentTree.sum (PrioritizedReplayBuffer.sum_tree p) 0
    (PrioritizedReplayBuffer.len p - n - 1) = Some total ->
  (0 < total)%R ->
  0 <= k < batch_size ->
  (0 <= u < 1)%R ->
  0 <= band_index p (total / IZR batch_size) k u
  /\ band_index p (total / IZR batch_size) k u + n < PrioritizedReplayBuffer.len p.
Proof.
  intros Hsum Ht Hk Hu. apply sum_prefix in Hsum as [Hhi Htotal].
  assert (Hb : (0 < IZR batch_size)%R) by (apply IZR_lt; lia).
  assert (HW : (0 < total / IZR batch_size)%R) by (apply Rdiv_lt_0_compat; lra).
  assert (Hk0 : (0 <= IZR k)%R) by (apply IZR_le; lia).
  assert (Hk1 : (IZR k + 1 <= IZR batch_size)%R).
  { rewrite <- plus_IZR. apply IZR_le. lia. }
  pose proof (band_mass_in_band _ k u Hu HW) as [Hlo Hup].
  assert (Hmass : (0 <= band_mass (total / IZR batch_size) k u < total)%R).
  { split; [nra|].
    eapply Rlt_le_trans; [exact Hup|].
    replace total with (IZR batch_size * (total / IZR batch_size))%R at 2
      by (field; lra).
    apply Rmult_le_compat_r; lra. }
  unfold band_index, SumSegmentTree.find_prefixsum_idx.
  destruct (scan_below_prefix (PrioritizedReplayBuffer.sum_tree p)
              (band_mass (total / IZR batch_size) k u) 0
              (Z.to_nat (PrioritizedReplayBuffer.len p - n - 1 + 1)))
    as [H1 H2]; [lra | rewrite <- Htotal; lra |].
  lia.
Qed.

(** X10 -- the redraw loop does not spin.  When the range mass
    [sum(0, len - n - 1)] is positive, [batch_size >= 1] and the generator
    hands out at least [batch_size] numbers of [[0, 1)], [sample_idxs]
    returns after one draw per band: the index of band [k] is the lookup of
    the mass of the [k]-th draw, and it satisfies [0 <= idx] and
    [idx + n < len]. *)
Theorem psample_idxs_one_draw_per_band
    (p : PrioritizedReplayBuffer.t) (batch_size n : Z) (total : R)
    (draws : list R) :
  1 <= batch_size ->
  SumSegmentTree.sum (PrioritizedReplayBuffer.sum_tree p) 0
    (PrioritizedReplayBuffer.len p - n - 1) = Some total ->
  (0 < total)%R ->
  Forall (fun u => (0 <= u < 1)%R) draws ->
  batch_size <= Z.of_nat (length draws) ->
  exists idxs,
    PrioritizedReplayBuffer.sample_idxs batch_size n draws p = Val idxs p /\
    idxs = band_indices p (total / IZR batch_size) 0
             ((fun u => ([], u)) <$> take (Z.to_nat batch_size) draws) /\
    Z.of_nat (length idxs) = batch_size /\
    Forall (fun idx => 0 <= idx /\ idx + n < PrioritizedReplayBuffer.len p) idxs.
Proof.
  intros Hb Hsum Ht Hu Hd.
  set (W := (total / IZR batch_size)%R).
  set (us := take (Z.to_nat batch_size) draws).
  assert (Hus : Forall (fun u => (0 <= u < 1)%R) us) by (apply Forall_take, Hu).
  assert (Hlen : Z.of_nat (length us) = batch_size).
  { unfold us. rewrite length_take. lia. }
  assert (Hgen : forall (l : list R) (k : Z),
             0 <= k -> k + Z.of_nat (length l) <= batch_size ->
             Forall (fun u => (0 <= u < 1)%R) l ->
             consumed ((fun u => ([], u)) <$> l) = l /\
             served p W n k ((fun u => ([], u)) <$> l) /\
             Forall (fun idx => 0 <= idx
                                /\ idx + n < PrioritizedReplayBuffer.len p)
               (band_indices p W k ((fun u => ([], u)) <$> l))).
  { induction l as [|u l IH]; intros k Hk0 Hk Hl.
    - repeat split; constructor.
    - apply Forall_cons in Hl as [Hu0 Hl]. cbn [length] in Hk.
      destruct (IH (k + 1)) as (Hc & Hs & Hf); [lia | lia | exact Hl |].
      destruct (draw_accepted p batch_size n total k u Hsum Ht) as [Hi0 Hi1];
        [lia | exact Hu0 |].
      fold W in Hi0, Hi1.
      rewrite fmap_cons. cbn [consumed served band_indices app].
      split; [rewrite Hc; reflexivity|]. split.
      + split; [constructor|]. split; [unfold fits; lia | exact Hs].
      + constructor; [lia | exact Hf]. }
  destruct (Hgen us 0) as (Hc & Hs & Hf); [lia | lia | exact Hus |].
  eexists. split; [|split; [reflexivity|split]].
  - rewrite <- (take_drop (Z.to_nat batch_size) draws) at 1. fold us.
    rewrite <- Hc at 1.
    apply psample_idxs_served; try assumption.
    rewrite length_fmap. exact Hlen.
  - rewrite band_indices_length, length_fmap. exact Hlen.
  - exact Hf.
Qed.

Lemma psample_idxs_one_draw_per_band_witness :
  1 <= 2 /\
  SumSegmentTree.sum (PrioritizedReplayBuffer.sum_tree pfull2) 0
    (PrioritizedReplayBuffer.len pfull2 - 1 - 1) = Some (1 + 0)%R /\
  (0 < 1 + 0)%R /\
  Forall (fun u => (0 <= u < 1)%R) [(1 / 2)%R; (1 / 4)%R; (3 / 4)%R] /\
  2 <= Z.of_nat (length [(1 / 2)%R; (1 / 4)%R; (3 / 4)%R]) /\
  exists idxs,
    PrioritizedReplayBuffer.sample_idxs 2 1 [(1 / 2)%R; (1 / 4)%R; (3 / 4)%R]
      pfull2 = Val idxs pfull2 /\
    Z.of_nat (length idxs) = 2.
Proof.
  assert (Hb : 1 <= 2) by lia.
  assert (Hsum : SumSegmentTree.sum (PrioritizedReplayBuffer.sum_tree pfull2) 0
                   (PrioritizedReplayBuffer.len pfull2 - 1 - 1) = Some (1 + 0)%R)
    by reflexivity.
  assert (Ht : (0 < 1 + 0)%R) by lra.
  assert (Hu : Forall (fun u => (0 <= u < 1)%R)
                 [(1 / 2)%R; (1 / 4)%R; (3 / 4)%R])
    by (repeat constructor; lra).
  assert (Hd : 2 <= Z.of_nat (length [(1 / 2)%R; (1 / 4)%R; (3 / 4)%R]))
    by (cbn; lia).
  split; [exact Hb|]. split; [exact Hsum|]. split; [exact Ht|].
  split; [exact Hu|]. split; [exact Hd|].
  destruct (psample_idxs_one_draw_per_band pfull2 2 1 (1 + 0)%R _ Hb Hsum Ht Hu Hd)
    as (idxs & Hrun & _ & Hlen & _).
  exists idxs. split; [exact Hrun | exact Hlen].
Defined.

Lemma band_indices_nonneg (p : PrioritizedReplayBuffer.t) W blocks :
  PrioritizedReplayBuffer.sum_tree p <> [] ->
  forall k, Forall (fun idx => 0 <= idx) (band_indices p W k blocks).
Proof.
  intros Hne. induction blocks as [|[rej u] blocks IH]; intros k; simpl;
    [constructor|].
  constructor; [|apply IH].
  unfold band_index, SumSegmentTree.find_prefixsum_idx.
  apply scan_nonneg. exact Hne.
Qed.

Lemma psample_idxs_inv (p p' : PrioritizedReplayBuffer.t) batch_size n draws idxs :
  PrioritizedReplayBuffer.sample_idxs batch_size n draws p = Val idxs p' ->
  exists W blocks,
    served p W n 0 blocks /\ idxs = band_indices p W 0 blocks.
Proof.
  unfold PrioritizedReplayBuffer.sample_idxs. intros H. inv_run.
  match goal with
  | H : context [PrioritizedReplayBuffer.draw_bands ?p ?W ?n ?c ?k ?d] |- _ =>
      destruct (PrioritizedReplayBuffer.draw_bands p W n c k d) as [l|] eqn:Hd;
      [|discriminate]
  end.
  injection H as <- <-.
  destruct (draw_bands_inv _ _ _ _ _ _ _ Hd) as (blocks & rest & _ & _ & Hs & ->).
  eauto.
Qed.

Lemma Forall_zip_both {A B} (P : A -> Prop) (Q : B -> Prop) (l : list A) :
  forall k : list B,
    Forall P l -> Forall Q k ->
    Forall (fun e => P (fst e) /\ Q (snd e)) (zip l k).
Proof.
  induction l as [|x l IH]; intros [|y k] Hl Hk; simpl; try constructor.
  - apply Forall_cons in Hl as [? _]. apply Forall_cons in Hk as [? _]. auto.
  - apply Forall_cons in Hl as [_ ?]. apply Forall_cons in Hk as [_ ?]. auto.
Qed.

(** X11 -- the sampled indices can be fed back.  When the prioritized
    [sample_multistep] returns on a well-formed buffer with [n >= 1], the
    buffer is as before, there is one weight per index, every index lies in
    [[0, len)], and [update_priorities] called with these indices and any
    positive priorities, one per index, returns. *)
Theorem sampled_indices_can_be_updated
    (p p' : PrioritizedReplayBuffer.t) (batch_size n : Z) (beta discount : R)
    (draws : list R) (r : prioritized_sample) (prios : list R) :
  pwf p ->
  1 <= n ->
  PrioritizedReplayBuffer.sample_multistep batch_size beta discount n draws p
  = Val r p' ->
  length prios = length (ps_idxs r) ->
  Forall (fun prio => (0 < prio)%R) prios ->
  p' = p /\
  length (ps_weights r) = length (ps_idxs r) /\
  Forall (fun idx => 0 <= idx < PrioritizedReplayBuffer.len p) (ps_idxs r) /\
  exists p'',
    PrioritizedReplayBuffer.update_priorities (ps_idxs r) prios p' = Val tt p''.
Proof.
  intros Hwf Hn Hrun Hlen Hprios.
  assert (Hp : p' = p).
  { exact (unchanged_Val _ _ _ _ (psample_multistep_unchanged _ _ _ _ _ _) Hrun). }
  subst p'. split; [reflexivity|].
  unfold PrioritizedReplayBuffer.sample_multistep in Hrun. inv_run.
  injection Hrun as <- _. simpl in *.
  match goal with
  | E : PrioritizedReplayBuffer.sample_idxs _ _ _ _ = Val _ _ |- _ =>
      pose proof (psample_idxs_inv _ _ _ _ _ _ E) as (W & blocks & Hs & Hidxs)
  end.
  match goal with
  | E : mapM _ _ _ = Val _ _ |- _ => apply weights_inv in E as [_ Hws]
  end.
  apply Forall2_length in Hws.
  assert (Hne : PrioritizedReplayBuffer.sum_tree p <> []).
  { pose proof (pwf_sum_tree _ Hwf). pose proof (wf_capacity _ (pwf_base _ Hwf)).
    intros E. rewrite E in *. simpl in *. lia. }
  assert (Hall : Forall (fun idx => 0 <= idx < PrioritizedReplayBuffer.len p)
                   (band_indices p W 0 blocks)).
  { pose proof (band_indices_nonneg p W blocks Hne 0) as H0.
    pose proof (band_indices_fit _ _ _ _ _ Hs) as H1.
    rewrite Forall_forall in *. intros i Hi.
    specialize (H0 i Hi). specialize (H1 i Hi). unfold fits in H1. lia. }
  subst. split; [symmetry; exact Hws|]. split; [exact Hall|].
  eexists. apply update_priorities_all_valid; [exact Hwf | congruence |].
  apply (Forall_zip_both _ _ _ _ Hall) in Hprios.
  eapply Forall_impl; [exact Hprios|]. intros [i pr] [Hi Hpr].
  split; assumption.
Qed.

Lemma sampled_indices_can_be_updated_witness :
  exists r p'',
    pwf pfull2 /\ 1 <= 1 /\
    PrioritizedReplayBuffer.sample_multistep 1 1 (1 / 2) 1 [(1 / 2)%R] pfull2
    = Val r pfull2 /\
    length [4%R] = length (ps_idxs r) /\
    Forall (fun prio => (0 < prio)%R) [4%R] /\
    PrioritizedReplayBuffer.update_priorities (ps_idxs r) [4%R] pfull2
    = Val tt p''.
Proof.
  destruct pfull2_sample_multistep as (r & Hrun & Hidxs).
  assert (Hn : 1 <= 1) by lia.
  assert (Hlen : length [4%R] = length (ps_idxs r)) by (rewrite Hidxs; reflexivity).
  assert (Hpr : Forall (fun prio => (0 < prio)%R) [4%R])
    by (repeat constructor; lra).
  destruct (sampled_indices_can_be_updated pfull2 pfull2 1 1 1 (1 / 2)
              [(1 / 2)%R] r [4%R] pfull2_pwf Hn Hrun Hlen Hpr)
    as (_ & _ & _ & p'' & Hup).
  exists r, p''. repeat (split; [assumption || exact pfull2_pwf|]). exact Hup.
Defined.

(** * MultiAgentReplayBuffer *)

Section Deque.
Context {A : Type}.

Lemma deque_append_drop (maxlen : Z) (d : list A) (x : A) :
  0 <= maxlen ->
  Z.of_nat (length d) <= maxlen ->
  MultiAgentReplayBuffer.deque_append maxlen d x
  = drop (length (d ++ [x]) - Z.to_nat maxlen)%nat (d ++ [x]).
Proof.
  intros H0 Hd. unfold MultiAgentReplayBuffer.deque_append. cbv zeta.
  rewrite length_app. simpl length.
  destruct (maxlen <? Z.of_nat (length d + 1)) eqn:E.
  - apply Z.ltb_lt in E.
    replace (length d + 1 - Z.to_nat maxlen)%nat with 1%nat by lia.
    reflexivity.
  - apply Z.ltb_ge in E.
    replace (length d + 1 - Z.to_nat maxlen)%nat with 0%nat by lia.
    reflexivity.
Qed.

Lemma drop_window_snoc (m : nat) (hist : list A) (x : A) :
  let d := drop (length hist - m)%nat hist in
  drop (length (d ++ [x]) - m)%nat (d ++ [x])
  = drop (length (hist ++ [x]) - m)%nat (hist ++ [x]).
Proof.
  cbv zeta. rewrite !length_app, length_drop. simpl length.
  destruct (le_lt_dec m (length hist)) as [Hle | Hlt].
  - replace (length hist - (length hist - m) + 1 - m)%nat with 1%nat by lia.
    replace (length hist + 1 - m)%nat with ((length hist - m) + 1)%nat by lia.
    rewrite <- drop_drop. f_equal.
    rewrite drop_app_le by lia. reflexivity.
  - replace (length hist - m)%nat with 0%nat by lia.
    rewrite drop_0.
    replace (length hist - 0 + 1 - m)%nat with (length hist + 1 - m)%nat by lia.
    reflexivity.
Qed.

End Deque.

Lemma push_all_window (es : list experience) :
  forall (self : MultiAgentReplayBuffer.t) (hist : list experience),
    0 <= MultiAgentReplayBuffer.max_size self ->
    MultiAgentReplayBuffer.buffer self
    = drop (length hist - Z.to_nat (MultiAgentReplayBuffer.max_size self))%nat hist ->
    MultiAgentReplayBuffer.max_size (push_all es self)
    = MultiAgentReplayBuffer.max_size self /\
    MultiAgentReplayBuffer.num_agents (push_all es self)
    = MultiAgentReplayBuffer.num_agents self /\
    MultiAgentReplayBuffer.buffer (push_all es self)
    = drop (length (hist ++ es)
            - Z.to_nat (MultiAgentReplayBuffer.max_size self))%nat (hist ++ es).
Proof.
  induction es as [| e es IH]; intros self hist H0 Hbuf.
  - simpl. rewrite app_nil_r. auto.
  - set (self' := MultiAgentReplayBuffer.push (e_state e) (e_action e)
                    (e_reward e) (e_next_state e) (e_done e) self).
    change (push_all (e :: es) self) with (push_all es self').
    destruct (IH self' (hist ++ [e])) as (Hm & Hn & Hb).
    + exact H0.
    + subst self'. cbn [MultiAgentReplayBuffer.push
                          MultiAgentReplayBuffer.buffer
                          MultiAgentReplayBuffer.max_size].
      destruct e as [st ac rw ns dn]. cbn [e_state e_action e_reward e_next_state e_done].
      rewrite deque_append_drop.
      * rewrite Hbuf. apply drop_window_snoc.
      * exact H0.
      * rewrite Hbuf, length_drop. lia.
    + rewrite Hm, Hn, Hb. subst self'.
      cbn [MultiAgentReplayBuffer.push MultiAgentReplayBuffer.max_size
             MultiAgentReplayBuffer.num_agents].
      rewrite <- app_assoc. auto.
Qed.

(** X12 (MultiAgentReplayBuffer.__init__, push, __len__): a buffer built
    with [max_size] and then given the experiences [es] by [push] holds the
    last [max_size] of them, oldest first, so its length is the smaller of
    the number of pushes and [max_size]. *)
Theorem push_keeps_most_recent
    (num_agents max_size : Z) (self : MultiAgentReplayBuffer.t)
    (es : list experience) :
  MultiAgentReplayBuffer.init num_agents max_size = inr self ->
  MultiAgentReplayBuffer.buffer (push_all es self)
  = drop (length es - Z.to_nat max_size)%nat es /\
  MultiAgentReplayBuffer.len (push_all es self)
  = Z.min (Z.of_nat (length es)) max_size.
Proof.
  unfold MultiAgentReplayBuffer.init. intros Hinit.
  destruct (max_size <? 0) eqn:E; [discriminate |].
  apply Z.ltb_ge in E. injection Hinit as <-.
  destruct (push_all_window es (MultiAgentReplayBuffer.Make max_size num_agents []) [])
    as (_ & _ & Hb); [exact E | reflexivity |].
  simpl in Hb. unfold MultiAgentReplayBuffer.len. rewrite Hb. split.
  - reflexivity.
  - rewrite length_drop. lia.
Qed.

Lemma push_keeps_most_recent_witness :
  MultiAgentReplayBuffer.init 2 2 = inr two_agents /\
  MultiAgentReplayBuffer.buffer (push_all [exp_a; exp_b; exp_c] two_agents)
  = [exp_b; exp_c] /\
  MultiAgentReplayBuffer.len (push_all [exp_a; exp_b; exp_c] two_agents) = 2.
Proof.
  split; [reflexivity |].
  exact (push_keeps_most_recent 2 2 two_agents [exp_a; exp_b; exp_c] eq_refl).
Defined.

Section Rows.
Context {A : Type}.

Lemma snoc_rows_none (rows : list (list A)) (xs : list A) (i : nat) :
  snoc_rows rows xs i 0 = rows.
Proof.
  apply list_eq. intros j. unfold snoc_rows. rewrite list_lookup_imap.
  destruct (rows !! j) as [row |]; simpl; [| reflexivity].
  rewrite bool_decide_false by lia. reflexivity.
Qed.

Lemma snoc_rows_step (rows : list (list A)) (xs : list A) (i k : nat) (x : A) :
  xs !! i = Some x ->
  snoc_rows (MultiAgentReplayBuffer.append_at rows i x) xs (S i) k
  = snoc_rows rows xs i (S k).
Proof.
  intros Hx. apply list_eq. intros j.
  unfold snoc_rows, MultiAgentReplayBuffer.append_at.
  rewrite !list_lookup_imap, list_lookup_alter.
  destruct (decide (i = j)) as [<- | Hne].
  - destruct (rows !! i) as [row |]; simpl; [| reflexivity].
    rewrite bool_decide_false by lia. rewrite bool_decide_true by lia.
    rewrite Hx. reflexivity.
  - destruct (rows !! j) as [row |]; simpl; [| reflexivity].
    f_equal. repeat case_bool_decide; try reflexivity; lia.
Qed.

Lemma rows_of_snoc (get : experience -> list A) (batch : list experience)
    (rows : list (list A)) (e : experience) (n : nat) :
  length rows = n ->
  (n <= length (get e))%nat ->
  rows_of get batch rows ->
  rows_of get (batch ++ [e]) (snoc_rows rows (get e) 0 n).
Proof.
  intros Hlen Hn Hrows i row'. unfold snoc_rows. rewrite list_lookup_imap.
  destruct (rows !! i) as [row |] eqn:Hr; simpl; [| discriminate].
  pose proof (lookup_lt_Some _ _ _ Hr) as Hi.
  rewrite bool_decide_true by lia.
  destruct (lookup_lt_is_Some_2 (get e) i) as [x Hx]; [lia |].
  rewrite Hx. intros [= <-].
  apply Forall2_app.
  - exact (Hrows i row Hr).
  - constructor; [exact Hx | constructor].
Qed.

Lemma rows_of_empty (get : experience -> list A) (n : Z) :
  rows_of get [] (MultiAgentReplayBuffer.empty_rows n).
Proof.
  intros i row Hrow. unfold MultiAgentReplayBuffer.empty_rows in Hrow.
  apply lookup_replicate in Hrow as [-> _]. constructor.
Qed.

Lemma snoc_rows_length (rows : list (list A)) (xs : list A) (lo k : nat) :
  length (snoc_rows rows xs lo k) = length rows.
Proof. unfold snoc_rows. apply length_imap. Qed.

End Rows.

Lemma agent_loop_covers (e : experience) (k : nat) :
  forall (i : nat) (out : agent_batch),
    covers (i + k) e ->
    MultiAgentReplayBuffer.agent_loop e k i out
    = Returned
        (AgentBatch
           (snoc_rows (obs_batch out) (e_state e) i k)
           (snoc_rows (indiv_action_batch out) (e_action e) i k)
           (snoc_rows (indiv_reward_batch out) (e_reward e) i k)
           (snoc_rows (next_obs_batch out) (e_next_state e) i k)
           (global_state_batch out) (global_actions_batch out)
           (global_next_state_batch out) (done_batch out)).
Proof.
  induction k as [| k IH]; intros i out (Hs & Ha & Hr & Hn).
  - simpl. rewrite !snoc_rows_none. destruct out; reflexivity.
  - destruct (lookup_lt_is_Some_2 (e_state e) i) as [xs Hxs]; [lia |].
    destruct (lookup_lt_is_Some_2 (e_action e) i) as [xa Hxa]; [lia |].
    destruct (lookup_lt_is_Some_2 (e_reward e) i) as [xr Hxr]; [lia |].
    destruct (lookup_lt_is_Some_2 (e_next_state e) i) as [xn Hxn]; [lia |].
    simpl. unfold py_index. rewrite Hxs, Hxa, Hxr, Hxn.
    rewrite IH by (unfold covers; repeat split; lia).
    cbn [obs_batch indiv_action_batch indiv_reward_batch next_obs_batch
           global_state_batch global_actions_batch global_next_state_batch
           done_batch].
    rewrite !snoc_rows_step by assumption. reflexivity.
Qed.

Lemma agent_loop_short (e : experience) (k : nat) :
  forall (i : nat) (out : agent_batch),
    covers i e ->
    ~ covers (i + k) e ->
    MultiAgentReplayBuffer.agent_loop e k i out = Raised (Py IndexError).
Proof.
  induction k as [| k IH]; intros i out Hi Hk.
  - exfalso. apply Hk. replace (i + 0)%nat with i by lia. exact Hi.
  - simpl. unfold py_index.
    destruct (e_state e !! i) as [xs |] eqn:Hxs; [| reflexivity].
    destruct (e_action e !! i) as [xa |] eqn:Hxa; [| reflexivity].
    destruct (e_reward e !! i) as [xr |] eqn:Hxr; [| reflexivity].
    destruct (e_next_state e !! i) as [xn |] eqn:Hxn; [| reflexivity].
    apply lookup_lt_Some in Hxs, Hxa, Hxr, Hxn.
    apply IH.
    + unfold covers. repeat split; lia.
    + replace (S i + k)%nat with (i + S k)%nat by lia. exact Hk.
Qed.

Lemma covers_nonempty (n : nat) (e : experience) :
  (1 <= n)%nat -> covers n e ->
  e_state e <> [] /\ e_action e <> [] /\ e_next_state e <> [].
Proof.
  intros Hn (Hs & Ha & _ & Hx).
  repeat split; intros E; rewrite E in *; simpl in *; lia.
Qed.

Lemma experience_step_covers (num_agents : Z) (e : experience) (out : agent_batch) :
  1 <= num_agents ->
  covers (Z.to_nat num_agents) e ->
  MultiAgentReplayBuffer.experience_step num_agents e out
  = Returned
      (AgentBatch
         (snoc_rows (obs_batch out) (e_state e) 0 (Z.to_nat num_agents))
         (snoc_rows (indiv_action_batch out) (e_action e) 0 (Z.to_nat num_agents))
         (snoc_rows (indiv_reward_batch out) (e_reward e) 0 (Z.to_nat num_agents))
         (snoc_rows (next_obs_batch out) (e_next_state e) 0 (Z.to_nat num_agents))
         (global_state_batch out ++ [concat (e_state e)])
         (global_actions_batch out ++ [concat (e_action e)])
         (global_next_state_batch out ++ [concat (e_next_state e)])
         (done_batch out ++ [e_done e])).
Proof.
  intros Hn Hc. unfold MultiAgentReplayBuffer.experience_step.
  rewrite agent_loop_covers by exact Hc.
  destruct (covers_nonempty (Z.to_nat num_agents) e) as (Hs & Ha & Hx);
    [lia | exact Hc |].
  unfold np_concatenate, torch_cat.
  destruct (e_state e) as [| s0 ss]; [congruence |].
  destruct (e_action e) as [| a0 aa]; [congruence |].
  destruct (e_next_state e) as [| n0 nn]; [congruence |].
  reflexivity.
Qed.

Lemma experience_step_short (num_agents : Z) (e : experience) (out : agent_batch) :
  ~ covers (Z.to_nat num_agents) e ->
  MultiAgentReplayBuffer.experience_step num_agents e out = Raised (Py IndexError).
Proof.
  intros Hc. unfold MultiAgentReplayBuffer.experience_step.
  rewrite agent_loop_short; [reflexivity | | exact Hc].
  unfold covers. repeat split; lia.
Qed.

#[local] Instance covers_dec (n : nat) (e : experience) : Decision (covers n e).
Proof. unfold covers. apply _. Defined.

Lemma transposed_step (num_agents : Z) (batch : list experience)
    (e : experience) (out : agent_batch) :
  covers (Z.to_nat num_agents) e ->
  transposed (Z.to_nat num_agents) batch out ->
  transposed (Z.to_nat num_agents) (batch ++ [e])
    (AgentBatch
       (snoc_rows (obs_batch out) (e_state e) 0 (Z.to_nat num_agents))
       (snoc_rows (indiv_action_batch out) (e_action e) 0 (Z.to_nat num_agents))
       (snoc_rows (indiv_reward_batch out) (e_reward e) 0 (Z.to_nat num_agents))
       (snoc_rows (next_obs_batch out) (e_next_state e) 0 (Z.to_nat num_agents))
       (global_state_batch out ++ [concat (e_state e)])
       (global_actions_batch out ++ [concat (e_action e)])
       (global_next_state_batch out ++ [concat (e_next_state e)])
       (done_batch out ++ [e_done e])).
Proof.
  intros (Hs & Ha & Hr & Hx) [L1 L2 L3 L4 R1 R2 R3 R4 G1 G2 G3 G4].
  constructor; cbn [obs_batch indiv_action_batch indiv_reward_batch
                      next_obs_batch global_state_batch global_actions_batch
                      global_next_state_batch done_batch].
  - rewrite snoc_rows_length. exact L1.
  - rewrite snoc_rows_length. exact L2.
  - rewrite snoc_rows_length. exact L3.
  - rewrite snoc_rows_length. exact L4.
  - apply rows_of_snoc; assumption.
  - apply rows_of_snoc; assumption.
  - apply rows_of_snoc; assumption.
  - apply rows_of_snoc; assumption.
  - rewrite G1, map_app. reflexivity.
  - rewrite G2, map_app. reflexivity.
  - rewrite G3, map_app. reflexivity.
  - rewrite G4, map_app. reflexivity.
Qed.

Lemma batch_loop_transposed (num_agents : Z) (batch : list experience) :
  forall (seen : list experience) (out : agent_batch),
    1 <= num_agents ->
    Forall (covers (Z.to_nat num_agents)) batch ->
    transposed (Z.to_nat num_agents) seen out ->
    exists r : agent_batch,
      MultiAgentReplayBuffer.batch_loop num_agents batch out = Returned r /\
      transposed (Z.to_nat num_agents) (seen ++ batch) r.
Proof.
  induction batch as [| e batch IH]; intros seen out Hn Hall Hout.
  - exists out. rewrite app_nil_r. split; [reflexivity | exact Hout].
  - inversion Hall as [| ? ? He Hrest]; subst.
    simpl. rewrite experience_step_covers by assumption.
    destruct (IH (seen ++ [e]) _ Hn Hrest (transposed_step _ _ _ _ He Hout))
      as (r & Hr & Ht).
    exists r. split; [exact Hr |].
    rewrite <- app_assoc in Ht. exact Ht.
Qed.

Lemma batch_loop_short (num_agents : Z) (batch : list experience) :
  forall out : agent_batch,
    1 <= num_agents ->
    Exists (fun e => ~ covers (Z.to_nat num_agents) e) batch ->
    MultiAgentReplayBuffer.batch_loop num_agents batch out
    = Raised (Py IndexError).
Proof.
  induction batch as [| e batch IH]; intros out Hn Hex.
  - inversion Hex.
  - simpl. destruct (decide (covers (Z.to_nat num_agents) e)) as [Hc | Hc].
    + rewrite experience_step_covers by assumption.
      apply IH; [exact Hn |].
      inversion Hex; subst; [contradiction | assumption].
    + rewrite experience_step_short by exact Hc. reflexivity.
Qed.

Lemma pick_all_Some {A} (population : list A) (picks : list nat) :
  Forall (fun i => (i < length population)%nat) picks ->
  exists l : list A,
    pick_all population picks = Some l /\
    Forall2 (fun i x => population !! i = Some x) picks l.
Proof.
  induction 1 as [| i picks Hi _ IH].
  - exists []. split; [reflexivity | constructor].
  - destruct IH as (l & Hl & Hall).
    destruct (lookup_lt_is_Some_2 population i Hi) as [x Hx].
    exists (x :: l). simpl. rewrite Hx, Hl. split; [reflexivity |].
    constructor; assumption.
Qed.

Lemma random_sample_Returned {A} (population : list A) (k : Z) (picks : list nat) :
  0 <= k <= Z.of_nat (length population) ->
  k <= Z.of_nat (length picks) ->
  Forall (fun i => (i < length population)%nat) picks ->
  exists batch : list A,
    random_sample population k picks = Returned batch /\
    Forall2 (fun i x => population !! i = Some x) (take (Z.to_nat k) picks) batch.
Proof.
  intros Hk Hp Hall. unfold random_sample.
  replace (k <? 0) with false by (symmetry; apply Z.ltb_ge; lia).
  replace (Z.of_nat (length population) <? k) with false
    by (symmetry; apply Z.ltb_ge; lia).
  replace (Z.of_nat (length picks) <? k) with false
    by (symmetry; apply Z.ltb_ge; lia).
  simpl.
  destruct (pick_all_Some population (take (Z.to_nat k) picks))
    as (l & Hl & HF).
  - apply Forall_take. exact Hall.
  - exists l. rewrite Hl. split; [reflexivity | exact HF].
Qed.

Lemma transposed_empty (num_agents : Z) :
  transposed (Z.to_nat num_agents) []
    (AgentBatch (MultiAgentReplayBuffer.empty_rows num_agents)
       (MultiAgentReplayBuffer.empty_rows num_agents)
       (MultiAgentReplayBuffer.empty_rows num_agents)
       (MultiAgentReplayBuffer.empty_rows num_agents) [] [] [] []).
Proof.
  constructor; cbn [obs_batch indiv_action_batch indiv_reward_batch
                      next_obs_batch global_state_batch global_actions_batch
                      global_next_state_batch done_batch];
    try reflexivity;
    try (unfold MultiAgentReplayBuffer.empty_rows; apply length_replicate);
    apply rows_of_empty.
Qed.

(** X13 (MultiAgentReplayBuffer.sample): when the batch size is between 0
    and the number of stored experiences, the generator picks positions of
    the buffer, there is at least one agent and every stored experience has
    an entry for each agent, [sample] returns, and what it returns is the
    picked experiences transposed: one row per agent holding that agent's
    entry of each picked experience in order, and for each picked experience
    the concatenation of its states, actions and next states and its
    [done] flag. *)
Theorem sample_transposes
    (self : MultiAgentReplayBuffer.t) (batch_size : Z) (picks : list nat) :
  1 <= MultiAgentReplayBuffer.num_agents self ->
  0 <= batch_size <= MultiAgentReplayBuffer.len self ->
  batch_size <= Z.of_nat (length picks) ->
  Forall (fun i => (i < length (MultiAgentReplayBuffer.buffer self))%nat) picks ->
  Forall (covers (Z.to_nat (MultiAgentReplayBuffer.num_agents self)))
         (MultiAgentReplayBuffer.buffer self) ->
  exists (batch : list experience) (r : agent_batch),
    Forall2 (fun i e => MultiAgentReplayBuffer.buffer self !! i = Some e)
            (take (Z.to_nat batch_size) picks) batch /\
    Z.of_nat (length batch) = batch_size /\
    MultiAgentReplayBuffer.sample batch_size picks self = Returned r /\
    transposed (Z.to_nat (MultiAgentReplayBuffer.num_agents self)) batch r.
Proof.
  intros Hn Hk Hp Hin Hcov.
  destruct (random_sample_Returned (MultiAgentReplayBuffer.buffer self)
              batch_size picks Hk Hp Hin) as (batch & Hb & HF).
  assert (Hcb : Forall (covers (Z.to_nat (MultiAgentReplayBuffer.num_agents self)))
                       batch).
  { apply Forall_lookup. intros j e Hj.
    destruct (Forall2_lookup_r _ _ _ _ _ HF Hj) as (i & _ & Hi).
    exact (Forall_lookup_1 _ _ _ _ Hcov Hi). }
  destruct (batch_loop_transposed (MultiAgentReplayBuffer.num_agents self)
              batch [] _ Hn Hcb
              (transposed_empty (MultiAgentReplayBuffer.num_agents self)))
    as (r & Hr & Ht).
  exists batch, r. split; [exact HF |]. split.
  - apply Forall2_length in HF. rewrite <- HF, length_take. lia.
  - split; [| exact Ht].
    unfold MultiAgentReplayBuffer.sample. cbv zeta. rewrite Hb. exact Hr.
Qed.

Lemma sample_transposes_witness :
  exists (batch : list experience) (r : agent_batch),
    Forall2 (fun i e =>
               MultiAgentReplayBuffer.buffer
                 (push_all [exp_a; exp_b; exp_c] two_agents) !! i = Some e)
            (take (Z.to_nat 2) [1%nat; 0%nat]) batch /\
    Z.of_nat (length batch) = 2 /\
    MultiAgentReplayBuffer.sample 2 [1%nat; 0%nat]
      (push_all [exp_a; exp_b; exp_c] two_agents) = Returned r /\
    transposed
      (Z.to_nat (MultiAgentReplayBuffer.num_agents
                   (push_all [exp_a; exp_b; exp_c] two_agents))) batch r.
Proof.
  apply (sample_transposes (push_all [exp_a; exp_b; exp_c] two_agents) 2
           [1%nat; 0%nat]).
  - vm_compute. discriminate.
  - split; vm_compute; discriminate.
  - vm_compute. discriminate.
  - repeat constructor; vm_compute; lia.
  - repeat constructor; vm_compute; lia.
Defined.

(** X14 (MultiAgentReplayBuffer.sample): with at least one agent, as soon as
    one of the picked experiences has fewer entries than agents in its
    states, actions, rewards or next states, [sample] raises IndexError;
    the concatenations are never what fails. *)
Theorem sample_short_experience_raises
    (self : MultiAgentReplayBuffer.t) (batch_size : Z) (picks : list nat)
    (batch : list experience) :
  1 <= MultiAgentReplayBuffer.num_agents self ->
  random_sample (MultiAgentReplayBuffer.buffer self) batch_size picks
  = Returned batch ->
  Exists (fun e =>
            ~ covers (Z.to_nat (MultiAgentReplayBuffer.num_agents self)) e)
         batch ->
  MultiAgentReplayBuffer.sample batch_size picks self = Raised (Py IndexError).
Proof.
  intros Hn Hb Hex. unfold MultiAgentReplayBuffer.sample. cbv zeta.
  rewrite Hb. apply batch_loop_short; assumption.
Qed.

Lemma sample_short_experience_raises_witness :
  MultiAgentReplayBuffer.sample 2 [1%nat; 0%nat]
    (MultiAgentReplayBuffer.Make 2 3 [exp_a; exp_b])
  = Raised (Py IndexError).
Proof.
  apply (sample_short_experience_raises
           (MultiAgentReplayBuffer.Make 2 3 [exp_a; exp_b]) 2 [1%nat; 0%nat]
           [exp_b; exp_a]).
  - cbn. lia.
  - reflexivity.
  - apply Exists_cons_hd. unfold covers. cbn. lia.
Defined.

(** X15 (MultiAgentReplayBuffer.push, sample): however many experiences
    have been pushed, asking [sample] for more than [max_size] of them, or
    for more than have been pushed, raises ValueError. *)
Theorem sample_more_than_stored_raises
    (num_agents max_size : Z) (self : MultiAgentReplayBuffer.t)
    (es : list experience) (batch_size : Z) (picks : list nat) :
  MultiAgentReplayBuffer.init num_agents max_size = inr self ->
  Z.min (Z.of_nat (length es)) max_size < batch_size ->
  MultiAgentReplayBuffer.sample batch_size picks (push_all es self)
  = Raised (Py ValueError).
Proof.
  unfold MultiAgentReplayBuffer.init. intros Hinit Hk.
  destruct (max_size <? 0) eqn:E; [discriminate |].
  apply Z.ltb_ge in E. injection Hinit as <-.
  destruct (push_all_window es (MultiAgentReplayBuffer.Make max_size num_agents []) [])
    as (_ & _ & Hb); [exact E | reflexivity |].
  simpl in Hb.
  unfold MultiAgentReplayBuffer.sample, random_sample. cbv zeta.
  rewrite Hb, length_drop.
  replace (Z.of_nat (length es - (length es - Z.to_nat max_size)) <? batch_size)
    with true by (symmetry; apply Z.ltb_lt; lia).
  rewrite orb_true_r. reflexivity.
Qed.

Lemma sample_more_than_stored_raises_witness :
  MultiAgentReplayBuffer.sample 3 [0%nat; 1%nat; 2%nat]
    (push_all [exp_a; exp_b; exp_c] two_agents)
  = Raised (Py ValueError).
Proof.
  apply (sample_more_than_stored_raises 2 2 two_agents
           [exp_a; exp_b; exp_c] 3 [0%nat; 1%nat; 2%nat]).
  - reflexivity.
  - cbn. lia.
Defined.
